(** * Travelling-salesman metaheuristics: a shallow embedding

    The development follows the four source files of the repository:

    - [Operators]   : the crossover and mutation closures of the richer
                      genetic driver (crossover_one_point,
                      crossover_two_point,
                      mutation_change_one_city_descending), the decoding of
                      the factoradic encoding, and init_pop of
                      12_ga_island/generic_ga.cpp, which builds its
                      permutations by the same successive removal;
    - [LocalSearch] : neighbour generation, deterministic hill climbing and
                      tabu search (5/salesman.cpp);
    - [BruteForce]  : brute_force_find_solution (5/salesman.cpp);
    - [Engine]      : the generational loop genetic_algorithm
                      (9/src/salesman.cpp);
    - [Island]      : the migration event of ep
                      (12_ga_island/generic_ga.cpp).

    Conventions.  A C++ [int] is a [Z]; a [size_t] is a [Z] reduced modulo
    [2^64] where the source mixes it with [int].  A [double] that is never
    NaN is a [Q]: only its order is used.  Undefined behaviour of the
    source (indexing a vector out of range, [back()] or dereferencing
    [end()] on an empty container, a uniform distribution whose bounds are
    reversed) and a thrown [out_of_range] are the failure [None].  The
    global random engine and whatever the closures capture by reference
    form a state that is threaded through every call.  The header
    salesman.hpp is not among the sources: what it declares is either a
    parameter or, where a statement depends on what it computes, a
    definition introduced as modelled from the specification. *)

From Stdlib Require Import ZArith QArith Lia List Permutation.
From Stdlib Require Strings.String.
From stdpp Require Import base list option numbers.
Import ListNotations.

Local Open Scope Z_scope.

(** ** Shared vocabulary *)

Module Prelude.

(** State and failure: the type of a computation that reads and advances the
    outside state [W] and may hit undefined behaviour. *)
Definition M (W A : Type) : Type := W → option (A * W).

#[global] Instance M_ret {W} : MRet (M W) := λ A x w, Some (x, w).

#[global] Instance M_bind {W} : MBind (M W) := λ A B f m w,
  match m w with
  | Some (x, w') => f x w'
  | None => None
  end.

(** A pure, possibly undefined, step. *)
Definition lift {W A} (o : option A) : M W A := λ w,
  match o with
  | Some x => Some (x, w)
  | None => None
  end.

(** [v[i]] and [v[i] = x] on a [std::vector] with an [int] index. *)
Definition vec_get {A} (v : list A) (i : Z) : option A :=
  if decide (0 ≤ i) then v !! Z.to_nat i else None.

Definition vec_set {A} (v : list A) (i : Z) (x : A) : option (list A) :=
  if decide (0 ≤ i < Z.of_nat (length v)) then Some (<[Z.to_nat i := x]> v)
  else None.

(** [v.size()] read as an [int]. *)
Definition size {A} (v : list A) : Z := Z.of_nat (length v).

(** [v.back()], undefined on an empty container. *)
Definition back {A} (v : list A) : option A := list.last v.

(** [x < y] on doubles. *)
Definition Qltb (x y : Q) : bool := negb (Qle_bool y x).

(** A [size_t] value: arithmetic modulo [2^64]. *)
Definition to_size_t (z : Z) : Z := z mod 2 ^ 64.

(** [*std::max_element(first, last, comp)] with [comp l r = key l < key r]:
    the first element that no later one exceeds; dereferencing the result on
    an empty range is undefined. *)
Definition max_element {X} (key : X → Q) (v : list X) : option X :=
  match v with
  | [] => None
  | x :: r =>
      Some (fold_left
              (λ largest y, if Qltb (key largest) (key y) then y else largest)
              r x)
  end.

Lemma Qltb_lt x y : Qltb x y = true ↔ (x < y)%Q.
Proof.
  unfold Qltb. rewrite negb_true_iff, <- not_true_iff_false, Qle_bool_iff.
  split; [apply Qnot_le_lt | apply Qlt_not_le].
Qed.

Lemma Qltb_ge x y : Qltb x y = false ↔ (y <= x)%Q.
Proof.
  unfold Qltb. rewrite negb_false_iff, Qle_bool_iff. reflexivity.
Qed.

Lemma vec_get_nat {A} (v : list A) (i : nat) : vec_get v (Z.of_nat i) = v !! i.
Proof.
  unfold vec_get. destruct (decide _) as [_|H]; [|lia].
  by rewrite Nat2Z.id.
Qed.

Lemma vec_set_nat {A} (v : list A) (i : nat) x :
  (i < length v)%nat → vec_set v (Z.of_nat i) x = Some (<[i := x]> v).
Proof.
  intros Hi. unfold vec_set. destruct (decide _) as [_|H]; [|lia].
  by rewrite Nat2Z.id.
Qed.

Lemma fold_largest_spec {X} (key : X → Q) (r : list X) :
  ∀ x,
    let m := fold_left
               (λ largest y, if Qltb (key largest) (key y) then y else largest)
               r x in
    m ∈ x :: r ∧ ∀ y, y ∈ x :: r → (key y <= key m)%Q.
Proof.
  induction r as [|z r IH]; intros x; simpl.
  - split; [by left|]. intros y Hy. apply list_elem_of_singleton in Hy as ->.
    apply Qle_refl.
  - destruct (Qltb (key x) (key z)) eqn:E.
    + apply Qltb_lt in E. destruct (IH z) as [Hin Hmax].
      split; [by right|]. intros y Hy.
      apply elem_of_cons in Hy as [->|Hy]; [|by apply Hmax].
      eapply Qle_trans; [apply Qlt_le_weak, E|]. apply Hmax. by left.
    + apply Qltb_ge in E. destruct (IH x) as [Hin Hmax].
      split.
      * apply elem_of_cons in Hin as [->|Hin]; [by left | by right; right].
      * intros y Hy. apply elem_of_cons in Hy as [->|Hy]; [apply Hmax; by left|].
        apply elem_of_cons in Hy as [->|Hy].
        -- eapply Qle_trans; [exact E|]. apply Hmax. by left.
        -- apply Hmax. by right.
Qed.

Lemma max_element_spec {X} (key : X → Q) (v : list X) m :
  max_element key v = Some m → m ∈ v ∧ ∀ y, y ∈ v → (key y <= key m)%Q.
Proof.
  destruct v as [|x r]; [done|]. simpl. intros [= <-].
  apply fold_largest_spec.
Qed.

Lemma max_element_defined {X} (key : X → Q) (v : list X) :
  v ≠ [] → is_Some (max_element key v).
Proof. destruct v; [done|]. simpl. eauto. Qed.

End Prelude.

Import Prelude.

(** ** Genetic operators on the factoradic encoding *)

Module Operators.

(** The gene vector [solution] of an [alternative_solution_t]. *)
Abbreviation alternative_solution_t := (list Z) (only parsing).

(** A tour: the vector [cities_to_see] of a [solution_t]. *)
Abbreviation solution_t := (list nat) (only parsing).

(** Every gene within its positional bound: position [i] of a vector for
    [n] cities holds a value of [[0, n - i)]. *)
Definition well_formed (n : nat) (a : alternative_solution_t) : Prop :=
  length a = n ∧
  ∀ (i : nat) g, a !! i = Some g → 0 ≤ g < Z.of_nat n - Z.of_nat i.

(** The body shared by both crossovers,
    [for (...; i++) { new_a.solution[i] = b.solution[i];
                      new_b.solution[i] = a.solution[i]; }],
    run for [k] rounds from index [i]. *)
Fixpoint swap_genes (k : nat) (i : Z) (a b : alternative_solution_t)
    (new_a new_b : alternative_solution_t)
    : option (alternative_solution_t * alternative_solution_t) :=
  match k with
  | O => Some (new_a, new_b)
  | S k' =>
      bi ← vec_get b i;
      new_a' ← vec_set new_a i bi;
      ai ← vec_get a i;
      new_b' ← vec_set new_b i ai;
      swap_genes k' (i + 1) a b new_a' new_b'
  end.

Section Random.

(** The state of the global [generator]. *)
Context {W : Type}.

(** [uniform_int_distribution<int>(lo, hi)(generator)] and
    [uniform_real_distribution<double>(lo, hi)(generator)]. *)
Variable uniform_int_distribution : Z → Z → W → Z * W.
Variable uniform_real_distribution : Q → Q → W → Q * W.

(** The integer distribution requires [lo <= hi]. *)
Definition draw_int (lo hi : Z) : M W Z := λ w,
  if decide (lo ≤ hi) then Some (uniform_int_distribution lo hi w) else None.

Definition draw_real (lo hi : Q) : M W Q := λ w,
  Some (uniform_real_distribution lo hi w).

Definition crossover_one_point (a b : alternative_solution_t)
    : M W (alternative_solution_t * alternative_solution_t) :=
  cross_point ← draw_int 0 (size a - 1);
  lift (swap_genes (Z.to_nat (size a - cross_point)) cross_point a b a b).

Definition crossover_two_point (a b : alternative_solution_t)
    : M W (alternative_solution_t * alternative_solution_t) :=
  cross_point_a ← draw_int 0 (size a - 1);
  cross_point_b ← draw_int 0 (size a - 1);
  let '(cross_point_a, cross_point_b) :=
    if decide (cross_point_a > cross_point_b)
    then (cross_point_b, cross_point_a)
    else (cross_point_a, cross_point_b) in
  lift (swap_genes (Z.to_nat (cross_point_b - cross_point_a))
          cross_point_a a b a b).

(** [new_a] is declared [decltype(a)], a reference: the source writes the
    gene through to its argument as well; the value returned is what is
    modelled. *)
Definition mutation_change_one_city_descending
    (a : alternative_solution_t) (mutation_probability : Q)
    : M W alternative_solution_t :=
  u ← draw_real 0 1;
  if Qltb u mutation_probability then
    mut_point ← draw_int 0 (size a - 2);
    v ← draw_int 0 ((size a - 1) - mut_point);
    lift (vec_set a mut_point v)
  else mret a.

End Random.

(** A [chromosome_t] of generic_ga.cpp: a [vector<int>]. *)
Abbreviation chromosome_t := (list Z) (only parsing).

(** Modelled from the spec: alternative_solution_t::get_solution is declared
    in salesman.hpp, which is not among the sources.  The spec decodes by
    "successively remov[ing] the k-th remaining city index"; this is also the
    inner loop of init_pop in generic_ga.cpp,
    [c.push_back(numbers[x]); numbers.erase(numbers.begin() + x);],
    with the genes in the place of the draws [x]. *)
Fixpoint decode_from {A} (numbers : list A) (a : alternative_solution_t)
    : option (list A) :=
  match a with
  | [] => Some []
  | x :: a' =>
      city ← vec_get numbers x;
      c ← decode_from (delete (Z.to_nat x) numbers) a';
      Some (city :: c)
  end.

Definition decode (n : nat) (a : alternative_solution_t) : option solution_t :=
  decode_from (seq 0 n) a.

(** *** init_pop of generic_ga.cpp *)

(** [for (int i = 0; i < n; i++) numbers.push_back(i);], [k] rounds from
    [i]. *)
Fixpoint push_numbers (k : nat) (i : Z) (numbers : chromosome_t)
    : chromosome_t :=
  match k with
  | O => numbers
  | S k' => push_numbers k' (i + 1) (numbers ++ [i])
  end.

Section InitPop.

Context {W : Type}.
Variable uniform_int_distribution : Z → Z → W → Z * W.

(** The loop over [j]: [k] rounds from [j]; it returns what is left of
    [numbers] and the chromosome [c]. *)
Fixpoint draw_cities (k : nat) (j n : Z) (numbers c : chromosome_t)
    : M W (chromosome_t * chromosome_t) :=
  match k with
  | O => mret (numbers, c)
  | S k' =>
      x ← draw_int uniform_int_distribution 0 (n - 1 - j);
      city ← lift (vec_get numbers x);
      draw_cities k' (j + 1) n (delete (Z.to_nat x) numbers) (c ++ [city])
  end.

(** The loop over the [s] individuals; [numbers] lives across its rounds. *)
Fixpoint init_pop_from (k : nat) (n : Z) (numbers : chromosome_t)
    (ret : list chromosome_t) : M W (list chromosome_t) :=
  match k with
  | O => mret ret
  | S k' =>
      nc ← draw_cities (Z.to_nat n) 0 n
              (push_numbers (Z.to_nat n) 0 numbers) [];
      init_pop_from k' n nc.1 (ret ++ [nc.2])
  end.

Definition init_pop (s n : Z) : M W (list chromosome_t) :=
  init_pop_from (Z.to_nat s) n [] [].

End InitPop.

(** *** What the gene swap computes *)

Lemma swap_genes_spec (a b : alternative_solution_t) (k : nat) :
  ∀ (i : nat) (new_a new_b : alternative_solution_t),
    length b = length a → length new_a = length a → length new_b = length a →
    (i + k ≤ length a)%nat →
    ∃ new_a' new_b',
      swap_genes k (Z.of_nat i) a b new_a new_b = Some (new_a', new_b') ∧
      length new_a' = length a ∧ length new_b' = length a ∧
      ∀ j : nat,
        new_a' !! j = (if decide (i ≤ j < i + k)%nat then b !! j else new_a !! j) ∧
        new_b' !! j = (if decide (i ≤ j < i + k)%nat then a !! j else new_b !! j).
Proof.
  induction k as [|k IH]; intros i new_a new_b Hb Hna Hnb Hik; simpl.
  - exists new_a, new_b. repeat split; try done;
      destruct (decide _); try done; lia.
  - destruct (lookup_lt_is_Some_2 b i) as [bi Hbi]; [lia|].
    destruct (lookup_lt_is_Some_2 a i) as [ai Hai]; [lia|].
    rewrite !vec_get_nat, Hbi, Hai. simpl.
    rewrite vec_set_nat by lia. simpl.
    rewrite vec_set_nat by lia. simpl.
    replace (Z.of_nat i + 1) with (Z.of_nat (S i)) by lia.
    destruct (IH (S i) (<[i:=bi]> new_a) (<[i:=ai]> new_b))
      as (na' & nb' & Heq & Hla & Hlb & Hlook);
      rewrite ?length_insert; try done; try lia.
    exists na', nb'. repeat split; try done; destruct (Hlook j) as [H1 H2].
    + rewrite H1. destruct (decide (i = j)) as [->|Hne].
      * rewrite list_lookup_insert_eq by lia.
        repeat destruct (decide _); try done; lia.
      * rewrite list_lookup_insert_ne by done.
        repeat destruct (decide _); try done; lia.
    + rewrite H2. destruct (decide (i = j)) as [->|Hne].
      * rewrite list_lookup_insert_eq by lia.
        repeat destruct (decide _); try done; lia.
      * rewrite list_lookup_insert_ne by done.
        repeat destruct (decide _); try done; lia.
Qed.

Lemma well_formed_pointwise n (a b c : alternative_solution_t) :
  well_formed n a → well_formed n b → length c = n →
  (∀ j : nat, c !! j = a !! j ∨ c !! j = b !! j) →
  well_formed n c.
Proof.
  intros [_ Ha] [_ Hb] Hc Hpt. split; [done|].
  intros i g Hg. destruct (Hpt i) as [H|H]; rewrite H in Hg; eauto.
Qed.

Lemma decode_from_permutation {A} (a : alternative_solution_t) :
  ∀ numbers : list A,
    length a = length numbers →
    (∀ (i : nat) g, a !! i = Some g →
       0 ≤ g < Z.of_nat (length numbers) - Z.of_nat i) →
    ∃ t, decode_from numbers a = Some t ∧ t ≡ₚ numbers.
Proof.
  induction a as [|x a IH]; intros numbers Hlen Hb; simpl.
  - destruct numbers; [|done]. by exists [].
  - pose proof (Hb 0%nat x eq_refl) as Hx.
    destruct (lookup_lt_is_Some_2 numbers (Z.to_nat x)) as [city Hcity]; [lia|].
    unfold vec_get. destruct (decide _) as [_|?]; [|lia].
    rewrite Hcity. simpl.
    destruct (IH (delete (Z.to_nat x) numbers)) as (t & Ht & Hperm).
    + rewrite length_delete by eauto. simpl in Hlen. lia.
    + intros i g Hg. rewrite length_delete by eauto.
      specialize (Hb (S i) g Hg). simpl in Hlen. lia.
    + rewrite Ht. simpl. exists (city :: t). split; [done|].
      rewrite Hperm. symmetry. by apply delete_Permutation.
Qed.

Section RandomFacts.

Context {W : Type}.
Variable uniform_int_distribution : Z → Z → W → Z * W.
Variable uniform_real_distribution : Q → Q → W → Q * W.

(** A uniform integer draw lies between its bounds. *)
Definition draws_in_range : Prop :=
  ∀ lo hi w, lo ≤ hi → lo ≤ (uniform_int_distribution lo hi w).1 ≤ hi.

Lemma crossover_one_point_spec (a b : alternative_solution_t) w :
  let d := uniform_int_distribution 0 (size a - 1) w in
  length b = length a → 0 ≤ d.1 < size a →
  ∃ a' b',
    crossover_one_point uniform_int_distribution a b w = Some ((a', b'), d.2) ∧
    length a' = length a ∧ length b' = length a ∧
    ∀ j : nat,
      a' !! j = (if decide (Z.of_nat j < d.1) then a !! j else b !! j) ∧
      b' !! j = (if decide (Z.of_nat j < d.1) then b !! j else a !! j).
Proof.
  intros d Hlen Hd.
  unfold crossover_one_point, mbind, M_bind, draw_int, lift.
  unfold size in *.
  destruct (decide _) as [_|?]; [|lia].
  fold d. destruct d as [cp w']. simpl in *.
  destruct (swap_genes_spec a b (Z.to_nat (size a - cp)) (Z.to_nat cp) a b)
    as (a' & b' & Heq & Hla & Hlb & Hlook); unfold size; try done; try lia.
  rewrite Z2Nat.id in Heq by lia. unfold size in *. rewrite Heq.
  exists a', b'. repeat split; try done; destruct (Hlook j) as [H1 H2].
  - rewrite H1. repeat destruct (decide _); try done; try lia.
    rewrite !lookup_ge_None_2; [done|lia..].
  - rewrite H2. repeat destruct (decide _); try done; try lia.
    rewrite !lookup_ge_None_2; [done|lia..].
Qed.

Lemma crossover_two_point_spec (a b : alternative_solution_t) w :
  let d1 := uniform_int_distribution 0 (size a - 1) w in
  let d2 := uniform_int_distribution 0 (size a - 1) d1.2 in
  let lo := Z.min d1.1 d2.1 in
  let hi := Z.max d1.1 d2.1 in
  length b = length a → 0 ≤ d1.1 < size a → 0 ≤ d2.1 < size a →
  ∃ a' b',
    crossover_two_point uniform_int_distribution a b w = Some ((a', b'), d2.2) ∧
    length a' = length a ∧ length b' = length a ∧
    ∀ j : nat,
      a' !! j = (if decide (lo ≤ Z.of_nat j < hi) then b !! j else a !! j) ∧
      b' !! j = (if decide (lo ≤ Z.of_nat j < hi) then a !! j else b !! j).
Proof.
  intros d1 d2 lo hi. subst d1 d2 lo hi.
  unfold crossover_two_point, mbind, M_bind, draw_int, lift.
  unfold size in *.
  destruct (decide _) as [_|?]; [|lia].
  destruct (uniform_int_distribution _ _ w) as [cpa w1]. simpl.
  destruct (uniform_int_distribution _ _ w1) as [cpb w2]. simpl.
  intros Hlen Hd1 Hd2.
  set (lo := Z.min cpa cpb). set (hi := Z.max cpa cpb).
  assert (∃ a' b',
    swap_genes (Z.to_nat (hi - lo)) lo a b a b = Some (a', b') ∧
    length a' = length a ∧ length b' = length a ∧
    ∀ j : nat,
      a' !! j = (if decide (lo ≤ Z.of_nat j < hi) then b !! j else a !! j) ∧
      b' !! j = (if decide (lo ≤ Z.of_nat j < hi) then a !! j else b !! j))
    as (a' & b' & Heq & Hla & Hlb & Hlook).
  { destruct (swap_genes_spec a b (Z.to_nat (hi - lo)) (Z.to_nat lo) a b)
      as (a' & b' & Heq & Hla & Hlb & Hlook); try done; try lia.
    rewrite Z2Nat.id in Heq by lia.
    exists a', b'. repeat split; try done; destruct (Hlook j) as [H1 H2].
    - rewrite H1. repeat destruct (decide _); try done; lia.
    - rewrite H2. repeat destruct (decide _); try done; lia. }
  exists a', b'. split; [|done].
  destruct (decide (cpa > cpb)).
  - replace cpb with lo by lia. replace cpa with hi by lia. by rewrite Heq.
  - replace cpa with lo by lia. replace cpb with hi by lia. by rewrite Heq.
Qed.

Lemma crossover_one_point_well_formed n (a b : alternative_solution_t) w :
  draws_in_range → well_formed n a → well_formed n b →
  (∀ a' b' w',
     crossover_one_point uniform_int_distribution a b w = Some ((a', b'), w') →
     well_formed n a' ∧ well_formed n b') ∧
  ((1 ≤ n)%nat → is_Some (crossover_one_point uniform_int_distribution a b w)).
Proof.
  intros Hrange Ha Hb.
  assert (length a = n) as Hla by apply Ha.
  assert (length b = n) as Hlb by apply Hb.
  destruct (decide (1 ≤ n)%nat) as [Hn|Hn].
  - pose proof (Hrange 0 (size a - 1) w) as Hd. unfold size in Hd.
    destruct (crossover_one_point_spec a b w)
      as (a' & b' & Heq & Hla' & Hlb' & Hlook);
      [congruence | unfold size; lia |].
    rewrite Heq. split; [|by eauto]. intros ? ? ? [= <- <- <-].
    split; (eapply well_formed_pointwise; [exact Ha | exact Hb | congruence |]);
      intros j; destruct (Hlook j) as [H1 H2]; rewrite ?H1, ?H2;
      destruct (decide _); auto.
  - split; [|lia]. unfold crossover_one_point, mbind, M_bind, draw_int, size.
    destruct (decide _); [lia|done].
Qed.

Lemma crossover_two_point_well_formed n (a b : alternative_solution_t) w :
  draws_in_range → well_formed n a → well_formed n b →
  (∀ a' b' w',
     crossover_two_point uniform_int_distribution a b w = Some ((a', b'), w') →
     well_formed n a' ∧ well_formed n b') ∧
  ((1 ≤ n)%nat → is_Some (crossover_two_point uniform_int_distribution a b w)).
Proof.
  intros Hrange Ha Hb.
  assert (length a = n) as Hla by apply Ha.
  assert (length b = n) as Hlb by apply Hb.
  destruct (decide (1 ≤ n)%nat) as [Hn|Hn].
  - pose proof (Hrange 0 (size a - 1) w) as Hd1.
    pose proof (Hrange 0 (size a - 1)
                  (uniform_int_distribution 0 (size a - 1) w).2) as Hd2.
    unfold size in Hd1, Hd2.
    destruct (crossover_two_point_spec a b w)
      as (a' & b' & Heq & Hla' & Hlb' & Hlook);
      [congruence | unfold size; lia | unfold size; lia |].
    rewrite Heq. split; [|by eauto]. intros ? ? ? [= <- <- <-].
    split; (eapply well_formed_pointwise; [exact Ha | exact Hb | congruence |]);
      intros j; destruct (Hlook j) as [H1 H2]; rewrite ?H1, ?H2;
      destruct (decide _); auto.
  - split; [|lia]. unfold crossover_two_point, mbind, M_bind, draw_int, size.
    destruct (decide _); [lia|done].
Qed.

Lemma mutation_well_formed n (a : alternative_solution_t) p w :
  draws_in_range → well_formed n a →
  (∀ a' w',
     mutation_change_one_city_descending uniform_int_distribution
       uniform_real_distribution a p w = Some (a', w') →
     well_formed n a') ∧
  ((2 ≤ n)%nat →
   is_Some (mutation_change_one_city_descending uniform_int_distribution
              uniform_real_distribution a p w)).
Proof.
  intros Hrange [Hlen Hb].
  unfold mutation_change_one_city_descending, mbind, M_bind, draw_real,
    draw_int, lift, mret, M_ret, vec_set.
  destruct (uniform_real_distribution 0%Q 1%Q w) as [u w1].
  destruct (Qltb u p).
  2:{ split; [|by eauto]. intros a' w' [= <- <-]. by split. }
  unfold size. rewrite Hlen.
  destruct (decide (0 ≤ Z.of_nat n - 2)) as [Hn|Hn]; [|split; [done|lia]].
  pose proof (Hrange 0 (Z.of_nat n - 2) w1 Hn) as Hmp.
  destruct (uniform_int_distribution 0 (Z.of_nat n - 2) w1) as [mp w2].
  simpl in Hmp.
  destruct (decide (0 ≤ Z.of_nat n - 1 - mp)) as [Hv|?]; [|lia].
  pose proof (Hrange 0 (Z.of_nat n - 1 - mp) w2 Hv) as Hvr.
  destruct (uniform_int_distribution 0 (Z.of_nat n - 1 - mp) w2) as [v w3].
  simpl in Hvr.
  destruct (decide _) as [_|?]; [|lia].
  split; [|by eauto]. intros a' w' [= <- <-].
  split; [by rewrite length_insert|].
  intros i g. destruct (decide (Z.to_nat mp = i)) as [<-|Hne].
  - rewrite list_lookup_insert_eq by lia. intros [= <-]. lia.
  - rewrite list_lookup_insert_ne by done. apply Hb.
Qed.

Lemma push_numbers_spec (k : nat) :
  ∀ (i : nat) numbers,
    push_numbers k (Z.of_nat i) numbers = numbers ++ (Z.of_nat <$> seq i k).
Proof.
  induction k as [|k IH]; intros i numbers; simpl; [by rewrite app_nil_r|].
  replace (Z.of_nat i + 1) with (Z.of_nat (S i)) by lia.
  by rewrite IH, <- app_assoc.
Qed.

Lemma decode_from_fmap {A B} (f : A → B) (a : alternative_solution_t) :
  ∀ numbers : list A,
    decode_from (f <$> numbers) a
    = (λ t : list A, f <$> t) <$> decode_from numbers a.
Proof.
  induction a as [|x a IH]; intros numbers; simpl; [done|].
  unfold vec_get. destruct (decide _); [|done].
  rewrite list_lookup_fmap. destruct (numbers !! Z.to_nat x); [simpl|done].
  rewrite <- list_fmap_delete, IH.
  by destruct (decode_from (delete (Z.to_nat x) numbers) a).
Qed.

(** The chromosome drawn by the inner loop is the decoding of the vector of
    its draws, and that vector is within the positional bounds. *)
Lemma draw_cities_spec (n : Z) (k : nat) :
  draws_in_range →
  ∀ (j : nat) (numbers c : chromosome_t) w,
    length numbers = k → Z.of_nat j + Z.of_nat k = n →
    ∃ xs c' w',
      draw_cities uniform_int_distribution k (Z.of_nat j) n numbers c w
        = Some (([], c ++ c'), w') ∧
      length xs = k ∧
      (∀ (i : nat) g, xs !! i = Some g →
         0 ≤ g < Z.of_nat k - Z.of_nat i) ∧
      decode_from numbers xs = Some c'.
Proof.
  intros Hrange. induction k as [|k IH]; intros j numbers c w Hlen Hn;
    cbn [draw_cities].
  - destruct numbers; [|done]. exists [], [], w. rewrite app_nil_r.
    by repeat split.
  - unfold mbind, M_bind, draw_int, lift.
    destruct (decide _) as [Hlo|?]; [|lia].
    pose proof (Hrange _ _ w Hlo) as Hx.
    destruct (uniform_int_distribution 0 (n - 1 - Z.of_nat j) w) as [x w1].
    simpl in Hx.
    destruct (lookup_lt_is_Some_2 numbers (Z.to_nat x)) as [city Hcity];
      [lia|].
    unfold vec_get at 1. destruct (decide _) as [_|?]; [|lia]. rewrite Hcity.
    replace (Z.of_nat j + 1) with (Z.of_nat (S j)) by lia.
    destruct (IH (S j) (delete (Z.to_nat x) numbers) (c ++ [city]) w1)
      as (xs & c' & w' & Heq & Hxs & Hb & Hdec).
    { rewrite length_delete by eauto. lia. }
    { lia. }
    exists (x :: xs), (city :: c'), w'. split.
    { rewrite Heq. by rewrite <- app_assoc. }
    split; [simpl; lia|]. split.
    + intros [|i] g Hg; simpl in Hg.
      * injection Hg as <-. lia.
      * specialize (Hb i g Hg). lia.
    + simpl. unfold vec_get. destruct (decide _) as [_|?]; [|lia].
      rewrite Hcity. simpl. by rewrite Hdec.
Qed.

(** Every chromosome of the initial population is a decoded well-formed
    vector, hence a permutation of [0 .. n-1]. *)
Lemma init_pop_from_spec (n : Z) (k : nat) :
  draws_in_range →
  ∀ (ret : list chromosome_t) w,
    ∃ pop w',
      init_pop_from uniform_int_distribution k n [] ret w
        = Some (ret ++ pop, w') ∧
      length pop = k ∧
      ∀ c, c ∈ pop →
        ∃ xs t,
          well_formed (Z.to_nat n) xs ∧
          decode (Z.to_nat n) xs = Some t ∧
          c = Z.of_nat <$> t ∧
          t ≡ₚ seq 0 (Z.to_nat n).
Proof.
  intros Hrange. induction k as [|k IH]; intros ret w; cbn [init_pop_from].
  - exists [], w. rewrite app_nil_r. split; [done|]. split; [done|].
    intros c Hc. by apply elem_of_nil in Hc.
  - unfold mbind, M_bind.
    change 0 with (Z.of_nat 0) at 1 2.
    rewrite push_numbers_spec. simpl.
    destruct (decide (0 ≤ n)) as [Hn|Hn].
    + destruct (draw_cities_spec n (Z.to_nat n) Hrange 0
                  (Z.of_nat <$> seq 0 (Z.to_nat n)) [] w)
        as (xs & c' & w1 & Heq & Hxs & Hb & Hdec).
      { by rewrite length_fmap, length_seq. }
      { lia. }
      simpl in Heq. rewrite Heq. simpl.
      destruct (IH (ret ++ [c']) w1) as (pop & w' & Hpop & Hl & Hall).
      exists (c' :: pop), w'. split; [by rewrite Hpop, <- app_assoc|].
      split; [simpl; lia|].
      intros c Hc. apply elem_of_cons in Hc as [->|Hc]; [|by apply Hall].
      rewrite decode_from_fmap in Hdec.
      destruct (decode_from (seq 0 (Z.to_nat n)) xs) as [t|] eqn:Ht; [|done].
      injection Hdec as <-.
      exists xs, t. split; [split; [done|]|split; [done|split; [done|]]].
      * intros i g Hg. specialize (Hb i g Hg). lia.
      * destruct (decode_from_permutation xs (seq 0 (Z.to_nat n)))
          as (t' & Ht' & Hperm).
        { by rewrite length_seq. }
        { rewrite length_seq. exact Hb. }
        rewrite Ht in Ht'. by injection Ht' as <-.
    + replace (Z.to_nat n) with 0%nat by lia. simpl.
      destruct (IH (ret ++ [[]]) w) as (pop & w' & Hpop & Hl & Hall).
      exists ([] :: pop), w'. split; [by rewrite Hpop, <- app_assoc|].
      split; [simpl; lia|].
      intros c Hc. apply elem_of_cons in Hc as [->|Hc].
      * exists [], []. by repeat split.
      * specialize (Hall c Hc). by replace (Z.to_nat n) with 0%nat in Hall by lia.
Qed.

End RandomFacts.

(** A decision procedure for [well_formed], used to check concrete vectors. *)
Fixpoint in_bounds (m : Z) (a : alternative_solution_t) : bool :=
  match a with
  | [] => true
  | g :: a' => (0 <=? g) && (g <? m) && in_bounds (m - 1) a'
  end.

Lemma in_bounds_lookup (a : alternative_solution_t) :
  ∀ m, in_bounds m a = true →
       ∀ (i : nat) g, a !! i = Some g → 0 ≤ g < m - Z.of_nat i.
Proof.
  induction a as [|x a IH]; intros m Hm i g Hg; [done|].
  simpl in Hm. apply andb_true_iff in Hm as [Hx Ha].
  apply andb_true_iff in Hx as [H0 H1].
  destruct i as [|i]; simpl in Hg.
  - injection Hg as <-. lia.
  - specialize (IH _ Ha i g Hg). lia.
Qed.

Lemma well_formed_check n (a : alternative_solution_t) :
  Nat.eqb (length a) n && in_bounds (Z.of_nat n) a = true → well_formed n a.
Proof.
  intros H. apply andb_true_iff in H as [Hl Hb].
  apply Nat.eqb_eq in Hl. split; [done|]. by apply in_bounds_lookup.
Qed.

(** C8.  For two well-formed parents of length [n], when the cut index drawn
    by one-point crossover is [0] the children are the swapped parents, and
    when it is [n - 1], the last position, the children are the original
    parents. *)
Theorem crossover_one_point_extreme_cuts {W}
    (uniform_int_distribution : Z → Z → W → Z * W)
    (n : nat) (a b : alternative_solution_t) (w : W) :
  (1 ≤ n)%nat → well_formed n a → well_formed n b →
  let cut := (uniform_int_distribution 0 (size a - 1) w).1 in
  let w' := (uniform_int_distribution 0 (size a - 1) w).2 in
  (cut = 0 →
   crossover_one_point uniform_int_distribution a b w = Some ((b, a), w')) ∧
  (cut = Z.of_nat n - 1 →
   crossover_one_point uniform_int_distribution a b w = Some ((a, b), w')).
Proof.
  intros Hn [Hla Ha] [Hlb Hb] cut w'. subst cut w'.
  split; intros Hcut;
    (destruct (crossover_one_point_spec uniform_int_distribution a b w)
      as (a' & b' & Heq & Hla' & Hlb' & Hlook);
     [congruence | rewrite Hcut; unfold size; lia |]);
    rewrite Heq; rewrite Hcut in Hlook; do 3 f_equal.
  - apply list_eq. intros j. destruct (Hlook j) as [-> _].
    destruct (decide _); [lia|done].
  - apply list_eq. intros j. destruct (Hlook j) as [_ ->].
    destruct (decide _); [lia|done].
  - apply list_eq. intros j. destruct (Hlook j) as [-> _].
    destruct (decide _); [done|].
    destruct (decide (j = n - 1)%nat) as [->|?].
    + destruct (lookup_lt_is_Some_2 a (n - 1)) as [x Hx]; [lia|].
      destruct (lookup_lt_is_Some_2 b (n - 1)) as [y Hy]; [lia|].
      pose proof (Ha _ _ Hx). pose proof (Hb _ _ Hy).
      rewrite Hx, Hy. f_equal. lia.
    + rewrite !lookup_ge_None_2; [done|lia..].
  - apply list_eq. intros j. destruct (Hlook j) as [_ ->].
    destruct (decide _); [done|].
    destruct (decide (j = n - 1)%nat) as [->|?].
    + destruct (lookup_lt_is_Some_2 a (n - 1)) as [x Hx]; [lia|].
      destruct (lookup_lt_is_Some_2 b (n - 1)) as [y Hy]; [lia|].
      pose proof (Ha _ _ Hx). pose proof (Hb _ _ Hy).
      rewrite Hx, Hy. f_equal. lia.
    + rewrite !lookup_ge_None_2; [done|lia..].
Qed.

(** C9.  Whenever the two cut points drawn by two-point crossover are equal,
    the swapped half-open segment is empty and both children are their
    respective original parents. *)
Theorem crossover_two_point_equal_cuts {W}
    (uniform_int_distribution : Z → Z → W → Z * W)
    (a b : alternative_solution_t) (w : W) :
  (1 ≤ length a)%nat →
  let d1 := uniform_int_distribution 0 (size a - 1) w in
  let d2 := uniform_int_distribution 0 (size a - 1) d1.2 in
  d1.1 = d2.1 →
  crossover_two_point uniform_int_distribution a b w = Some ((a, b), d2.2).
Proof.
  intros Hn d1 d2. subst d1 d2.
  unfold crossover_two_point, mbind, M_bind, draw_int, lift, size.
  destruct (decide _) as [_|?]; [|lia].
  destruct (uniform_int_distribution _ _ w) as [cpa w1]. simpl.
  destruct (uniform_int_distribution _ _ w1) as [cpb w2]. simpl.
  intros ->. destruct (decide _) as [?|_]; [lia|].
  by rewrite Z.sub_diag.
Qed.

(** C2.  From well-formed parents, one-point crossover, two-point crossover
    and the descending single-gene mutation return well-formed vectors, and
    decoding a well-formed vector by successive removal of the k-th
    remaining city index succeeds with a tour in which every index of
    [[0, n)] occurs exactly once.  The chromosomes that init_pop builds by
    the same successive removal are such decodings. *)
Theorem operators_preserve_well_formed {W}
    (uniform_int_distribution : Z → Z → W → Z * W)
    (uniform_real_distribution : Q → Q → W → Q * W)
    (n : nat) (a b : alternative_solution_t) (p : Q) (w : W) :
  draws_in_range uniform_int_distribution →
  well_formed n a → well_formed n b →
  (∀ a' b' w',
     crossover_one_point uniform_int_distribution a b w = Some ((a', b'), w') →
     well_formed n a' ∧ well_formed n b') ∧
  ((1 ≤ n)%nat → is_Some (crossover_one_point uniform_int_distribution a b w)) ∧
  (∀ a' b' w',
     crossover_two_point uniform_int_distribution a b w = Some ((a', b'), w') →
     well_formed n a' ∧ well_formed n b') ∧
  ((1 ≤ n)%nat → is_Some (crossover_two_point uniform_int_distribution a b w)) ∧
  (∀ a' w',
     mutation_change_one_city_descending uniform_int_distribution
       uniform_real_distribution a p w = Some (a', w') →
     well_formed n a') ∧
  ((2 ≤ n)%nat →
   is_Some (mutation_change_one_city_descending uniform_int_distribution
              uniform_real_distribution a p w)) ∧
  (∃ t, decode n a = Some t ∧ t ≡ₚ seq 0 n ∧ NoDup t ∧
        ∀ c : nat, c ∈ t ↔ (c < n)%nat) ∧
  (∀ s cities : Z,
     ∃ pop w',
       init_pop uniform_int_distribution s cities w = Some (pop, w') ∧
       length pop = Z.to_nat s ∧
       ∀ c, c ∈ pop →
         ∃ xs t,
           well_formed (Z.to_nat cities) xs ∧
           decode (Z.to_nat cities) xs = Some t ∧
           c = Z.of_nat <$> t ∧
           t ≡ₚ seq 0 (Z.to_nat cities)).
Proof.
  intros Hrange Ha Hb.
  destruct (crossover_one_point_well_formed uniform_int_distribution n a b w
              Hrange Ha Hb) as [Hc1 Hd1].
  destruct (crossover_two_point_well_formed uniform_int_distribution n a b w
              Hrange Ha Hb) as [Hc2 Hd2].
  destruct (mutation_well_formed uniform_int_distribution
              uniform_real_distribution n a p w Hrange Ha) as [Hm Hdm].
  do 6 (split; [done|]). split.
  - destruct (decode_from_permutation a (seq 0 n)) as (t & Ht & Hperm).
    + rewrite length_seq. apply Ha.
    + rewrite length_seq. apply Ha.
    + exists t. split; [done|]. split; [done|]. split.
      * rewrite Hperm. apply NoDup_seq.
      * intros c. rewrite Hperm, elem_of_seq. lia.
  - intros s cities. unfold init_pop.
    destruct (init_pop_from_spec uniform_int_distribution cities (Z.to_nat s)
                Hrange [] w) as (pop & w' & Heq & Hl & Hall).
    by exists pop, w'.
Qed.

Lemma crossover_one_point_extreme_cuts_witness :
  crossover_one_point (λ lo hi w, (lo, w)) [1; 1; 0] [2; 0; 0] tt
    = Some (([2; 0; 0], [1; 1; 0]), tt) ∧
  crossover_one_point (λ lo hi w, (hi, w)) [1; 1; 0] [2; 0; 0] tt
    = Some (([1; 1; 0], [2; 0; 0]), tt).
Proof.
  split.
  - apply (crossover_one_point_extreme_cuts (λ lo hi (w : unit), (lo, w)) 3
             [1; 1; 0] [2; 0; 0] tt);
      [lia | by apply well_formed_check | by apply well_formed_check
      | reflexivity].
  - apply (crossover_one_point_extreme_cuts (λ lo hi (w : unit), (hi, w)) 3
             [1; 1; 0] [2; 0; 0] tt);
      [lia | by apply well_formed_check | by apply well_formed_check
      | reflexivity].
Defined.

Lemma crossover_two_point_equal_cuts_witness :
  crossover_two_point (λ lo hi w, (hi, w)) [1; 1; 0] [2; 0; 0] tt
    = Some (([1; 1; 0], [2; 0; 0]), tt).
Proof.
  apply (crossover_two_point_equal_cuts (λ lo hi (w : unit), (hi, w))
           [1; 1; 0] [2; 0; 0] tt); [simpl; lia | reflexivity].
Defined.

Lemma operators_preserve_well_formed_witness :
  ∃ t, decode 3 [2; 1; 0] = Some t ∧ t ≡ₚ seq 0 3 ∧ NoDup t ∧
       ∀ c : nat, c ∈ t ↔ (c < 3)%nat.
Proof.
  eapply (operators_preserve_well_formed
           (λ lo hi (w : unit), (hi, w)) (λ lo hi (w : unit), (lo, w))
           3 [2; 1; 0] [0; 0; 0] (1 # 2) tt).
  - intros lo hi w H. simpl. lia.
  - by apply well_formed_check.
  - by apply well_formed_check.
Defined.

Example decode_run : decode 4 [1; 2; 0; 0] = Some [1; 3; 0; 2]%nat.
Proof. reflexivity. Qed.

Example decode_out_of_bounds : decode 3 [1; 2; 0] = None.
Proof. reflexivity. Qed.

Example init_pop_run :
  init_pop (λ lo hi (w : unit), (hi, w)) 2 3 tt
  = Some ([[2; 1; 0]; [2; 1; 0]], tt).
Proof. reflexivity. Qed.

End Operators.

Import Operators.

(** ** Local search: 5/salesman.cpp *)

Module LocalSearch.

(** An [int] obtained from a [size_t] (two's complement, 32 bits). *)
Definition to_int (z : Z) : Z := (z + 2 ^ 31) mod 2 ^ 32 - 2 ^ 31.

(** [(g + 1) % (size - i)] and [(g - 1 + (size - i)) % (size - i)]: the
    divisor is a [size_t], so both operands are taken modulo [2^64], and the
    result is stored in an [int].  [g + 1] and [g - 1] themselves are [int]
    operations, taken here without overflow. *)
Definition gene_up (sz i g : Z) : Z :=
  to_int (to_size_t (g + 1) mod to_size_t (sz - i)).

Definition gene_down (sz i g : Z) : Z :=
  to_int (to_size_t (g - 1 + to_size_t (sz - i)) mod to_size_t (sz - i)).

(** The loop of generate_neighbours, [k] rounds from position [i], pushing
    onto [ret]. *)
Fixpoint neighbours_from (k : nat) (i : Z) (tmp_sol_ : alternative_solution_t)
    (ret : list alternative_solution_t)
    : option (list alternative_solution_t) :=
  match k with
  | O => Some ret
  | S k' =>
      g ← vec_get tmp_sol_ i;
      up ← vec_set tmp_sol_ i (gene_up (size tmp_sol_) i g);
      down ← vec_set tmp_sol_ i (gene_down (size tmp_sol_) i g);
      neighbours_from k' (i + 1) tmp_sol_ (ret ++ [up; down])
  end.

(** The bound [i < size() - 1] is compared as [size_t]: for an empty vector
    it wraps and the first round already indexes out of range. *)
Definition generate_neighbours (tmp_sol_ : alternative_solution_t)
    : option (list alternative_solution_t) :=
  neighbours_from (Z.to_nat (to_size_t (size tmp_sol_ - 1))) 0 tmp_sol_ [].

(** [operator==] on alternatives: [b.at(i)] throws past the end of [b]. *)
Fixpoint alt_eq_from (a b : alternative_solution_t) : option bool :=
  match a with
  | [] => Some true
  | x :: a' =>
      match b with
      | [] => None
      | y :: b' => if decide (x ≠ y) then Some false else alt_eq_from a' b'
      end
  end.

Definition alt_eq (a b : alternative_solution_t) : option bool :=
  alt_eq_from a b.

(** The predicate handed to [remove_if]: is [te] equal to a tabu entry? *)
Fixpoint in_tabu (tabu_list : list alternative_solution_t)
    (te : alternative_solution_t) : option bool :=
  match tabu_list with
  | [] => Some false
  | e :: rest =>
      same ← alt_eq e te;
      if (same : bool) then Some true else in_tabu rest te
  end.

(** [erase(remove_if(...))]: the neighbours that are not tabu, in order. *)
Fixpoint remove_tabu (tabu_list neighbours : list alternative_solution_t)
    : option (list alternative_solution_t) :=
  match neighbours with
  | [] => Some []
  | te :: rest =>
      tabu ← in_tabu tabu_list te;
      kept ← remove_tabu tabu_list rest;
      Some (if (tabu : bool) then kept else te :: kept)
  end.

Section Search.

(** [get_solution] and [goal] are members declared in salesman.hpp: they
    are parameters here. *)
Variable get_solution : alternative_solution_t → solution_t.
Variable goal : solution_t → Q.

Definition alt_goal (a : alternative_solution_t) : Q := goal (get_solution a).

(** [current_best = neighbours.back();
     for (sol : neighbours) if (goal(sol) < goal(current_best)) current_best = sol;] *)
Definition best_neighbour (neighbours : list alternative_solution_t)
    : option alternative_solution_t :=
  current_best ← back neighbours;
  Some (fold_left
          (λ current_best sol,
             if Qltb (alt_goal sol) (alt_goal current_best) then sol
             else current_best)
          neighbours current_best).

(** What the function writes to [cerr]: "found solution earlier
    [iteration] (before [iterations])". *)
Record diagnostic := Earlier { at_iteration : Z; before : Z }.

Fixpoint hillclimb_loop (k : nat) (iteration iterations : Z)
    (solution : alternative_solution_t)
    : option (solution_t * list diagnostic) :=
  match k with
  | O => Some (get_solution solution, [])
  | S k' =>
      neighbours ← generate_neighbours solution;
      current_best ← best_neighbour neighbours;
      if Qltb (alt_goal current_best) (alt_goal solution)
      then hillclimb_loop k' (iteration + 1) iterations current_best
      else Some (get_solution solution, [Earlier iteration iterations])
  end.

(** [start] is the vector drawn by [alternative_solution_t::of]. *)
Definition hillclimb_deteriministic (start : alternative_solution_t)
    (iterations : Z) : option (solution_t * list diagnostic) :=
  hillclimb_loop (Z.to_nat iterations) 0 iterations start.

(** The state of tabu search between two iterations. *)
Record tabu_state := TabuState {
  tabu_list : list alternative_solution_t;
  global_best : alternative_solution_t
}.

(** One iteration: either the next state or the value returned. *)
Definition tabu_iteration (max_tabu_size : Z) (st : tabu_state)
    : option (tabu_state + solution_t) :=
  recent ← back (tabu_list st);
  neighbours ← generate_neighbours recent;
  neighbours ← remove_tabu (tabu_list st) neighbours;
  if decide (size neighbours ≤ 0) then
    if decide (size (tabu_list st) > 1)
    then Some (inl (TabuState (drop 1 (tabu_list st)) (global_best st)))
    else Some (inr (get_solution (global_best st)))
  else
    current_best ← best_neighbour neighbours;
    let tabu_list' := tabu_list st ++ [current_best] in
    let global_best' :=
      if Qltb (alt_goal current_best) (alt_goal (global_best st))
      then current_best else global_best st in
    let tabu_list'' :=
      if decide (size tabu_list' >= to_size_t max_tabu_size)
      then drop 1 tabu_list' else tabu_list' in
    Some (inl (TabuState tabu_list'' global_best')).

Fixpoint tabu_loop (k : nat) (max_tabu_size : Z) (st : tabu_state)
    : option solution_t :=
  match k with
  | O => Some (get_solution (global_best st))
  | S k' =>
      r ← tabu_iteration max_tabu_size st;
      match r with
      | inl st' => tabu_loop k' max_tabu_size st'
      | inr result => Some result
      end
  end.

Definition tabusearch (start : alternative_solution_t)
    (iterations max_tabu_size : Z) : option solution_t :=
  tabu_loop (Z.to_nat iterations) max_tabu_size (TabuState [start] start).

(** The state in which iteration number [j] starts, when the search gets
    that far. *)
Fixpoint tabu_reaches (j : nat) (max_tabu_size : Z) (st st_j : tabu_state)
    : Prop :=
  match j with
  | O => st_j = st
  | S j' =>
      ∃ st', tabu_iteration max_tabu_size st = Some (inl st') ∧
             tabu_reaches j' max_tabu_size st' st_j
  end.

(** A run of strict improvements: each entry is the best neighbour of the
    one before it and has a strictly smaller goal value. *)
Fixpoint climbs (s : alternative_solution_t)
    (path : list alternative_solution_t) : Prop :=
  match path with
  | [] => True
  | s' :: path' =>
      (generate_neighbours s ≫= best_neighbour) = Some s' ∧
      (alt_goal s' < alt_goal s)%Q ∧
      climbs s' path'
  end.

(** Where a run ends. *)
Fixpoint final_of (s : alternative_solution_t)
    (path : list alternative_solution_t) : alternative_solution_t :=
  match path with
  | [] => s
  | s' :: path' => final_of s' path'
  end.

End Search.

(** *** Neighbour generation *)

Lemma neighbours_from_spec (a : alternative_solution_t) (k : nat) :
  ∀ (i : nat) ret,
    (i + k ≤ length a)%nat →
    ∃ ns,
      neighbours_from k (Z.of_nat i) a ret = Some (ret ++ ns) ∧
      length ns = (2 * k)%nat ∧
      ∀ (j : nat) g, (j < k)%nat → a !! (i + j)%nat = Some g →
        ns !! (2 * j)%nat
          = Some (<[(i + j)%nat := gene_up (size a) (Z.of_nat (i + j)) g]> a) ∧
        ns !! (2 * j + 1)%nat
          = Some (<[(i + j)%nat := gene_down (size a) (Z.of_nat (i + j)) g]> a).
Proof.
  induction k as [|k IH]; intros i ret Hik; simpl.
  - exists []. rewrite app_nil_r. split; [done|]. split; [done|]. intros; lia.
  - destruct (lookup_lt_is_Some_2 a i) as [g Hg]; [lia|].
    rewrite vec_get_nat, Hg. simpl.
    rewrite !vec_set_nat by lia. simpl.
    replace (Z.of_nat i + 1) with (Z.of_nat (S i)) by lia.
    destruct (IH (S i)
                (ret ++ [<[i:=gene_up (size a) (Z.of_nat i) g]> a;
                         <[i:=gene_down (size a) (Z.of_nat i) g]> a]))
      as (ns & Heq & Hlen & Hlook); [lia|].
    exists ([<[i:=gene_up (size a) (Z.of_nat i) g]> a;
             <[i:=gene_down (size a) (Z.of_nat i) g]> a] ++ ns).
    split; [by rewrite Heq, <- app_assoc|].
    split; [simpl; lia|].
    intros [|j] g' Hj Hg'.
    + replace (i + 0)%nat with i in * by lia. simplify_eq. done.
    + replace (i + S j)%nat with (S i + j)%nat in * by lia.
      destruct (Hlook j g') as [H1 H2]; [lia|done|].
      split; [rewrite <- H1 | rewrite <- H2];
        (rewrite lookup_app_r; simpl; [f_equal; lia | lia]).
Qed.

Lemma generate_neighbours_spec (a : alternative_solution_t) :
  (1 ≤ length a)%nat → size a < 2 ^ 64 →
  ∃ ns,
    generate_neighbours a = Some ns ∧
    length ns = (2 * (length a - 1))%nat ∧
    ∀ (i : nat) g, (i < length a - 1)%nat → a !! i = Some g →
      ns !! (2 * i)%nat = Some (<[i := gene_up (size a) (Z.of_nat i) g]> a) ∧
      ns !! (2 * i + 1)%nat
        = Some (<[i := gene_down (size a) (Z.of_nat i) g]> a).
Proof.
  intros Hlen Hsz. unfold generate_neighbours, to_size_t.
  unfold size in *. rewrite Z.mod_small by lia.
  replace (Z.to_nat (Z.of_nat (length a) - 1)) with (length a - 1)%nat by lia.
  destruct (neighbours_from_spec a (length a - 1) 0 []) as (ns & Heq & Hl & Hlook);
    [lia|].
  exists ns. split; [done|]. split; [done|]. intros i g Hi Hg.
  by apply (Hlook i g).
Qed.

(** On an empty vector the loop bound wraps to [2^64 - 1] and the first round
    reads [solution[0]]. *)
Lemma generate_neighbours_empty : generate_neighbours [] = None.
Proof.
  unfold generate_neighbours.
  change (to_size_t (size [] - 1)) with 18446744073709551615.
  destruct (Z.to_nat 18446744073709551615) eqn:E; [lia|done].
Qed.

Lemma generate_neighbours_length (a : alternative_solution_t) ns s :
  generate_neighbours a = Some ns → s ∈ ns → length s = length a.
Proof.
  unfold generate_neighbours.
  generalize (Z.to_nat (to_size_t (size a - 1))) as k.
  assert (∀ k i ret,
            (∀ s, s ∈ ret → length s = length a) →
            neighbours_from k i a ret = Some ns →
            s ∈ ns → length s = length a) as Hgen.
  { induction k as [|k IH]; intros i ret Hret; simpl.
    - intros [= <-]. apply Hret.
    - destruct (vec_get a i) as [g|]; [simpl|done].
      unfold vec_set. destruct (decide _); [simpl|done].
      apply IH. intros s' Hs'. apply elem_of_app in Hs' as [?|Hs']; [by auto|].
      apply elem_of_cons in Hs' as [->|Hs']; [by rewrite length_insert|].
      apply list_elem_of_singleton in Hs' as ->. by rewrite length_insert. }
  intros k. apply Hgen. intros s' Hs'. by apply elem_of_nil in Hs'.
Qed.

Lemma gene_variants_plain (sz i g : Z) :
  sz < 2 ^ 31 → 0 ≤ i → 0 ≤ g < sz - i →
  gene_up sz i g = (g + 1) mod (sz - i) ∧
  gene_down sz i g = (g - 1 + (sz - i)) mod (sz - i).
Proof.
  intros Hsz Hi Hg. unfold gene_up, gene_down, to_int, to_size_t.
  rewrite (Z.mod_small (sz - i)) by lia.
  rewrite (Z.mod_small (g + 1)) by lia.
  rewrite (Z.mod_small (g - 1 + (sz - i))) by lia.
  pose proof (Z.mod_pos_bound (g + 1) (sz - i)).
  pose proof (Z.mod_pos_bound (g - 1 + (sz - i)) (sz - i)).
  split; rewrite Z.mod_small; lia.
Qed.

Lemma gene_variants_meet (sz i g : Z) :
  sz - i = 2 → gene_up sz i g = gene_down sz i g.
Proof.
  intros H. unfold gene_up, gene_down. rewrite H.
  replace (to_size_t 2) with 2 by done.
  replace (g - 1 + 2) with (g + 1) by lia. done.
Qed.

(** C10.  For a gene vector of length [L >= 2] generate_neighbours emits, for
    each position [i = 0 .. L-2] in ascending order, the vector with gene
    [i] incremented and then the one with gene [i] decremented, modulo
    [L - i]; the two variants of the last position [L - 2], whose bound is
    [2], are equal, so the emitted sequence contains a duplicate. *)
Theorem generate_neighbours_order_and_duplicate (a : alternative_solution_t) :
  (2 ≤ length a)%nat → size a < 2 ^ 64 →
  ∃ ns,
    generate_neighbours a = Some ns ∧
    length ns = (2 * (length a - 1))%nat ∧
    (∀ (i : nat) g, (i < length a - 1)%nat → a !! i = Some g →
       ns !! (2 * i)%nat = Some (<[i := gene_up (size a) (Z.of_nat i) g]> a) ∧
       ns !! (2 * i + 1)%nat
         = Some (<[i := gene_down (size a) (Z.of_nat i) g]> a) ∧
       (size a < 2 ^ 31 → 0 ≤ g < size a - Z.of_nat i →
        gene_up (size a) (Z.of_nat i) g = (g + 1) mod (size a - Z.of_nat i) ∧
        gene_down (size a) (Z.of_nat i) g
          = (g - 1 + (size a - Z.of_nat i)) mod (size a - Z.of_nat i))) ∧
    is_Some (ns !! (2 * (length a - 2))%nat) ∧
    ns !! (2 * (length a - 2))%nat = ns !! (2 * (length a - 2) + 1)%nat ∧
    ¬ NoDup ns.
Proof.
  intros Hlen Hsz.
  destruct (generate_neighbours_spec a) as (ns & Heq & Hl & Hlook); [lia|done|].
  exists ns. split; [done|]. split; [done|].
  destruct (lookup_lt_is_Some_2 a (length a - 2)) as [g Hg]; [lia|].
  destruct (Hlook (length a - 2)%nat g) as [Hup Hdown]; [lia|done|].
  assert (ns !! (2 * (length a - 2))%nat = ns !! (2 * (length a - 2) + 1)%nat)
    as Hsame.
  { rewrite Hup, Hdown. do 2 f_equal. apply gene_variants_meet.
    unfold size. lia. }
  split; [|split; [by rewrite Hup|split; [done|]]].
  - intros i g' Hi Hg'. destruct (Hlook i g' Hi Hg') as [H1 H2].
    split; [done|]. split; [done|]. intros Hsmall Hb.
    apply gene_variants_plain; lia.
  - intros Hnd. rewrite Hup in Hsame. symmetry in Hsame.
    pose proof (NoDup_lookup _ _ _ _ Hnd Hup Hsame). lia.
Qed.

Lemma generate_neighbours_order_and_duplicate_witness :
  ∃ ns,
    generate_neighbours [2; 0; 0] = Some ns ∧
    ns !! 2%nat = ns !! 3%nat ∧
    ¬ NoDup ns.
Proof.
  destruct (generate_neighbours_order_and_duplicate [2; 0; 0])
    as (ns & Heq & _ & _ & _ & Hsame & Hdup); [simpl; lia | done |].
  exists ns. split; [exact Heq|]. split; [exact Hsame | exact Hdup].
Defined.

(** *** Deterministic hill climbing *)

Section SearchFacts.

Variable get_solution : alternative_solution_t → solution_t.
Variable goal : solution_t → Q.

Local Abbreviation alt_goal := (alt_goal get_solution goal).
Local Abbreviation best_neighbour := (best_neighbour get_solution goal).

Lemma fold_best_spec (l : list alternative_solution_t) :
  ∀ init,
    let r := fold_left
               (λ current_best sol,
                  if Qltb (alt_goal sol) (alt_goal current_best) then sol
                  else current_best) l init in
    (r = init ∨ r ∈ l) ∧
    (alt_goal r <= alt_goal init)%Q ∧
    ∀ s, s ∈ l → (alt_goal r <= alt_goal s)%Q.
Proof.
  induction l as [|x l IH]; intros init; simpl.
  - split; [by left|]. split; [apply Qle_refl|].
    intros s Hs. by apply elem_of_nil in Hs.
  - destruct (Qltb (alt_goal x) (alt_goal init)) eqn:E.
    + apply Qltb_lt in E. destruct (IH x) as (Hin & Hle & Hall).
      split; [right; destruct Hin as [->|?]; [by left | by right]|].
      split; [eapply Qle_trans; [exact Hle | by apply Qlt_le_weak]|].
      intros s Hs. apply elem_of_cons in Hs as [->|Hs]; auto.
    + apply Qltb_ge in E. destruct (IH init) as (Hin & Hle & Hall).
      split; [destruct Hin as [?|?]; [by left | by right; right]|].
      split; [done|].
      intros s Hs. apply elem_of_cons in Hs as [->|Hs]; auto.
      eapply Qle_trans; [exact Hle | exact E].
Qed.

Lemma best_neighbour_spec ns cb :
  best_neighbour ns = Some cb →
  cb ∈ ns ∧ ∀ s, s ∈ ns → (alt_goal cb <= alt_goal s)%Q.
Proof.
  unfold LocalSearch.best_neighbour, back.
  destruct (list.last ns) as [b|] eqn:Hb; [simpl|done].
  intros [= <-]. destruct (fold_best_spec ns b) as (Hin & _ & Hall).
  split; [|done]. destruct Hin as [->|?]; [|done].
  apply last_Some in Hb as [l' ->]. apply elem_of_app. right. by left.
Qed.

Lemma best_neighbour_defined ns :
  ns ≠ [] → is_Some (best_neighbour ns).
Proof.
  intros Hne. unfold LocalSearch.best_neighbour, back.
  destruct (list.last ns) eqn:Hb; [by eauto|].
  by apply last_None in Hb.
Qed.

Lemma climbs_monotone path :
  ∀ s, climbs get_solution goal s path →
       ∀ (j k : nat) x y, (j ≤ k)%nat →
         (s :: path) !! j = Some x → (s :: path) !! k = Some y →
         (alt_goal y <= alt_goal x)%Q.
Proof.
  induction path as [|s' path IH]; intros s Hc j k x y Hjk Hx Hy.
  - destruct j as [|j]; [|done]. destruct k as [|k]; [|done].
    simplify_eq/=. apply Qle_refl.
  - destruct Hc as (_ & Hlt & Hc). destruct j as [|j].
    + simpl in Hx. injection Hx as <-. destruct k as [|k].
      * simpl in Hy. injection Hy as <-. apply Qle_refl.
      * simpl in Hy. eapply Qle_trans; [|apply Qlt_le_weak, Hlt].
        apply (IH s' Hc 0%nat k s' y); [lia|done|done].
    + destruct k as [|k]; [lia|]. simpl in Hx, Hy.
      apply (IH s' Hc j k x y); [lia|done|done].
Qed.

Lemma hillclimb_loop_spec (iterations : Z) (k : nat) :
  ∀ (iteration : Z) (solution : alternative_solution_t),
    (2 ≤ length solution)%nat → size solution < 2 ^ 64 →
    ∃ path log,
      hillclimb_loop get_solution goal k iteration iterations solution
        = Some (get_solution (final_of solution path), log) ∧
      climbs get_solution goal solution path ∧
      ((length path = k ∧ log = []) ∨
       ((length path < k)%nat ∧
        log = [Earlier (iteration + Z.of_nat (length path)) iterations] ∧
        ∃ ns cb,
          generate_neighbours (final_of solution path) = Some ns ∧
          best_neighbour ns = Some cb ∧
          (alt_goal (final_of solution path) <= alt_goal cb)%Q)).
Proof.
  induction k as [|k IH]; intros iteration solution Hlen Hsz; simpl.
  - exists [], []. split; [done|]. split; [done|]. by left.
  - destruct (generate_neighbours_spec solution) as (ns & Hns & Hl & _);
      [lia|done|].
    rewrite Hns. simpl.
    destruct (best_neighbour_defined ns) as [cb Hcb].
    { intros ->. simpl in Hl. lia. }
    rewrite Hcb. simpl.
    destruct (Qltb (alt_goal cb) (alt_goal solution)) eqn:E.
    + apply Qltb_lt in E.
      assert (length cb = length solution) as Hlcb.
      { eapply generate_neighbours_length; [exact Hns|].
        by apply best_neighbour_spec. }
      destruct (IH (iteration + 1) cb) as (path & log & Heq & Hc & Hend);
        [lia | unfold size in *; lia |].
      exists (cb :: path), log. split; [done|]. split.
      { simpl. rewrite Hns. simpl. by rewrite Hcb. }
      destruct Hend as [[Hp ->]|(Hp & -> & Hstop)].
      * left. simpl. split; [lia|done].
      * right. simpl. split; [lia|]. split; [do 2 f_equal; lia | done].
    + apply Qltb_ge in E. exists [], [Earlier iteration iterations].
      split; [done|]. split; [done|]. right. simpl.
      split; [lia|]. split; [do 2 f_equal; lia |]. by exists ns, cb.
Qed.

(** C6.  From a start vector with at least two genes, deterministic hill
    climbing returns after a run of strict improvements whose goal values
    never increase from one iteration to the next, after at most the
    budgeted number of iterations, and it returns early, with one
    diagnostic, exactly at the first iteration whose best neighbour is not
    strictly better than the current solution. *)
Theorem hillclimb_deterministic_monotone_bounded
    (start : alternative_solution_t) (iterations : Z) :
  (2 ≤ length start)%nat → size start < 2 ^ 64 →
  ∃ path log,
    hillclimb_deteriministic get_solution goal start iterations
      = Some (get_solution (final_of start path), log) ∧
    climbs get_solution goal start path ∧
    (∀ (j k : nat) x y, (j ≤ k)%nat →
       (start :: path) !! j = Some x → (start :: path) !! k = Some y →
       (alt_goal y <= alt_goal x)%Q) ∧
    (length path ≤ Z.to_nat iterations)%nat ∧
    ((length path = Z.to_nat iterations ∧ log = []) ∨
     ((length path < Z.to_nat iterations)%nat ∧
      log = [Earlier (Z.of_nat (length path)) iterations] ∧
      ∃ ns cb,
        generate_neighbours (final_of start path) = Some ns ∧
        best_neighbour ns = Some cb ∧
        (alt_goal (final_of start path) <= alt_goal cb)%Q ∧
        ∀ s, s ∈ ns → (alt_goal (final_of start path) <= alt_goal s)%Q)).
Proof.
  intros Hlen Hsz. unfold hillclimb_deteriministic.
  destruct (hillclimb_loop_spec iterations (Z.to_nat iterations) 0 start)
    as (path & log & Heq & Hc & Hend); [done|done|].
  exists path, log. split; [done|]. split; [done|].
  split; [by apply climbs_monotone|].
  split; [destruct Hend as [[? _]|[? _]]; lia|].
  destruct Hend as [?|(Hp & Hlog & ns & cb & Hns & Hcb & Hle)]; [by left|].
  right. split; [done|]. split; [done|].
  exists ns, cb. split; [done|]. split; [done|]. split; [done|].
  intros s Hs. eapply Qle_trans; [exact Hle|].
  by apply (best_neighbour_spec ns cb).
Qed.

(** *** Tabu search *)

Lemma remove_tabu_all tl ns :
  Forall (λ te, in_tabu tl te = Some true) ns → remove_tabu tl ns = Some [].
Proof.
  induction 1 as [|te ns Hte _ IH]; [done|].
  simpl. rewrite Hte, IH. done.
Qed.

Lemma tabu_loop_reaches max_tabu_size (j : nat) :
  ∀ st st_j k,
    tabu_reaches get_solution goal j max_tabu_size st st_j →
    tabu_loop get_solution goal (j + k) max_tabu_size st
      = tabu_loop get_solution goal k max_tabu_size st_j.
Proof.
  induction j as [|j IH]; intros st st_j k Hr; simpl in *.
  - by subst.
  - destruct Hr as (st' & Hstep & Hr). rewrite Hstep. simpl. by apply IH.
Qed.

(** With two genes or more the first neighbour differs from its source, so
    a tabu list holding only the source never swallows every neighbour: the
    exit below is then reached only from a one-gene vector, whose neighbour
    list is empty. *)
Lemma first_neighbour_not_tabu (a : alternative_solution_t) ns :
  (2 ≤ length a)%nat → size a < 2 ^ 31 →
  generate_neighbours a = Some ns →
  ¬ Forall (λ te, in_tabu [a] te = Some true) ns.
Proof.
  intros Hlen Hsz Hns Hall.
  destruct (generate_neighbours_spec a) as (ns' & Hns' & _ & Hlook);
    [lia | lia |].
  rewrite Hns in Hns'. injection Hns' as <-.
  destruct a as [|g a]; [simpl in Hlen; lia|].
  destruct (Hlook 0%nat g) as [H0 _]; [simpl in *; lia | done |].
  change (Z.of_nat 0) with 0 in H0.
  pose proof (Forall_lookup_1 _ _ _ _ Hall H0) as Hin. simpl in Hin.
  unfold alt_eq in Hin. simpl in Hin.
  destruct (decide (g ≠ gene_up (size (g :: a)) 0 g)) as [_|Heq]; [done|].
  clear Hin H0 Hlook Hall Hns. apply dec_stable in Heq. revert Heq.
  unfold gene_up, to_int, to_size_t, size in *. simpl length in *.
  rewrite (Z.mod_small (Z.of_nat (S (length a)) - 0)) by lia.
  pose proof (Z.mod_pos_bound ((g + 1) mod 2 ^ 64)
                (Z.of_nat (S (length a)) - 0)) as Hb.
  rewrite (Z.mod_small (_ + 2 ^ 31)) by lia.
  intros Heq.
  assert (0 ≤ g < Z.of_nat (S (length a))) as Hg by lia.
  rewrite (Z.mod_small (g + 1)) in Heq by lia.
  destruct (decide (g + 1 < Z.of_nat (S (length a)))).
  - rewrite Z.mod_small in Heq by lia. lia.
  - replace (g + 1) with (Z.of_nat (S (length a)) - 0) in Heq by lia.
    rewrite Z.mod_same in Heq by lia. lia.
Qed.

End SearchFacts.

(** Concrete instances: the tour keeps the genes and the goal value is their
    sum. *)
Definition genes_as_tour (a : alternative_solution_t) : solution_t :=
  map Z.to_nat a.

Definition sum_goal (t : solution_t) : Q :=
  inject_Z (Z.of_nat (foldr Nat.add 0%nat t)).

Lemma hillclimb_deterministic_monotone_bounded_witness :
  ∃ path log,
    hillclimb_deteriministic genes_as_tour sum_goal [2; 1; 0] 10
      = Some (genes_as_tour (final_of [2; 1; 0] path), log) ∧
    (length path ≤ 10)%nat.
Proof.
  destruct (hillclimb_deterministic_monotone_bounded genes_as_tour sum_goal
              [2; 1; 0] 10)
    as (path & log & Heq & _ & _ & Hlen & _); [simpl; lia | done |].
  exists path, log. split; [exact Heq | exact Hlen].
Defined.

(** A run on three genes with the sum of the genes as goal value: two
    improving steps, then an early return at iteration 2. *)
Example hillclimb_run :
  hillclimb_deteriministic genes_as_tour sum_goal [2; 1; 0] 10
  = Some ([0; 0; 0]%nat, [Earlier 2 10]).
Proof. vm_compute. reflexivity. Qed.

Example generate_neighbours_run :
  generate_neighbours [2; 1; 0]
  = Some [[0; 1; 0]; [1; 1; 0]; [2; 0; 0]; [2; 0; 0]].
Proof. vm_compute. reflexivity. Qed.

End LocalSearch.

(** ** Exhaustive search: brute_force_find_solution of 5/salesman.cpp *)

Module BruteForce.

Local Open Scope nat_scope.

(** Modelled from the spec: solution_t::next_solution and operator== are
    declared in salesman.hpp, which is not among the sources.  The spec names
    "a next permutation successor operation starting from and cycling back to
    an initial ordering", with equality of tours being equality of the
    permutations: the successor is the lexicographic one of
    [std::next_permutation], which wraps from the last permutation to the
    first.  [swap_pivot x l] exchanges [x] with the first entry of the
    ascending list [l] that exceeds it. *)
Fixpoint swap_pivot (x : nat) (l : list nat) : option (nat * list nat) :=
  match l with
  | [] => None
  | z :: l' =>
      if decide (x < z) then Some (z, x :: l')
      else
        match swap_pivot x l' with
        | Some (y, s) => Some (y, z :: s)
        | None => None
        end
  end.

(** The successor proper: [None] when the vector is the last permutation.
    The longest suffix without ascent is reversed after its pivot is
    exchanged. *)
Fixpoint next_permutation (l : list nat) : option (list nat) :=
  match l with
  | [] => None
  | x :: r =>
      match next_permutation r with
      | Some r' => Some (x :: r')
      | None =>
          match swap_pivot x (rev r) with
          | Some (y, s) => Some (y :: s)
          | None => None
          end
      end
  end.

Definition next_solution (s : solution_t) : solution_t :=
  match next_permutation s with
  | Some s' => s'
  | None => rev s
  end.

(** A tour over [n] cities: every index of [[0, n)] exactly once. *)
Definition tour (n : nat) (s : solution_t) : Prop := seq 0 n ≡ₚ s.

Section Loop.

(** [goal] is a member declared in salesman.hpp: a parameter here. *)
Variable goal : solution_t → Q.

(** The do-while loop; [fuel] bounds the number of rounds and [None] means
    that it ran out. *)
Fixpoint brute_force_loop (fuel : nat) (problem0 current best : solution_t)
    : option solution_t :=
  match fuel with
  | O => None
  | S fuel' =>
      let current := next_solution current in
      let best := if Qltb (goal current) (goal best) then current else best in
      if decide (current = problem0) then Some best
      else brute_force_loop fuel' problem0 current best
  end.

(** [problem0] is the tour that [solution_t(problem_)] constructs; the
    constructor is in salesman.hpp and its result is a parameter.  [current],
    [best] and [problem0] all start as that tour. *)
Definition brute_force_find_solution (fuel : nat) (problem0 : solution_t)
    : option solution_t :=
  brute_force_loop fuel problem0 problem0 problem0.

End Loop.

(** Lexicographic order on tours. *)
Fixpoint lex_lt (l1 l2 : list nat) : Prop :=
  match l1, l2 with
  | x :: r1, y :: r2 => x < y ∨ (x = y ∧ lex_lt r1 r2)
  | [], _ :: _ => True
  | _, [] => False
  end.

Fixpoint ascending (l : list nat) : Prop :=
  match l with
  | [] => True
  | x :: r => Forall (λ y, x ≤ y) r ∧ ascending r
  end.

Fixpoint descending (l : list nat) : Prop :=
  match l with
  | [] => True
  | x :: r => Forall (λ y, y ≤ x) r ∧ descending r
  end.

(** The value of a tour read as a number in base [b]. *)
Fixpoint val (b : nat) (l : list nat) : nat :=
  match l with
  | [] => 0
  | x :: r => x * b ^ length r + val b r
  end.

Example next_solution_cycle :
  map (λ k, Nat.iter k next_solution [0; 1; 2]) (seq 0 7)
  = [[0; 1; 2]; [0; 2; 1]; [1; 0; 2]; [1; 2; 0]; [2; 0; 1]; [2; 1; 0];
     [0; 1; 2]].
Proof. reflexivity. Qed.

(** *** The lexicographic order *)

Lemma lex_lt_irrefl l : ¬ lex_lt l l.
Proof.
  induction l as [|x r IH]; simpl; [tauto|]. intros [?|[_ ?]]; [lia|done].
Qed.

Lemma lex_lt_trans l1 : ∀ l2 l3, lex_lt l1 l2 → lex_lt l2 l3 → lex_lt l1 l3.
Proof.
  induction l1 as [|x r IH]; intros [|y r2] [|z r3]; simpl; try done.
  intros [?|[-> ?]] [?|[-> ?]]; [left; lia | left; lia | left; lia |].
  right. split; [done|]. by eapply IH.
Qed.

Lemma lex_lt_asym l1 l2 : lex_lt l1 l2 → lex_lt l2 l1 → False.
Proof.
  intros H1 H2. apply (lex_lt_irrefl l1). by eapply lex_lt_trans.
Qed.

Lemma val_bound b l : Forall (λ x, x < b) l → val b l < b ^ length l.
Proof.
  induction 1 as [|x r Hx _ IH]; simpl; [lia|]. nia.
Qed.

Lemma lex_lt_val b l1 :
  ∀ l2, length l1 = length l2 →
        Forall (λ x, x < b) l1 → Forall (λ x, x < b) l2 →
        lex_lt l1 l2 → val b l1 < val b l2.
Proof.
  induction l1 as [|x r IH]; intros [|y r2] Hlen H1 H2 Hlt; simpl in *;
    try done.
  apply Forall_cons_1 in H1 as [Hx H1]. apply Forall_cons_1 in H2 as [Hy H2].
  injection Hlen as Hlen. rewrite <- Hlen.
  pose proof (val_bound b r H1) as Hb1.
  destruct Hlt as [Hxy|[-> Hlt]].
  - nia.
  - specialize (IH r2 Hlen H1 H2 Hlt). lia.
Qed.

(** *** Sorted tours are the extremes of the order *)

Lemma descending_max l :
  descending l → ∀ p, l ≡ₚ p → p = l ∨ lex_lt p l.
Proof.
  induction l as [|x r IH]; intros Hd p Hp.
  - apply Permutation_nil in Hp. by left.
  - destruct Hd as [Hx Hd]. destruct p as [|y q].
    { symmetry in Hp. by apply Permutation_nil_cons in Hp. }
    assert (y ∈ x :: r) as Hy by (rewrite Hp; by left).
    apply elem_of_cons in Hy as [->|Hy].
    + apply Permutation_cons_inv in Hp.
      destruct (IH Hd q Hp) as [->|Hlt]; [by left|]. right. simpl. by right.
    + rewrite list.Forall_forall in Hx. specialize (Hx y Hy).
      destruct (decide (y = x)) as [->|Hne].
      * apply Permutation_cons_inv in Hp.
        destruct (IH Hd q Hp) as [->|Hlt]; [by left|]. right. simpl. by right.
      * right. simpl. left. lia.
Qed.

Lemma ascending_min l :
  ascending l → ∀ p, l ≡ₚ p → p = l ∨ lex_lt l p.
Proof.
  induction l as [|x r IH]; intros Hd p Hp.
  - apply Permutation_nil in Hp. by left.
  - destruct Hd as [Hx Hd]. destruct p as [|y q].
    { symmetry in Hp. by apply Permutation_nil_cons in Hp. }
    assert (y ∈ x :: r) as Hy by (rewrite Hp; by left).
    apply elem_of_cons in Hy as [->|Hy].
    + apply Permutation_cons_inv in Hp.
      destruct (IH Hd q Hp) as [->|Hlt]; [by left|]. right. simpl. by right.
    + rewrite list.Forall_forall in Hx. specialize (Hx y Hy).
      destruct (decide (y = x)) as [->|Hne].
      * apply Permutation_cons_inv in Hp.
        destruct (IH Hd q Hp) as [->|Hlt]; [by left|]. right. simpl. by right.
      * right. simpl. left. lia.
Qed.

Lemma ascending_unique l1 l2 :
  ascending l1 → ascending l2 → l1 ≡ₚ l2 → l1 = l2.
Proof.
  intros H1 H2 Hp.
  destruct (ascending_min l1 H1 l2 Hp) as [->|Hlt]; [done|].
  symmetry in Hp. destruct (ascending_min l2 H2 l1 Hp) as [->|Hlt']; [done|].
  destruct (lex_lt_asym _ _ Hlt Hlt').
Qed.

Lemma ascending_snoc l x :
  ascending l → Forall (λ y, y ≤ x) l → ascending (l ++ [x]).
Proof.
  induction l as [|z r IH]; simpl; intros Ha Hx.
  - by split.
  - destruct Ha as [Hz Ha]. apply Forall_cons_1 in Hx as [Hzx Hx].
    split; [|by apply IH].
    apply Forall_app. split; [done|]. by apply Forall_singleton.
Qed.

Lemma descending_rev l : descending l → ascending (rev l).
Proof.
  induction l as [|x r IH]; simpl; [done|]. intros [Hx Hd].
  apply ascending_snoc; [by apply IH|]. by apply Forall_rev.
Qed.

Lemma ascending_seq n : ∀ s, ascending (seq s n).
Proof.
  induction n as [|n IH]; intros s; simpl; [done|]. split; [|apply IH].
  apply list.Forall_forall. intros y Hy. apply elem_of_seq in Hy. lia.
Qed.

(** *** The successor *)

Lemma swap_pivot_none x l :
  swap_pivot x l = None → Forall (λ y, y ≤ x) l.
Proof.
  induction l as [|z l IH]; simpl; [done|].
  destruct (decide (x < z)); [done|].
  destruct (swap_pivot x l) as [[y s]|]; [done|].
  intros _. apply Forall_cons; [lia|by apply IH].
Qed.

Lemma swap_pivot_some x l :
  ∀ y s, ascending l → swap_pivot x l = Some (y, s) →
    x < y ∧ y ∈ l ∧ x :: l ≡ₚ y :: s ∧ ascending s ∧
    ∀ z, z ∈ l → x < z → y ≤ z.
Proof.
  induction l as [|z l IH]; simpl; intros y s Ha Heq; [done|].
  destruct Ha as [Hz Ha]. destruct (decide (x < z)) as [Hxz|Hxz].
  - injection Heq as <- <-. split; [done|]. split; [by left|].
    split; [apply perm_swap|]. split.
    + simpl. split; [|done]. eapply list.Forall_impl; [exact Hz|].
      simpl. intros. lia.
    + intros w Hw _. apply elem_of_cons in Hw as [->|Hw]; [done|].
      rewrite list.Forall_forall in Hz. by apply Hz.
  - destruct (swap_pivot x l) as [[y' s']|] eqn:E; [|done].
    injection Heq as <- <-.
    destruct (IH y' s' Ha eq_refl) as (Hxy & Hy & Hp & Has & Hleast).
    split; [done|]. split; [by right|]. split; [|split].
    + rewrite (perm_swap z x l), Hp. apply perm_swap.
    + simpl. split; [|done]. apply list.Forall_forall. intros w Hw.
      assert (w ∈ x :: l) as Hw' by (rewrite Hp; by right).
      apply elem_of_cons in Hw' as [->|Hw']; [lia|].
      rewrite list.Forall_forall in Hz. by apply Hz.
    + intros w Hw Hxw. apply elem_of_cons in Hw as [->|Hw]; [lia|].
      by apply Hleast.
Qed.

Lemma next_permutation_none l :
  next_permutation l = None → descending l.
Proof.
  induction l as [|x r IH]; simpl; [done|].
  destruct (next_permutation r) as [r'|]; [done|].
  destruct (swap_pivot x (rev r)) as [[y s]|] eqn:E; [done|].
  intros _. split; [|by apply IH].
  apply swap_pivot_none in E. apply Forall_rev in E.
  by rewrite rev_involutive in E.
Qed.

(** The successor is a permutation, is greater, and is the least greater
    permutation. *)
Lemma next_permutation_some l :
  ∀ l', next_permutation l = Some l' →
    l ≡ₚ l' ∧ lex_lt l l' ∧
    ∀ p, l ≡ₚ p → lex_lt l p → p = l' ∨ lex_lt l' p.
Proof.
  induction l as [|x r IH]; simpl; intros l' Heq; [done|].
  destruct (next_permutation r) as [r'|] eqn:Er.
  - injection Heq as <-. destruct (IH r' eq_refl) as (Hp & Hlt & Hleast).
    split; [by constructor|]. split; [simpl; by right|].
    intros [|y q] Hpq Hl; [done|]. simpl in Hl.
    destruct Hl as [Hxy|[<- Hl]]; [right; simpl; by left|].
    apply Permutation_cons_inv in Hpq.
    destruct (Hleast q Hpq Hl) as [->|Hlt']; [by left|].
    right. simpl. by right.
  - destruct (swap_pivot x (rev r)) as [[y s]|] eqn:E; [|done].
    injection Heq as <-.
    pose proof (next_permutation_none r Er) as Hd.
    destruct (swap_pivot_some x (rev r) y s (descending_rev r Hd) E)
      as (Hxy & Hy & Hp & Has & Hleast).
    assert (x :: r ≡ₚ y :: s) as Hp'.
    { rewrite <- Hp. constructor. apply Permutation_rev. }
    split; [done|]. split; [simpl; by left|].
    intros [|z q] Hpq Hl; [done|]. simpl in Hl.
    destruct Hl as [Hxz|[<- Hl]].
    + assert (z ∈ x :: r) as Hz by (rewrite Hpq; by left).
      apply elem_of_cons in Hz as [->|Hz]; [lia|].
      assert (y ≤ z) as Hyz.
      { apply Hleast; [|done].
        apply list_elem_of_In, in_rev. rewrite rev_involutive.
        by apply list_elem_of_In. }
      destruct (decide (y = z)) as [->|Hne]; [|right; simpl; left; lia].
      assert (s ≡ₚ q) as Hsq.
      { apply (Permutation_cons_inv (a := z)). by rewrite <- Hp', Hpq. }
      destruct (ascending_min s Has q Hsq) as [->|Hlt]; [by left|].
      right. simpl. by right.
    + apply Permutation_cons_inv in Hpq.
      destruct (descending_max r Hd q Hpq) as [->|Hlt].
      * destruct (lex_lt_irrefl _ Hl).
      * destruct (lex_lt_asym _ _ Hl Hlt).
Qed.

(** *** The loop *)

Lemma lex_trichotomy l1 : ∀ l2, l1 = l2 ∨ lex_lt l1 l2 ∨ lex_lt l2 l1.
Proof.
  induction l1 as [|x r IH]; intros [|y r2]; simpl;
    [by left | right; by left | right; by right |].
  destruct (lt_eq_lt_dec x y) as [[?| ->]|?];
    [right; left; by left | | right; right; by left].
  destruct (IH r2) as [->|[?|?]];
    [by left | right; left; by right | right; right; by right].
Qed.

Lemma tour_digits n p : tour n p → Forall (λ x, x < n) p ∧ length p = n.
Proof.
  intros Hp. split.
  - apply list.Forall_forall. intros x Hx. rewrite <- Hp in Hx.
    apply elem_of_seq in Hx. lia.
  - rewrite <- Hp. apply length_seq.
Qed.

Lemma tour_val_lt n p q : tour n p → tour n q → lex_lt p q → val n p < val n q.
Proof.
  intros Hp Hq. destruct (tour_digits n p Hp), (tour_digits n q Hq).
  apply lex_lt_val; [congruence|done|done].
Qed.

Lemma tour_val_bound n p : tour n p → val n p < n ^ n.
Proof.
  intros Hp. destruct (tour_digits n p Hp) as [Hd Hl].
  pose proof (val_bound n p Hd). by rewrite Hl in *.
Qed.

Lemma next_solution_some s s' :
  next_permutation s = Some s' → next_solution s = s'.
Proof. unfold next_solution. by intros ->. Qed.

Lemma next_solution_wrap n s :
  tour n s → next_permutation s = None → next_solution s = seq 0 n.
Proof.
  intros Hs E. unfold next_solution. rewrite E.
  apply ascending_unique.
  - by apply descending_rev, next_permutation_none.
  - apply ascending_seq.
  - rewrite <- Permutation_rev. by symmetry.
Qed.

Section Optimum.

Variable goal : solution_t → Q.
Variable n : nat.
Variable problem0 : solution_t.
Hypothesis problem0_tour : tour n problem0.

Local Abbreviation loop := (brute_force_loop goal).

(** What the loop is asked to deliver from a state [(current, best)] after
    [k] rounds; [pending p] tells which tours the loop has yet to visit. *)
Definition delivers (current best : solution_t) (pending : solution_t → Prop)
    : Prop :=
  ∃ k best',
    1 ≤ k ∧
    (∀ fuel, k ≤ fuel → loop fuel problem0 current best = Some best') ∧
    (∀ fuel, fuel < k → loop fuel problem0 current best = None) ∧
    Nat.iter k next_solution current = problem0 ∧
    (∀ j, 0 < j < k → Nat.iter j next_solution current ≠ problem0) ∧
    (∀ p, tour n p → pending p →
          ∃ j, 0 < j ≤ k ∧ Nat.iter j next_solution current = p) ∧
    tour n best' ∧
    (∀ p, tour n p → (goal best' <= goal p)%Q) ∧
    (best' = best ∨
     ∃ i, 0 < i ≤ k ∧ best' = Nat.iter i next_solution current ∧
          (goal best' < goal best)%Q ∧
          ∀ j, 0 < j < i →
               (goal best' < goal (Nat.iter j next_solution current))%Q).

Lemma better_le_both (c b : solution_t) :
  let b' := if Qltb (goal c) (goal b) then c else b in
  (goal b' <= goal b)%Q ∧ (goal b' <= goal c)%Q ∧ (b' = c ∨ b' = b).
Proof.
  simpl. destruct (Qltb (goal c) (goal b)) eqn:E.
  - apply Qltb_lt in E.
    split; [by apply Qlt_le_weak|]. split; [apply Qle_refl | by left].
  - apply Qltb_ge in E. split; [apply Qle_refl|]. split; [done | by right].
Qed.

(** [if (best.goal() > current.goal()) best = current]: the best changes
    only for a tour that is strictly better. *)
Lemma better_strict (c b : solution_t) :
  let b' := if Qltb (goal c) (goal b) then c else b in
  b' = b ∨ (b' = c ∧ (goal c < goal b)%Q).
Proof.
  simpl. destruct (Qltb (goal c) (goal b)) eqn:E; [|by left].
  apply Qltb_lt in E. by right.
Qed.

(** The loop leaves when the successor is [problem0]. *)
Lemma delivers_last current best (pending : solution_t → Prop) :
  next_solution current = problem0 → tour n best →
  (∀ p, tour n p → pending p → p = problem0) →
  (∀ p, tour n p → (goal best <= goal p)%Q ∨ p = problem0) →
  delivers current best pending.
Proof.
  intros Hnext Hb Hpend Hinv.
  pose proof (better_le_both problem0 best) as (Hbb & Hbc & Hwhich).
  pose proof (better_strict problem0 best) as Hstrict.
  set (best1 := if Qltb (goal problem0) (goal best) then problem0 else best)
    in *.
  exists 1, best1. split; [lia|].
  split; [|split; [|split; [|split; [|split; [|split; [|split]]]]]].
  - intros [|fuel] Hf; [lia|]. cbn [brute_force_loop]. rewrite Hnext.
    by destruct (decide (problem0 = problem0)).
  - intros fuel Hf. by replace fuel with 0 by lia.
  - exact Hnext.
  - intros j Hj. lia.
  - intros p Hp Hpp. exists 1. split; [lia|]. simpl. rewrite Hnext.
    symmetry. by apply Hpend.
  - by destruct Hwhich as [-> | ->].
  - intros p Hp. destruct (Hinv p Hp) as [Hle | ->]; [|done].
    eapply Qle_trans; [exact Hbb | exact Hle].
  - destruct Hstrict as [?|[Heq Hlt]]; [by left|]. right.
    exists 1. split; [lia|]. split; [simpl; by rewrite Hnext|].
    split; [by rewrite Heq|]. intros j Hj. lia.
Qed.

(** The loop goes on when the successor is another tour. *)
Lemma delivers_step current best c' (pending pending' : solution_t → Prop) :
  next_solution current = c' → c' ≠ problem0 →
  (∀ p, tour n p → pending p → p = c' ∨ pending' p) →
  delivers c' (if Qltb (goal c') (goal best) then c' else best) pending' →
  delivers current best pending.
Proof.
  intros Hnext Hne Hpend
    (k & best' & Hk & Hsome & Hnone & Hiter & Hfirst & Hvis & Hpb & Hopt
       & Hearliest).
  pose proof (better_le_both c' best) as (Hbb & Hbc & _).
  pose proof (better_strict c' best) as Hstrict.
  exists (S k), best'. split; [lia|].
  split; [|split; [|split; [|split; [|split; [|split; [|split]]]]]].
  - intros [|fuel] Hf; [lia|]. cbn [brute_force_loop]. rewrite Hnext.
    destruct (decide (c' = problem0)); [done|]. apply Hsome. lia.
  - intros [|fuel] Hf; [done|]. cbn [brute_force_loop]. rewrite Hnext.
    destruct (decide (c' = problem0)); [done|]. apply Hnone. lia.
  - by rewrite Nat.iter_succ_r, Hnext.
  - intros [|j] Hj; [lia|]. rewrite Nat.iter_succ_r, Hnext.
    destruct j as [|j]; [done|]. apply Hfirst. lia.
  - intros p Hp Hpp. destruct (Hpend p Hp Hpp) as [->|Hp'].
    + exists 1. split; [lia|]. simpl. exact Hnext.
    + destruct (Hvis p Hp Hp') as (j & Hj & Hjp). exists (S j).
      split; [lia|]. by rewrite Nat.iter_succ_r, Hnext.
  - done.
  - done.
  - destruct Hearliest as [Heq|(i & Hi & Heq & Hlt & Hbefore)].
    + destruct Hstrict as [Hsame|[Hnew Hlt]]; [left; congruence|].
      right. exists 1. split; [lia|].
      split; [simpl; rewrite Hnext; congruence|].
      split; [by rewrite Heq, Hnew|]. intros j Hj. lia.
    + right. exists (S i). split; [lia|].
      split; [by rewrite Nat.iter_succ_r, Hnext|].
      split; [exact (Qlt_le_trans _ _ _ Hlt Hbb)|].
      intros [|[|j]] Hj; [lia| |].
      * simpl. rewrite Hnext. exact (Qlt_le_trans _ _ _ Hlt Hbc).
      * rewrite Nat.iter_succ_r, Hnext. apply Hbefore. lia.
Qed.

(** After the wrap: from below [problem0] up to it. *)
Lemma return_to_start (m : nat) :
  ∀ current best,
    tour n current → tour n best → lex_lt current problem0 →
    val n problem0 - val n current ≤ m →
    (∀ p, tour n p →
          (goal best <= goal p)%Q ∨
          (lex_lt current p ∧ (lex_lt p problem0 ∨ p = problem0))) →
    delivers current best
      (λ p, lex_lt current p ∧ (lex_lt p problem0 ∨ p = problem0)).
Proof.
  induction m as [|m IH]; intros current best Hc Hb Hlt Hm Hinv.
  { pose proof (tour_val_lt n _ _ Hc problem0_tour Hlt). lia. }
  destruct (next_permutation current) as [c'|] eqn:E.
  2:{ pose proof (next_permutation_none current E) as Hd.
      destruct (descending_max current Hd problem0) as [->|Hl'].
      - by rewrite <- Hc.
      - destruct (lex_lt_irrefl _ Hlt).
      - destruct (lex_lt_asym _ _ Hlt Hl'). }
  pose proof (next_solution_some _ _ E) as Hnext.
  destruct (next_permutation_some current c' E) as (Hp & Hlt' & Hleast).
  assert (tour n c') as Hc' by (unfold tour in *; by rewrite Hc).
  pose proof (better_le_both c' best) as (Hbb & Hbc & Hwhich).
  assert (∀ p, tour n p → lex_lt current p → p = c' ∨ lex_lt c' p) as Hleast'.
  { intros p Hpp. apply Hleast. unfold tour in *. by rewrite <- Hc. }
  destruct (Hleast' problem0 problem0_tour Hlt) as [Heq|Hlt0].
  - rewrite <- Heq in *. clear Heq. apply delivers_last; [done|done| |].
    + intros p Hpp [Hl [Hl'| ->]]; [|done].
      destruct (Hleast' p Hpp Hl) as [->|Hl'']; [done|].
      destruct (lex_lt_asym _ _ Hl' Hl'').
    + intros p Hpp. destruct (Hinv p Hpp) as [?|[Hl [Hl'| ->]]];
        [by left | | by right].
      destruct (Hleast' p Hpp Hl) as [->|Hl'']; [by right|].
      destruct (lex_lt_asym _ _ Hl' Hl'').
  - apply (delivers_step current best c' _
             (λ p, lex_lt c' p ∧ (lex_lt p problem0 ∨ p = problem0)));
      [done| | |].
    + intros ->. by apply (lex_lt_irrefl problem0).
    + intros p Hpp [Hl Hr]. destruct (Hleast' p Hpp Hl) as [->|Hl''];
        [by left | right; split; [exact Hl'' | exact Hr]].
    + apply IH; [done | by destruct Hwhich as [-> | ->] | done | |].
      * pose proof (tour_val_lt n _ _ Hc Hc' Hlt'). lia.
      * intros p Hpp. destruct (Hinv p Hpp) as [Hle|[Hl Hr]].
        -- left. eapply Qle_trans; [exact Hbb | exact Hle].
        -- destruct (Hleast' p Hpp Hl) as [->|Hl''];
             [left; exact Hbc | by right].
Qed.

(** Before the wrap: from [problem0] up to the last permutation, then on
    from the first. *)
Lemma climb_and_wrap (m : nat) :
  ∀ current best,
    tour n current → tour n best →
    current = problem0 ∨ lex_lt problem0 current →
    n ^ n - val n current ≤ m →
    (∀ p, tour n p →
          (goal best <= goal p)%Q ∨ lex_lt current p ∨ lex_lt p problem0) →
    delivers current best
      (λ p, lex_lt current p ∨ lex_lt p problem0 ∨ p = problem0).
Proof.
  induction m as [|m IH]; intros current best Hc Hb Hge Hm Hinv.
  { pose proof (tour_val_bound n current Hc). lia. }
  destruct (next_permutation current) as [c'|] eqn:E.
  - pose proof (next_solution_some _ _ E) as Hnext.
    destruct (next_permutation_some current c' E) as (Hp & Hlt' & Hleast).
    assert (tour n c') as Hc' by (unfold tour in *; by rewrite Hc).
    pose proof (better_le_both c' best) as (Hbb & Hbc & Hwhich).
    assert (∀ p, tour n p → lex_lt current p → p = c' ∨ lex_lt c' p)
      as Hleast'.
    { intros p Hpp. apply Hleast. unfold tour in *. by rewrite <- Hc. }
    assert (lex_lt problem0 c') as Hlt0.
    { destruct Hge as [->|Hl]; [done|]. by eapply lex_lt_trans. }
    apply (delivers_step current best c' _
             (λ p, lex_lt c' p ∨ lex_lt p problem0 ∨ p = problem0));
      [done| | |].
    + intros ->. by apply (lex_lt_irrefl problem0).
    + intros p Hpp [Hl|Hr]; [|by right; right].
      destruct (Hleast' p Hpp Hl) as [->|Hl'']; [by left | by right; left].
    + apply IH; [done | by destruct Hwhich as [-> | ->] | by right | |].
      * pose proof (tour_val_lt n _ _ Hc Hc' Hlt'). lia.
      * intros p Hpp. destruct (Hinv p Hpp) as [Hle|[Hl|Hr]].
        -- left. eapply Qle_trans; [exact Hbb | exact Hle].
        -- destruct (Hleast' p Hpp Hl) as [->|Hl''];
             [left; exact Hbc | by right; left].
        -- by right; right.
  - pose proof (next_solution_wrap n current Hc E) as Hnext.
    pose proof (next_permutation_none current E) as Hd.
    assert (∀ p, tour n p → ¬ lex_lt current p) as Hmax.
    { intros p Hpp Hl. destruct (descending_max current Hd p) as [->|Hl'].
      - unfold tour in *. by rewrite <- Hc.
      - destruct (lex_lt_irrefl _ Hl).
      - destruct (lex_lt_asym _ _ Hl Hl'). }
    assert (∀ p, tour n p → p = seq 0 n ∨ lex_lt (seq 0 n) p) as Hmin.
    { intros p Hpp. by apply ascending_min; [apply ascending_seq|]. }
    assert (goal best <= goal problem0)%Q as Hb0.
    { destruct (Hinv problem0 problem0_tour) as [?|[Hl|Hl]]; [done| |].
      - destruct (Hmax _ problem0_tour Hl).
      - destruct (lex_lt_irrefl _ Hl). }
    destruct (Hmin problem0 problem0_tour) as [Heq|Hlt0].
    + rewrite <- Heq in *. apply delivers_last; [done|done| |].
      * intros p Hpp [Hl|[Hl| ->]]; [destruct (Hmax p Hpp Hl)| |done].
        destruct (Hmin p Hpp) as [->|Hl']; [done|].
        destruct (lex_lt_asym _ _ Hl Hl').
      * intros p Hpp. destruct (Hinv p Hpp) as [?|[Hl|Hl]]; [by left| |].
        -- destruct (Hmax p Hpp Hl).
        -- destruct (Hmin p Hpp) as [->|Hl']; [by right|].
           destruct (lex_lt_asym _ _ Hl Hl').
    + pose proof (better_le_both (seq 0 n) best) as (Hbb & Hbc & Hwhich).
      assert (tour n (seq 0 n)) as Hs by (unfold tour; done).
      apply (delivers_step current best (seq 0 n) _
               (λ p, lex_lt (seq 0 n) p ∧ (lex_lt p problem0 ∨ p = problem0)));
        [done| | |].
      * intros Heq. rewrite Heq in Hlt0. by apply (lex_lt_irrefl problem0).
      * intros p Hpp Hpend. destruct (Hmin p Hpp) as [->|Hl]; [by left|].
        right. split; [exact Hl|].
        destruct Hpend as [Hl'|[?|?]]; [destruct (Hmax p Hpp Hl')| |];
          [by left | by right].
      * apply (return_to_start (val n problem0));
          [done | by destruct Hwhich as [-> | ->] | done | lia |].
        intros p Hpp. destruct (Hinv p Hpp) as [Hle|[Hl|Hl]].
        -- left. eapply Qle_trans; [exact Hbb | exact Hle].
        -- destruct (Hmax p Hpp Hl).
        -- destruct (Hmin p Hpp) as [->|Hl'];
             [left; exact Hbc | right; split; [done | by left]].
Qed.

(** C1.  For a problem with at least one city, started from any initial tour
    the brute-force loop runs exactly until the successor first returns to
    that tour, visits every permutation of the city list on the way, and
    returns a tour whose goal value is no greater than that of any
    permutation.  The best changes on strict improvement only: in the order
    [problem0], its successor, the successor of that one and so on, the tour
    returned is the first of minimal goal value, every tour before it being
    strictly worse. *)
Theorem brute_force_finds_optimum :
  1 ≤ n →
  ∃ k best,
    1 ≤ k ∧
    (∀ fuel, k ≤ fuel →
       brute_force_find_solution goal fuel problem0 = Some best) ∧
    (∀ fuel, fuel < k → brute_force_find_solution goal fuel problem0 = None) ∧
    Nat.iter k next_solution problem0 = problem0 ∧
    (∀ j, 0 < j < k → Nat.iter j next_solution problem0 ≠ problem0) ∧
    (∀ p, tour n p →
          ∃ j, 0 < j ≤ k ∧ Nat.iter j next_solution problem0 = p) ∧
    tour n best ∧
    (∀ p, tour n p → (goal best <= goal p)%Q) ∧
    ∃ i, i < k ∧ best = Nat.iter i next_solution problem0 ∧
         ∀ j, j < i →
              (goal best < goal (Nat.iter j next_solution problem0))%Q.
Proof.
  intros _.
  destruct (climb_and_wrap (n ^ n) problem0 problem0)
    as (k & best & Hk & Hsome & Hnone & Hiter & Hfirst & Hvis & Hpb & Hopt
          & Hearliest).
  - done.
  - done.
  - by left.
  - lia.
  - intros p Hp. destruct (lex_trichotomy problem0 p) as [->|[Hl|Hl]];
      [left; apply Qle_refl | by right; left | by right; right].
  - exists k, best. do 5 (split; [done|]). split.
    { intros p Hp. apply Hvis; [done|].
      destruct (lex_trichotomy problem0 p) as [->|[Hl|Hl]];
        [by right; right | by left | by right; left]. }
    split; [done|]. split; [done|].
    destruct Hearliest as [->|(i & Hi & Heq & Hlt & Hbefore)].
    + exists 0. split; [lia|]. split; [done|]. intros j Hj. lia.
    + exists i. split.
      { destruct (decide (i = k)) as [->|?]; [|lia].
        rewrite Hiter in Heq. rewrite Heq in Hlt.
        destruct (Qlt_irrefl _ Hlt). }
      split; [done|]. intros [|j] Hj; [done|]. apply Hbefore. lia.
Qed.

End Optimum.

(** A goal value that tells all tours apart: the tour read in base ten. *)
Definition decimal_goal (t : solution_t) : Q := inject_Z (Z.of_nat (val 10 t)).

(** A goal value with ties: the first city of the tour.  Started from
    [[1; 0; 2]], the tours of least value are [[0; 1; 2]] and [[0; 2; 1]],
    and the first of them in the order of the visits is returned. *)
Definition first_city_goal (t : solution_t) : Q :=
  inject_Z (Z.of_nat (hd 0 t)).

Lemma brute_force_finds_optimum_witness :
  ∃ k best i,
    brute_force_find_solution first_city_goal k [1; 0; 2] = Some best ∧
    (∀ p, tour 3 p → (first_city_goal best <= first_city_goal p)%Q) ∧
    best = Nat.iter i next_solution [1; 0; 2] ∧
    ∀ j, j < i →
         (first_city_goal best
            < first_city_goal (Nat.iter j next_solution [1; 0; 2]%nat))%Q.
Proof.
  destruct (brute_force_finds_optimum first_city_goal 3 [1; 0; 2])
    as (k & best & _ & Hsome & _ & _ & _ & _ & _ & Hopt & i & _ & Heq & Hlt);
    [unfold tour; apply perm_swap | lia |].
  exists k, best, i.
  split; [apply Hsome; lia|]. split; [exact Hopt|].
  split; [exact Heq | exact Hlt].
Defined.

Example brute_force_run :
  brute_force_find_solution (λ t, (1000 - decimal_goal t)%Q) 6 [0; 1; 2]
    = Some [2; 1; 0] ∧
  brute_force_find_solution (λ t, (1000 - decimal_goal t)%Q) 5 [0; 1; 2]
    = None ∧
  brute_force_find_solution decimal_goal 6 [1; 2; 0] = Some [0; 1; 2] ∧
  brute_force_find_solution first_city_goal 6 [1; 0; 2] = Some [0; 1; 2] ∧
  brute_force_find_solution (λ _, 0%Q) 6 [1; 0; 2] = Some [1; 0; 2].
Proof. repeat split; vm_compute; reflexivity. Qed.

End BruteForce.

(** ** The generational loop: genetic_algorithm of 9/src/salesman.cpp *)

Module Engine.

(** The loops [for (int i = 0; i < (int)size - 1; i += 2)] visit
    [i = 0, 2, 4, ...] below [size - 1]: [size / 2] rounds. *)
Definition pair_rounds (sz : Z) : nat := Z.to_nat (sz / 2).

Section Engine.

(** [W] is the outside state (the generator, what the closures capture);
    [X] is the type of a specimen. *)
Context {W X : Type}.

Variable uniform_real_distribution : Q → Q → W → Q * W.
Variable fitness_f : X → Q.
Variable selection_f : list Q → M W Z.
Variable crossover_f : X → X → M W (X * X).
Variable mutation_f : X → M W X.
Variable crossover_probability : Q.
Variable mutation_probability : Q.
Variable term_condition_f : list X → M W bool.

Definition draw_unit : M W Q := λ w, Some (uniform_real_distribution 0 1 w).

(** [parents.push_back(population[selection_f(fit)])], [k] times. *)
Fixpoint select_parents (k : nat) (population : list X) (fit : list Q)
    (parents : list X) : M W (list X) :=
  match k with
  | O => mret parents
  | S k' =>
      idx ← selection_f fit;
      p ← lift (vec_get population idx);
      select_parents k' population fit (parents ++ [p])
  end.

(** "do the crossover". *)
Fixpoint crossover_loop (k : nat) (i : Z) (parents children : list X)
    : M W (list X) :=
  match k with
  | O => mret children
  | S k' =>
      u ← draw_unit;
      p1 ← lift (vec_get parents i);
      p2 ← lift (vec_get parents (i + 1));
      if Qltb crossover_probability u then
        ab ← crossover_f p1 p2;
        crossover_loop k' (i + 2) parents (children ++ [ab.1; ab.2])
      else
        crossover_loop k' (i + 2) parents (children ++ [p1; p2])
  end.

(** "do the mutation". *)
Fixpoint mutation_loop (k : nat) (i : Z) (children : list X) : M W (list X) :=
  match k with
  | O => mret children
  | S k' =>
      u ← draw_unit;
      if Qltb mutation_probability u then
        c ← lift (vec_get children i);
        c' ← mutation_f c;
        children' ← lift (vec_set children i c');
        mutation_loop k' (i + 2) children'
      else
        mutation_loop k' (i + 2) children
  end.

(** The body of the while loop; [n] is [initial_population.size()]. *)
Definition generation (n : Z) (population : list X) : M W (list X) :=
  let fit := map fitness_f population in
  parents ← select_parents (Z.to_nat n) population fit [];
  children ← crossover_loop (pair_rounds n) 0 parents [];
  mutation_loop (pair_rounds n) 0 children.

(** [while (term_condition_f(population)) { ... population = children; }]:
    the population when the loop is left.  Running out of [fuel] is a
    failure too. *)
Fixpoint evolve (fuel : nat) (n : Z) (population : list X) : M W (list X) :=
  match fuel with
  | O => λ _, None
  | S fuel' =>
      continue ← term_condition_f population;
      if (continue : bool) then
        children ← generation n population;
        evolve fuel' n children
      else mret population
  end.

Definition genetic_algorithm (fuel : nat) (initial_population : list X)
    : M W X :=
  population ← evolve fuel (size initial_population) initial_population;
  lift (max_element fitness_f population).

End Engine.

(** *** Sizes *)

Section EngineFacts.

Context {W X : Type}.

Variable uniform_real_distribution : Q → Q → W → Q * W.
Variable fitness_f : X → Q.
Variable selection_f : list Q → M W Z.
Variable crossover_f : X → X → M W (X * X).
Variable mutation_f : X → M W X.
Variable crossover_probability : Q.
Variable mutation_probability : Q.
Variable term_condition_f : list X → M W bool.

Local Abbreviation select_parents := (select_parents selection_f).
Local Abbreviation crossover_loop :=
  (crossover_loop uniform_real_distribution crossover_f crossover_probability).
Local Abbreviation mutation_loop :=
  (mutation_loop uniform_real_distribution mutation_f mutation_probability).
Local Abbreviation generation :=
  (generation uniform_real_distribution fitness_f selection_f crossover_f
     mutation_f crossover_probability mutation_probability).
Local Abbreviation evolve :=
  (evolve uniform_real_distribution fitness_f selection_f crossover_f
     mutation_f crossover_probability mutation_probability term_condition_f).

Lemma select_parents_length (population : list X) (fit : list Q) (k : nat) :
  ∀ (parents : list X) (w : W) (ps : list X) (w' : W),
    select_parents k population fit parents w = Some (ps, w') →
    length ps = (length parents + k)%nat.
Proof.
  induction k as [|k IH]; intros parents w ps w' H; cbn [Engine.select_parents] in H.
  - injection H as <- <-. lia.
  - unfold mbind, M_bind, lift in H.
    destruct (selection_f fit w) as [[idx w1]|]; [|done].
    destruct (vec_get population idx); [|done].
    apply IH in H. rewrite length_app in H. simpl in H. lia.
Qed.

Lemma crossover_loop_length (k : nat) :
  ∀ i (parents children : list X) (w : W) (cs : list X) (w' : W),
    crossover_loop k i parents children w = Some (cs, w') →
    length cs = (length children + 2 * k)%nat.
Proof.
  induction k as [|k IH]; intros i parents children w cs w' H;
    cbn [Engine.crossover_loop] in H.
  - injection H as <- <-. lia.
  - unfold mbind, M_bind, lift, draw_unit in H.
    destruct (uniform_real_distribution 0%Q 1%Q w) as [u w1].
    destruct (vec_get parents i); [|done].
    destruct (vec_get parents (i + 1)); [|done].
    destruct (Qltb crossover_probability u).
    + destruct (crossover_f x x0 w1) as [[ab w2]|]; [|done].
      apply IH in H. rewrite length_app in H. simpl in H. lia.
    + apply IH in H. rewrite length_app in H. simpl in H. lia.
Qed.

(** The mutation loop keeps the number of children, and no child at an odd
    index is ever handed to [mutation_f]. *)
Lemma mutation_loop_odd_untouched (k : nat) :
  ∀ (j0 : nat) (children : list X) (w : W) (cs : list X) (w' : W),
    mutation_loop k (Z.of_nat (2 * j0)) children w = Some (cs, w') →
    length cs = length children ∧
    ∀ j : nat, Nat.Odd j → cs !! j = children !! j.
Proof.
  induction k as [|k IH]; intros j0 children w cs w' H;
    cbn [Engine.mutation_loop] in H.
  - injection H as <- <-. done.
  - unfold mbind, M_bind, lift, draw_unit in H.
    destruct (uniform_real_distribution 0%Q 1%Q w) as [u w1].
    replace (Z.of_nat (2 * j0) + 2) with (Z.of_nat (2 * S j0)) in H by lia.
    destruct (Qltb mutation_probability u).
    + destruct (vec_get children (Z.of_nat (2 * j0))) as [c|]; [|done].
      destruct (mutation_f c w1) as [[c' w2]|]; [|done].
      unfold vec_set in H. destruct (decide _) as [Hi|]; [|done].
      apply IH in H as [Hlen Hodd]. rewrite length_insert in Hlen.
      split; [done|]. intros j Hj. rewrite (Hodd j Hj).
      apply list_lookup_insert_ne. destruct Hj as [m ->]. lia.
    + by apply IH in H.
Qed.

Lemma generation_length n (population : list X) (w : W) (cs : list X) w' :
  generation n population w = Some (cs, w') →
  length cs = (2 * pair_rounds n)%nat.
Proof.
  unfold Engine.generation. intros H. unfold mbind, M_bind in H.
  destruct (select_parents _ _ _ _ _) as [[ps w1]|]; [|done].
  destruct (crossover_loop _ _ _ _ _) as [[children w2]|] eqn:Hc; [|done].
  apply crossover_loop_length in Hc. simpl in Hc.
  apply (mutation_loop_odd_untouched _ 0) in H as [Hlen _]. lia.
Qed.

Lemma evolve_length (fuel : nat) n :
  ∀ (population : list X) (w : W) (final : list X) (w' : W),
    evolve fuel n population w = Some (final, w') →
    final = population ∨ length final = (2 * pair_rounds n)%nat.
Proof.
  induction fuel as [|fuel IH]; intros population w final w' H;
    cbn [Engine.evolve] in H; [done|].
  unfold mbind, M_bind in H.
  destruct (term_condition_f population w) as [[[] w1]|]; [| |done].
  - destruct (generation n population w1) as [[children w2]|] eqn:Hg; [|done].
    apply generation_length in Hg. apply IH in H as [->|H]; by right.
  - injection H as <- <-. by left.
Qed.

(** Selection answers with an index of the fitness vector: the selection of
    the parents is then defined. *)
Definition selection_in_range : Prop :=
  ∀ fit w, fit ≠ [] →
    ∃ idx w', selection_f fit w = Some (idx, w') ∧ 0 ≤ idx < size fit.

Lemma select_parents_defined (population : list X) (k : nat) :
  selection_in_range → population ≠ [] →
  ∀ (parents : list X) (w : W),
    is_Some (select_parents k population (map fitness_f population) parents w).
Proof.
  intros Hsel Hne. induction k as [|k IH]; intros parents w;
    cbn [Engine.select_parents]; [by eauto|].
  unfold mbind, M_bind, lift.
  destruct (Hsel (map fitness_f population) w) as (idx & w1 & -> & Hidx).
  { by destruct population. }
  unfold size in Hidx. rewrite length_map in Hidx.
  destruct (lookup_lt_is_Some_2 population (Z.to_nat idx)) as [p Hp]; [lia|].
  unfold vec_get. destruct (decide _); [|lia]. rewrite Hp. apply IH.
Qed.

Lemma pair_rounds_size (v : list X) : pair_rounds (size v) = (length v / 2)%nat.
Proof.
  unfold pair_rounds, size.
  rewrite <- (Nat2Z.id (length v / 2)). f_equal.
  by rewrite Nat2Z.inj_div.
Qed.

End EngineFacts.

(** A concrete engine: the outside state is a counter that every draw
    advances; selection walks through the population in turn; the draw of
    the unit interval is always one half. *)
Definition turn_selection (fit : list Q) : M nat Z := λ w,
  Some (Z.of_nat (w mod length fit), S w).

Definition half_draw (lo hi : Q) (w : nat) : Q * nat := (1 # 2, S w).

Definition swap_crossover (a b : Z) : M nat (Z * Z) := λ w, Some ((b, a), w).

Definition bump_mutation (a : Z) : M nat Z := λ w, Some (a + 1, w).

Definition stop_at_once (population : list Z) : M nat bool := λ w,
  Some (false, w).

(** C4 as stated fails for an odd population: three individuals leave a
    generation as two. *)
Lemma population_size_fixed_counterexample :
  ∃ children w',
    generation half_draw inject_Z turn_selection swap_crossover bump_mutation
      (9 # 10) (1 # 10) (size [1; 2; 3]) [1; 2; 3] 0%nat
      = Some (children, w') ∧
    length children ≠ length [1; 2; 3].
Proof. exists [2; 2], 5%nat. split; [vm_compute; reflexivity | simpl; lia]. Qed.

(** C3 at its failing input.  Two children, a mutation that adds one to a
    child, and a draw of one half.  With mutation probability 1 no child is
    mutated; with mutation probability 0 child 0 is mutated; child 1 stays as
    it was in both runs. *)
Theorem mutation_loop_at_failing_input :
  mutation_loop half_draw bump_mutation 1 (pair_rounds (size [10; 20])) 0
    [10; 20] 0%nat = Some ([10; 20], 1%nat) ∧
  mutation_loop half_draw bump_mutation 0 (pair_rounds (size [10; 20])) 0
    [10; 20] 0%nat = Some ([11; 20], 1%nat).
Proof. split; vm_compute; reflexivity. Qed.

End Engine.

(** ** Migration between demes: ep of 12_ga_island/generic_ga.cpp *)

Module Island.

Section Migration.

(** The state of [randgen]. *)
Context {W : Type}.
Variable uniform_int_distribution : Z → Z → W → Z * W.
Variable fitness : chromosome_t → Q.

(** [std::sort] with the comparator [fitness(a) < fitness(b)].  The library
    promises a rearrangement in ascending order and leaves the order of
    equally fit individuals open: the sort is a parameter, and the facts
    below assume of it what the library promises, nothing else. *)
Variable sort : list chromosome_t → list chromosome_t.

(** [{v.begin() + 2, v.end()}]: undefined for fewer than two elements. *)
Definition drop_two (v : list chromosome_t) : option (list chromosome_t) :=
  if decide (2 ≤ length v)%nat then Some (drop 2 v) else None.

(** The first loop of the ranked branch: every deme sorted, then cut. *)
Fixpoint sort_and_cut (new_populations : list (list chromosome_t))
    : option (list (list chromosome_t)) :=
  match new_populations with
  | [] => Some []
  | deme :: rest =>
      cut ← drop_two (sort deme);
      rest' ← sort_and_cut rest;
      Some (cut :: rest')
  end.

(** [np_w_migrants[j].push_back(x)]. *)
Definition push_at (j : Z) (x : chromosome_t)
    (np_w_migrants : list (list chromosome_t))
    : option (list (list chromosome_t)) :=
  deme ← vec_get np_w_migrants j;
  vec_set np_w_migrants j (deme ++ [x]).

(** The second loop, without random replacement, [k] rounds from deme [i]. *)
Fixpoint migrate_from (k : nat) (i : Z)
    (new_populations np_w_migrants : list (list chromosome_t))
    : option (list (list chromosome_t)) :=
  match k with
  | O => Some np_w_migrants
  | S k' =>
      deme ← vec_get new_populations i;
      best_of_all ← max_element fitness deme;
      np1 ← push_at ((i + 1) mod size new_populations) best_of_all
              np_w_migrants;
      np2 ← push_at ((i + size new_populations - 1) mod size new_populations)
              best_of_all np1;
      migrate_from k' (i + 1) new_populations np2
  end.

(** The event for [random_replace = false]: sort and cut, then append. *)
Definition ranked_replacement (new_populations : list (list chromosome_t))
    : option (list (list chromosome_t)) :=
  new_populations ← sort_and_cut new_populations;
  migrate_from (length new_populations) 0 new_populations new_populations.

(** [np_w_migrants[j].at(k) = x]; [at] throws out of range. *)
Definition replace_at (j k : Z) (x : chromosome_t)
    (np_w_migrants : list (list chromosome_t))
    : option (list (list chromosome_t)) :=
  deme ← vec_get np_w_migrants j;
  deme' ← vec_set deme k x;
  vec_set np_w_migrants j deme'.

(** The second loop with random replacement.  [right_gen] ranges over the
    right neighbour and [left_gen] over the left one, and the source indexes
    the right neighbour with the draw of [left_gen] and the left neighbour
    with the draw of [right_gen]. *)
Fixpoint migrate_random_from (k : nat) (i : Z)
    (new_populations np_w_migrants : list (list chromosome_t))
    : M W (list (list chromosome_t)) :=
  match k with
  | O => mret np_w_migrants
  | S k' =>
      deme ← lift (vec_get new_populations i);
      best_of_all ← lift (max_element fitness deme);
      let D := size new_populations in
      right ← lift (vec_get np_w_migrants ((i + 1) mod D));
      left ← lift (vec_get np_w_migrants ((i + D - 1) mod D));
      l ← draw_int uniform_int_distribution 0 (size left - 1);
      np1 ← lift (replace_at ((i + 1) mod D) l best_of_all np_w_migrants);
      r ← draw_int uniform_int_distribution 0 (size right - 1);
      np2 ← lift (replace_at ((i + D - 1) mod D) r best_of_all np1);
      migrate_random_from k' (i + 1) new_populations np2
  end.

(** The migration event, lines 64 to 100 of ep: what it leaves in
    [new_populations]. *)
Definition migration (random_replace : bool)
    (new_populations : list (list chromosome_t))
    : M W (list (list chromosome_t)) :=
  if random_replace then
    migrate_random_from (length new_populations) 0 new_populations
      new_populations
  else lift (ranked_replacement new_populations).

(** Ascending fitness. *)
Fixpoint fitness_ascending (l : list chromosome_t) : Prop :=
  match l with
  | [] => True
  | x :: r => Forall (λ y, (fitness x <= fitness y)%Q) r ∧ fitness_ascending r
  end.

End Migration.

(** For runs on concrete demes the parameter has to be filled in: an
    insertion sort is one procedure that does what the library promises
    (lemmas [insertion_sort_perm] and [insertion_sort_ascending]).  Nothing
    below depends on the order in which it leaves equally fit individuals. *)
Fixpoint insert_sorted (fitness : chromosome_t → Q) (x : chromosome_t)
    (l : list chromosome_t) : list chromosome_t :=
  match l with
  | [] => [x]
  | y :: l' =>
      if Qltb (fitness y) (fitness x) then y :: insert_sorted fitness x l'
      else x :: y :: l'
  end.

Definition insertion_sort (fitness : chromosome_t → Q)
    (l : list chromosome_t) : list chromosome_t :=
  foldr (insert_sorted fitness) [] l.

(** A fitness for checking: the sum of the genes. *)
Definition gene_sum (c : chromosome_t) : Q := inject_Z (foldr Z.add 0 c).

Example migration_run :
  migration (λ lo hi (w : unit), (lo, w)) gene_sum (insertion_sort gene_sum)
    false [[[1]; [5]; [3]]; [[2]; [9]; [4]]; [[8]; [6]; [7]]] tt
  = Some ([[[5]; [9]; [8]]; [[9]; [5]; [8]]; [[8]; [5]; [9]]], tt) ∧
  migration (λ lo hi (w : unit), (lo, w)) gene_sum (insertion_sort gene_sum)
    true [[[1]; [5]; [3]]; [[2]; [9]; [4]]; [[8]; [6]; [7]]] tt
  = Some ([[[8]; [5]; [3]]; [[8]; [9]; [4]]; [[9]; [6]; [7]]], tt).
Proof. split; vm_compute; reflexivity. Qed.

Section InsertionSort.

Variable fitness : chromosome_t → Q.

Lemma insert_sorted_perm x (l : list chromosome_t) :
  insert_sorted fitness x l ≡ₚ x :: l.
Proof.
  induction l as [|y l IH]; simpl; [done|].
  destruct (Qltb (fitness y) (fitness x)); [|done].
  rewrite IH. apply perm_swap.
Qed.

Lemma insertion_sort_perm (l : list chromosome_t) :
  insertion_sort fitness l ≡ₚ l.
Proof.
  induction l as [|x l IH]; simpl; [done|].
  rewrite insert_sorted_perm. by constructor.
Qed.

Lemma insert_sorted_ascending x (l : list chromosome_t) :
  fitness_ascending fitness l →
  fitness_ascending fitness (insert_sorted fitness x l).
Proof.
  induction l as [|y l IH]; simpl; [done|]. intros [Hy Hl].
  destruct (Qltb (fitness y) (fitness x)) eqn:E; simpl.
  - apply Qltb_lt in E. split; [|by apply IH].
    rewrite insert_sorted_perm. apply Forall_cons; [|done].
    by apply Qlt_le_weak.
  - apply Qltb_ge in E. split; [|done].
    apply Forall_cons; [done|].
    eapply list.Forall_impl; [exact Hy|]. simpl. intros z Hz.
    by eapply Qle_trans.
Qed.

Lemma insertion_sort_ascending (l : list chromosome_t) :
  fitness_ascending fitness (insertion_sort fitness l).
Proof.
  induction l as [|x l IH]; simpl; [done|].
  by apply insert_sorted_ascending.
Qed.

End InsertionSort.

(** *** Sorting and cutting *)

Section MigrationFacts.

Context {W : Type}.
Variable uniform_int_distribution : Z → Z → W → Z * W.
Variable fitness : chromosome_t → Q.
Variable sort : list chromosome_t → list chromosome_t.

(** What [std::sort] promises for this comparator. *)
Hypothesis sort_permutes : ∀ l, sort l ≡ₚ l.
Hypothesis sort_ascending : ∀ l, fitness_ascending fitness (sort l).

Local Abbreviation fitness_ascending := (fitness_ascending fitness).

(** A sorted deme with at least two individuals starts with its two least
    fit ones. *)
Lemma sorted_cut (deme : list chromosome_t) :
  (2 ≤ length deme)%nat →
  ∃ w1 w2 kept,
    sort deme = w1 :: w2 :: kept ∧
    drop_two (sort deme) = Some kept ∧
    deme ≡ₚ w1 :: w2 :: kept ∧
    (fitness w1 <= fitness w2)%Q ∧
    ∀ x, x ∈ kept → (fitness w2 <= fitness x)%Q.
Proof.
  intros Hlen.
  pose proof (sort_permutes deme) as Hp.
  pose proof (sort_ascending deme) as Ha.
  pose proof (Permutation_length Hp) as Hl.
  destruct (sort deme) as [|w1 [|w2 kept]] eqn:E;
    simpl in Hl; try lia.
  exists w1, w2, kept. split; [done|]. split.
  { unfold drop_two. destruct (decide _) as [_|?]; [done|]. simpl in *. lia. }
  split; [done|].
  destruct Ha as [H1 [H2 _]]. apply Forall_cons_1 in H1 as [H12 _].
  split; [done|]. by apply list.Forall_forall.
Qed.

Lemma sort_and_cut_spec (new_populations : list (list chromosome_t)) :
  Forall (λ deme, 2 ≤ length deme)%nat new_populations →
  ∃ cut,
    sort_and_cut sort new_populations = Some cut ∧
    length cut = length new_populations ∧
    ∀ (j : nat) deme, new_populations !! j = Some deme →
      cut !! j = Some (drop 2 (sort deme)).
Proof.
  induction 1 as [|deme rest Hd _ (cut & Hcut & Hlen & Hlook)]; simpl.
  - exists []. by repeat split.
  - unfold drop_two. destruct (decide _) as [_|Hn].
    2:{ rewrite (Permutation_length (sort_permutes deme)) in Hn. lia. }
    simpl. rewrite Hcut. simpl.
    exists (drop 2 (sort deme) :: cut).
    split; [done|]. split; [simpl; lia|].
    intros [|j] d Hj; simpl in *; [by injection Hj as <-|by apply Hlook].
Qed.

(** *** The ring *)

Lemma push_at_spec (j0 : nat) x (np : list (list chromosome_t)) :
  (j0 < length np)%nat →
  ∃ np1,
    push_at (Z.of_nat j0) x np = Some np1 ∧
    length np1 = length np ∧
    ∀ j : nat,
      np1 !! j
      = (λ deme, deme ++ (if decide (j0 = j) then [x] else [])) <$> np !! j.
Proof.
  intros Hj0. unfold push_at.
  destruct (lookup_lt_is_Some_2 np j0) as [d Hd]; [done|].
  rewrite vec_get_nat, Hd. simpl. rewrite vec_set_nat by done.
  eexists. split; [done|]. split; [by rewrite length_insert|].
  intros j. destruct (decide (j0 = j)) as [<-|Hne].
  - rewrite list_lookup_insert_eq by done. by rewrite Hd.
  - rewrite list_lookup_insert_ne by done.
    destruct (np !! j); simpl; [|done]. by rewrite app_nil_r.
Qed.

Lemma succ_mod (D t : nat) :
  (t < D)%nat →
  ((t + 1) mod D = if decide (t + 1 = D) then 0 else t + 1)%nat.
Proof.
  intros Ht. destruct (decide _) as [->|?].
  - apply Nat.Div0.mod_same.
  - apply Nat.mod_small. lia.
Qed.

Lemma pred_mod (D t : nat) :
  (t < D)%nat →
  ((t + D - 1) mod D = if decide (t = 0) then D - 1 else t - 1)%nat.
Proof.
  intros Ht. destruct (decide _) as [->|?].
  - apply Nat.mod_small. lia.
  - replace (t + D - 1)%nat with (t - 1 + 1 * D)%nat by lia.
    rewrite Nat.Div0.mod_add. apply Nat.mod_small. lia.
Qed.

(** What deme [j] receives from the demes [ts], in the order of the pushes. *)
Definition arrivals (best : nat → chromosome_t) (D j : nat) (ts : list nat)
    : list chromosome_t :=
  flat_map
    (λ t, (if decide ((t + 1) mod D = j)%nat then [best t] else []) ++
          (if decide ((t + D - 1) mod D = j)%nat then [best t] else []))
    ts.

Lemma hits_none (g : nat → chromosome_t) (f : nat → nat) (j k : nat) :
  ∀ lo, (∀ t, (lo ≤ t < lo + k)%nat → f t ≠ j) →
        flat_map (λ t, if decide (f t = j) then [g t] else []) (seq lo k) = [].
Proof.
  induction k as [|k IH]; intros lo Hno; simpl; [done|].
  destruct (decide _) as [He|_]; [destruct (Hno lo); [lia|done]|].
  simpl. apply IH. intros t Ht. apply Hno. lia.
Qed.

Lemma hits_unique (g : nat → chromosome_t) (f : nat → nat) (j t0 k : nat) :
  ∀ lo, (lo ≤ t0 < lo + k)%nat →
        (∀ t, (lo ≤ t < lo + k)%nat → f t = j ↔ t = t0) →
        flat_map (λ t, if decide (f t = j) then [g t] else []) (seq lo k)
        = [g t0].
Proof.
  induction k as [|k IH]; intros lo Ht0 Hiff; simpl; [lia|].
  destruct (decide (lo = t0)) as [->|Hne].
  - destruct (decide _) as [_|Hn]; [|destruct Hn; apply Hiff; [lia|done]].
    simpl. f_equal. apply hits_none. intros t Ht Hf.
    apply Hiff in Hf; lia.
  - destruct (decide _) as [He|_]; [apply Hiff in He; lia|].
    simpl. apply IH; [lia|]. intros t Ht. apply Hiff. lia.
Qed.

Lemma flat_map_app_perm {A B} (f g : A → list B) (l : list A) :
  flat_map (λ x, f x ++ g x) l ≡ₚ flat_map f l ++ flat_map g l.
Proof.
  induction l as [|x l IH]; simpl; [done|].
  rewrite IH, <- !app_assoc. apply Permutation_app_head.
  rewrite !app_assoc. apply Permutation_app_tail, Permutation_app_comm.
Qed.

(** Over the whole ring, deme [j] receives the best of its left and of its
    right neighbour, once each. *)
Lemma arrivals_ring (best : nat → chromosome_t) (D j : nat) :
  (j < D)%nat →
  arrivals best D j (seq 0 D)
  ≡ₚ [best ((j + D - 1) mod D)%nat; best ((j + 1) mod D)%nat].
Proof.
  intros Hj. unfold arrivals. rewrite flat_map_app_perm.
  rewrite (hits_unique best (λ t, (t + 1) mod D)%nat j ((j + D - 1) mod D)%nat).
  - rewrite (hits_unique best (λ t, (t + D - 1) mod D)%nat j
               ((j + 1) mod D)%nat); [done| |].
    + rewrite succ_mod by done. destruct (decide _); lia.
    + intros t Ht. rewrite pred_mod, (succ_mod D j) by lia.
      repeat destruct (decide _); lia.
  - rewrite pred_mod by done. destruct (decide _); lia.
  - intros t Ht. rewrite succ_mod, (pred_mod D j) by lia.
    repeat destruct (decide _); lia.
Qed.

Lemma migrate_from_spec (cut : list (list chromosome_t))
    (best : nat → chromosome_t) :
  (∀ t : nat, (t < length cut)%nat →
     ∃ deme, cut !! t = Some deme ∧ max_element fitness deme = Some (best t)) →
  ∀ (k i : nat) (np : list (list chromosome_t)),
    length np = length cut → (i + k ≤ length cut)%nat →
    ∃ np',
      migrate_from fitness k (Z.of_nat i) cut np = Some np' ∧
      length np' = length cut ∧
      ∀ j : nat,
        np' !! j
        = (λ deme, deme ++ arrivals best (length cut) j (seq i k)) <$> np !! j.
Proof.
  intros Hbest. induction k as [|k IH]; intros i np Hlen Hik;
    cbn [migrate_from].
  - exists np. split; [done|]. split; [done|]. intros j.
    destruct (np !! j); simpl; [|done]. by rewrite app_nil_r.
  - destruct (Hbest i) as (deme & Hdeme & Hmax); [lia|].
    rewrite vec_get_nat, Hdeme. simpl. rewrite Hmax. simpl.
    unfold size.
    replace ((Z.of_nat i + 1) mod Z.of_nat (length cut))
      with (Z.of_nat ((i + 1) mod length cut))
      by (rewrite Nat2Z.inj_mod; f_equal; lia).
    replace ((Z.of_nat i + Z.of_nat (length cut) - 1) mod Z.of_nat (length cut))
      with (Z.of_nat ((i + length cut - 1) mod length cut))
      by (rewrite Nat2Z.inj_mod; f_equal; lia).
    destruct (push_at_spec ((i + 1) mod length cut) (best i) np)
      as (np1 & -> & Hl1 & Hlook1).
    { rewrite Hlen. apply Nat.mod_upper_bound. lia. }
    simpl.
    destruct (push_at_spec ((i + length cut - 1) mod length cut) (best i) np1)
      as (np2 & -> & Hl2 & Hlook2).
    { rewrite Hl1, Hlen. apply Nat.mod_upper_bound. lia. }
    simpl. replace (Z.of_nat i + 1) with (Z.of_nat (S i)) by lia.
    destruct (IH (S i) np2) as (np' & -> & Hl' & Hlook'); [lia|lia|].
    exists np'. split; [done|]. split; [done|]. intros j.
    rewrite Hlook', Hlook2, Hlook1. destruct (np !! j); simpl; [|done].
    f_equal. unfold arrivals. simpl. by rewrite <- !app_assoc.
Qed.

(** The best of a cut deme is a best individual of the whole deme, when
    something is left after the cut. *)
Lemma best_of_cut (deme : list chromosome_t) :
  (3 ≤ length deme)%nat →
  ∃ b,
    max_element fitness (drop 2 (sort deme)) = Some b ∧
    b ∈ deme ∧ ∀ x, x ∈ deme → (fitness x <= fitness b)%Q.
Proof.
  intros Hlen.
  destruct (sorted_cut deme) as (w1 & w2 & kept & Hs & _ & Hp & H12 & Hk);
    [lia|].
  rewrite Hs. simpl.
  pose proof (Permutation_length Hp) as Hl. simpl in Hl.
  destruct (max_element_defined fitness kept) as [b Hb].
  { intros ->. simpl in Hl. lia. }
  exists b. split; [done|].
  apply max_element_spec in Hb as [Hin Hmax].
  assert (fitness w2 <= fitness b)%Q as H2b by (by apply Hk).
  split.
  - rewrite Hp. by do 2 right.
  - intros x Hx. rewrite Hp in Hx.
    apply elem_of_cons in Hx as [->|Hx]; [by eapply Qle_trans|].
    apply elem_of_cons in Hx as [->|Hx]; [done|]. by apply Hmax.
Qed.

(** With a deme of fewer than two individuals the cut reaches past its
    end. *)
Lemma sort_and_cut_defined (new_populations cut : list (list chromosome_t)) :
  sort_and_cut sort new_populations = Some cut →
  Forall (λ deme, 2 ≤ length deme)%nat new_populations.
Proof.
  revert cut. induction new_populations as [|deme rest IH]; intros cut H;
    simpl in H; [done|].
  unfold drop_two in H. destruct (decide _) as [Hlen|]; [|done].
  simpl in H. destruct (sort_and_cut sort rest) as [rest'|]; [|done].
  rewrite (Permutation_length (sort_permutes deme)) in Hlen.
  apply Forall_cons; [done|]. by eapply IH.
Qed.

(** An empty deme has no best individual: the second loop dereferences the
    end of an empty range when it comes to it. *)
Lemma migrate_from_hole (cut : list (list chromosome_t)) (t : nat) :
  cut !! t = Some [] →
  ∀ (k i : nat) (np : list (list chromosome_t)),
    (i ≤ t < i + k)%nat →
    migrate_from fitness k (Z.of_nat i) cut np = None.
Proof.
  intros Ht. induction k as [|k IH]; intros i np Hik; [lia|].
  cbn [migrate_from]. rewrite vec_get_nat.
  destruct (decide (i = t)) as [->|Hne].
  - by rewrite Ht.
  - destruct (cut !! i) as [deme|]; [|done]. cbn [mbind option_bind].
    destruct (max_element fitness deme) as [best|]; [|done].
    cbn [mbind option_bind].
    destruct (push_at _ best np) as [np1|]; [|done]. cbn [mbind option_bind].
    destruct (push_at _ best np1) as [np2|]; [|done]. cbn [mbind option_bind].
    replace (Z.of_nat i + 1) with (Z.of_nat (S i)) by lia.
    apply IH. lia.
Qed.


End MigrationFacts.



End Island.

(** ** Selection: the selection closures of the richer genetic driver *)

Module Selection.

(** [std::accumulate(first, last, 0.0)] with the rounded sum [dadd]. *)
Definition accumulate (dadd : Q → Q → Q) (v : list Q) : Q :=
  fold_left dadd v 0%Q.

(** [fitnesses_with_index.push_back({fitnesses[i], i})] for [i] from [i0]. *)
Fixpoint with_index_from (i0 : Z) (fitnesses : list Q) : list (Q * Z) :=
  match fitnesses with
  | [] => []
  | f :: rest => (f, i0) :: with_index_from (i0 + 1) rest
  end.

(** One sorting procedure for the comparator [a.first < b.first]: an
    insertion sort. *)
Fixpoint insert_pair (x : Q * Z) (l : list (Q * Z)) : list (Q * Z) :=
  match l with
  | [] => [x]
  | y :: l' => if Qltb y.1 x.1 then y :: insert_pair x l' else x :: y :: l'
  end.

Definition sort_pairs (l : list (Q * Z)) : list (Q * Z) :=
  foldr insert_pair [] l.

(** [fit_new[i] = i + 1] for [i < k]. *)
Definition rank_weights (k : nat) : list Q :=
  (λ i : nat, inject_Z (Z.of_nat i + 1)) <$> seq 0 k.

Section Selection.

Context {W : Type}.
Variable uniform_int_distribution : Z → Z → W → Z * W.
Variable uniform_real_distribution : Q → Q → W → Q * W.

(** The rounded sum and difference of two doubles. *)
Variable dadd : Q → Q → Q.
Variable dsub : Q → Q → Q.

Definition tournament_selection (fitnesses : list Q) : M W Z :=
  first ← draw_int uniform_int_distribution 0 (size fitnesses - 1);
  second ← draw_int uniform_int_distribution 0 (size fitnesses - 1);
  f1 ← lift (vec_get fitnesses first);
  f2 ← lift (vec_get fitnesses second);
  mret (if Qltb f2 f1 then first else second).

(** The real distribution requires [lo <= hi]. *)
Definition draw_real_between (lo hi : Q) : M W Q := λ w,
  if Qle_bool lo hi then Some (uniform_real_distribution lo hi w) else None.

(** The loop of roulette_selection with [i = k - 1] next, and the final
    [return 0]. *)
Fixpoint roulette_walk (k : nat) (fitnesses : list Q) (sum_fit u : Q)
    : option Z :=
  match k with
  | O => Some 0
  | S k' =>
      f ← vec_get fitnesses (Z.of_nat k');
      let sum_fit := dsub sum_fit f in
      if Qle_bool sum_fit u then Some (Z.of_nat k')
      else roulette_walk k' fitnesses sum_fit u
  end.

(** The loop starts at [(int)(fitnesses.size() - 1)]. *)
Definition roulette_selection (fitnesses : list Q) : M W Z :=
  let sum_fit := accumulate dadd fitnesses in
  u ← draw_real_between 0 sum_fit;
  let i0 := LocalSearch.to_int (to_size_t (size fitnesses - 1)) in
  lift (roulette_walk (Z.to_nat (i0 + 1)) fitnesses sum_fit u).

(** [std::sort] with the comparator [a.first < b.first]; the source leaves
    the order of equal keys to the library. *)
Variable sort : list (Q * Z) → list (Q * Z).

Definition rank_selection (fitnesses : list Q) : M W Z :=
  let fitnesses_with_index := sort (with_index_from 0 fitnesses) in
  let fit_new := rank_weights (length fitnesses) in
  idx ← roulette_selection fit_new;
  chosen ← lift (vec_get fitnesses_with_index idx);
  mret chosen.2.

End Selection.

Section SelectionFacts.

Context {W : Type}.
Variable uniform_int_distribution : Z → Z → W → Z * W.
Variable uniform_real_distribution : Q → Q → W → Q * W.
Variable dadd : Q → Q → Q.
Variable dsub : Q → Q → Q.

Hypothesis in_range : draws_in_range uniform_int_distribution.

Lemma tournament_selection_spec (fit : list Q) (w0 : W) :
  fit ≠ [] →
  let e1 := uniform_int_distribution 0 (size fit - 1) w0 in
  let e2 := uniform_int_distribution 0 (size fit - 1) e1.2 in
  ∃ f1 f2,
    tournament_selection uniform_int_distribution fit w0
      = Some (if Qltb f2 f1 then e1.1 else e2.1, e2.2) ∧
    0 ≤ e1.1 < size fit ∧ 0 ≤ e2.1 < size fit ∧
    vec_get fit e1.1 = Some f1 ∧ vec_get fit e2.1 = Some f2.
Proof.
  intros Hne e1 e2. subst e1 e2.
  assert (0 ≤ size fit - 1) as Hsz.
  { unfold size. destruct fit; [done|]. simpl. lia. }
  pose proof (in_range 0 (size fit - 1) w0 Hsz) as H1.
  pose proof (in_range 0 (size fit - 1)
                (uniform_int_distribution 0 (size fit - 1) w0).2 Hsz) as H2.
  unfold tournament_selection, mbind, M_bind, draw_int, lift, mret, M_ret.
  destruct (decide _) as [_|?]; [|lia].
  destruct (uniform_int_distribution 0 (size fit - 1) w0) as [first w1].
  simpl in *.
  destruct (uniform_int_distribution 0 (size fit - 1) w1) as [second w2].
  simpl in *. unfold size in *.
  destruct (lookup_lt_is_Some_2 fit (Z.to_nat first)) as [f1 Hf1]; [lia|].
  destruct (lookup_lt_is_Some_2 fit (Z.to_nat second)) as [f2 Hf2]; [lia|].
  unfold vec_get. destruct (decide (0 ≤ first)) as [_|?]; [|lia].
  destruct (decide (0 ≤ second)) as [_|?]; [|lia].
  rewrite Hf1, Hf2. exists f1, f2. repeat split; try done; lia.
Qed.

Lemma tournament_selection_defined (fit : list Q) (w0 : W) :
  fit ≠ [] →
  ∃ idx w',
    tournament_selection uniform_int_distribution fit w0 = Some (idx, w') ∧
    0 ≤ idx < size fit.
Proof.
  intros Hne.
  destruct (tournament_selection_spec fit w0 Hne)
    as (f1 & f2 & Heq & H1 & H2 & _).
  eexists _, _. split; [exact Heq|]. destruct (Qltb f2 f1); lia.
Qed.

(** Tournament selection is undefined on an empty fitness vector; on any
    other it answers with one of its two draws, an index of the vector whose
    fitness is no smaller than that of either draw, the second draw winning
    a tie.  It is a selection as the generational loop needs it. *)
Theorem tournament_selection_picks_fitter (fitnesses : list Q) (w : W) :
  let d1 := uniform_int_distribution 0 (size fitnesses - 1) w in
  let d2 := uniform_int_distribution 0 (size fitnesses - 1) d1.2 in
  (fitnesses = [] →
   tournament_selection uniform_int_distribution fitnesses w = None) ∧
  (fitnesses ≠ [] →
   ∃ idx f1 f2 fi,
     tournament_selection uniform_int_distribution fitnesses w
       = Some (idx, d2.2) ∧
     0 ≤ idx < size fitnesses ∧
     vec_get fitnesses d1.1 = Some f1 ∧
     vec_get fitnesses d2.1 = Some f2 ∧
     vec_get fitnesses idx = Some fi ∧
     (idx = d1.1 ∨ idx = d2.1) ∧
     (f1 <= fi)%Q ∧ (f2 <= fi)%Q ∧
     ((f1 <= f2)%Q → idx = d2.1)) ∧
  Engine.selection_in_range (tournament_selection uniform_int_distribution).
Proof.
  intros d1 d2.
  split; [|split].
  - intros ->. reflexivity.
  - intros Hne. subst d1 d2.
    destruct (tournament_selection_spec fitnesses w Hne)
      as (f1 & f2 & Heq & H1 & H2 & Hf1 & Hf2).
    cbv zeta in *.
    destruct (Qltb f2 f1) eqn:E.
    + apply Qltb_lt in E. eexists _, f1, f2, f1.
      split; [exact Heq|].
      repeat split; try done; try lia; try (by left); try apply Qle_refl.
      * by apply Qlt_le_weak.
      * intros Hle. destruct (Qlt_not_le _ _ E Hle).
    + apply Qltb_ge in E. eexists _, f1, f2, f2.
      split; [exact Heq|].
      repeat split; try done; try lia; try (by right); apply Qle_refl.
  - intros fit w0 Hne. by apply tournament_selection_defined.
Qed.

Lemma roulette_start (fitnesses : list Q) :
  size fitnesses < 2 ^ 31 →
  Z.to_nat (LocalSearch.to_int (to_size_t (size fitnesses - 1)) + 1)
    = length fitnesses.
Proof.
  unfold size, LocalSearch.to_int, to_size_t. intros Hsz.
  destruct fitnesses as [|f rest]; [reflexivity|].
  simpl length in *.
  rewrite (Z.mod_small (Z.of_nat (S (length rest)) - 1)) by lia.
  rewrite Z.mod_small by lia. lia.
Qed.

Lemma roulette_walk_in_range (k : nat) (fitnesses : list Q) (sum_fit u : Q) :
  (k ≤ length fitnesses)%nat →
  ∃ i, roulette_walk dsub k fitnesses sum_fit u = Some i ∧
       0 ≤ i < Z.max 1 (Z.of_nat k).
Proof.
  revert sum_fit. induction k as [|k IH]; intros sum_fit Hk.
  - exists 0. split; [reflexivity|lia].
  - simpl. unfold vec_get. destruct (decide _) as [_|?]; [|lia].
    rewrite Nat2Z.id.
    destruct (lookup_lt_is_Some_2 fitnesses k) as [f Hf]; [lia|].
    rewrite Hf. simpl. destruct (Qle_bool _ _).
    + eexists. split; [reflexivity|lia].
    + destruct (IH (dsub sum_fit f)) as (i & -> & Hi); [lia|].
      exists i. split; [reflexivity|lia].
Qed.

Lemma roulette_selection_defined (fitnesses : list Q) (w : W) :
  size fitnesses < 2 ^ 31 →
  let sum_fit := accumulate dadd fitnesses in
  (0 <= sum_fit)%Q →
  ∃ i,
    roulette_selection uniform_real_distribution dadd dsub fitnesses w
      = Some (i, (uniform_real_distribution 0 sum_fit w).2) ∧
    0 ≤ i ∧ (fitnesses = [] → i = 0) ∧
    (fitnesses ≠ [] → i < size fitnesses).
Proof.
  intros Hsz sum_fit Hpos.
  unfold roulette_selection, mbind, M_bind, draw_real_between, lift.
  fold sum_fit. rewrite (roulette_start _ Hsz).
  apply Qle_bool_iff in Hpos. rewrite Hpos.
  destruct (uniform_real_distribution 0 sum_fit w) as [u w'].
  destruct (roulette_walk_in_range (length fitnesses) fitnesses sum_fit u)
    as (i & -> & Hi); [lia|].
  exists i. split; [reflexivity|]. unfold size.
  split; [lia|]. split.
  - intros ->. simpl in Hi. lia.
  - intros Hne. destruct fitnesses; [done|]. simpl length in *. lia.
Qed.

(** Roulette selection is undefined when the rounded sum of the fitnesses is
    negative, the real distribution then being asked for an empty range;
    otherwise, whatever the rounding of the sums and differences, it answers
    with an index of the vector, and with 0 for the empty vector. *)
Theorem roulette_selection_in_range (fitnesses : list Q) (w : W) :
  size fitnesses < 2 ^ 31 →
  let sum_fit := accumulate dadd fitnesses in
  ((sum_fit < 0)%Q →
   roulette_selection uniform_real_distribution dadd dsub fitnesses w = None) ∧
  ((0 <= sum_fit)%Q →
   ∃ i,
     roulette_selection uniform_real_distribution dadd dsub fitnesses w
       = Some (i, (uniform_real_distribution 0 sum_fit w).2) ∧
     0 ≤ i ∧ (fitnesses = [] → i = 0) ∧
     (fitnesses ≠ [] → i < size fitnesses)).
Proof.
  intros Hsz sum_fit. split.
  - intros Hneg.
    unfold roulette_selection, mbind, M_bind, draw_real_between, lift.
    fold sum_fit.
    destruct (Qle_bool 0 sum_fit) eqn:E; [|reflexivity].
    apply Qle_bool_iff in E. destruct (Qlt_not_le _ _ Hneg E).
  - by apply roulette_selection_defined.
Qed.

Lemma accumulate_snoc (v : list Q) (x : Q) :
  accumulate dadd (v ++ [x]) = dadd (accumulate dadd v) x.
Proof. unfold accumulate. by rewrite fold_left_app. Qed.

Lemma roulette_walk_slice (fitnesses : list Q) (u : Q) :
  (∀ x y, dadd x y == x + y)%Q →
  (∀ x y, dsub x y == x - y)%Q →
  (0 <= u)%Q →
  ∀ (k : nat) (sum_fit : Q),
    (k ≤ length fitnesses)%nat →
    (sum_fit == accumulate dadd (take k fitnesses))%Q →
    (u < sum_fit)%Q →
    ∃ i : nat,
      roulette_walk dsub k fitnesses sum_fit u = Some (Z.of_nat i) ∧
      (i < k)%nat ∧
      (accumulate dadd (take i fitnesses) <= u)%Q ∧
      (u < accumulate dadd (take (S i) fitnesses))%Q.
Proof.
  intros Hadd Hsub Hu. induction k as [|k IH]; intros sum_fit Hk Hsum Hlt.
  - exfalso. rewrite take_0 in Hsum. unfold accumulate in Hsum. simpl in Hsum.
    rewrite Hsum in Hlt. exact (Qlt_not_le _ _ Hlt Hu).
  - simpl. unfold vec_get. destruct (decide _) as [_|?]; [|lia].
    rewrite Nat2Z.id.
    destruct (lookup_lt_is_Some_2 fitnesses k) as [f Hf]; [lia|].
    rewrite Hf. simpl.
    rewrite (take_S_r _ _ _ Hf), accumulate_snoc, Hadd in Hsum.
    assert (dsub sum_fit f == accumulate dadd (take k fitnesses))%Q as Hrest.
    { rewrite Hsub, Hsum. ring. }
    destruct (Qle_bool (dsub sum_fit f) u) eqn:E.
    + apply Qle_bool_iff in E. exists k. split; [reflexivity|].
      split; [lia|]. split.
      * by rewrite <- Hrest.
      * rewrite (take_S_r _ _ _ Hf), accumulate_snoc, Hadd, <- Hsum. done.
    + assert (u < dsub sum_fit f)%Q as Hlt'.
      { apply Qnot_le_lt. intros Hle. apply Qle_bool_iff in Hle. congruence. }
      destruct (IH (dsub sum_fit f)) as (i & -> & Hi & Hslice); [lia|done|done|].
      exists i. split; [reflexivity|]. split; [lia|done].
Qed.

(** When the sums and differences of the fitnesses are exact and the number
    drawn lies in [0, sum), roulette selection answers with the index whose
    slice of the wheel holds that number: the fitnesses before it add up to
    at most the number, and with its own to more.  A specimen whose fitness
    is not positive is never chosen. *)
Theorem roulette_selection_slice (fitnesses : list Q) (w : W) :
  (∀ x y, dadd x y == x + y)%Q →
  (∀ x y, dsub x y == x - y)%Q →
  size fitnesses < 2 ^ 31 →
  let sum_fit := accumulate dadd fitnesses in
  let u := (uniform_real_distribution 0 sum_fit w).1 in
  (0 <= u)%Q → (u < sum_fit)%Q →
  ∃ (i : nat) (f : Q),
    roulette_selection uniform_real_distribution dadd dsub fitnesses w
      = Some (Z.of_nat i, (uniform_real_distribution 0 sum_fit w).2) ∧
    fitnesses !! i = Some f ∧
    (accumulate dadd (take i fitnesses) <= u)%Q ∧
    (u < accumulate dadd (take (S i) fitnesses))%Q ∧
    (0 < f)%Q.
Proof.
  intros Hadd Hsub Hsz sum_fit u Hu Hlt.
  unfold roulette_selection, mbind, M_bind, draw_real_between, lift.
  fold sum_fit. rewrite (roulette_start _ Hsz).
  assert (0 <= sum_fit)%Q as Hpos.
  { apply Qlt_le_weak. eapply Qle_lt_trans; eassumption. }
  apply Qle_bool_iff in Hpos. rewrite Hpos. subst u.
  destruct (uniform_real_distribution 0 sum_fit w) as [u w']. simpl in *.
  destruct (roulette_walk_slice fitnesses u Hadd Hsub Hu
              (length fitnesses) sum_fit) as (i & -> & Hi & Hlo & Hhi);
    [lia| |done|].
  { rewrite firstn_all. reflexivity. }
  destruct (lookup_lt_is_Some_2 fitnesses i) as [f Hf]; [lia|].
  exists i, f. split; [reflexivity|]. split; [done|].
  split; [done|]. split; [done|].
  rewrite (take_S_r _ _ _ Hf), accumulate_snoc, Hadd in Hhi.
  apply Qnot_le_lt. intros Hle.
  apply (Qlt_not_le _ _ Hhi).
  apply Qle_trans with (accumulate dadd (take i fitnesses)); [|done].
  rewrite <- (Qplus_0_r (accumulate dadd (take i fitnesses))) at 2.
  apply Qplus_le_r. done.
Qed.

Lemma with_index_from_elem (fitnesses : list Q) (i0 : Z) (f : Q) (j : Z) :
  (f, j) ∈ with_index_from i0 fitnesses →
  i0 ≤ j < i0 + size fitnesses ∧ fitnesses !! Z.to_nat (j - i0) = Some f.
Proof.
  unfold size. revert i0. induction fitnesses as [|g rest IH]; intros i0 Hin.
  - by apply elem_of_nil in Hin.
  - simpl in Hin. apply elem_of_cons in Hin as [Heq|Hin].
    + inversion Heq; subst. simpl length. split; [lia|].
      by replace (i0 - i0) with 0 by lia.
    + destruct (IH _ Hin) as [Hr Hl]. simpl length. split; [lia|].
      replace (Z.to_nat (j - i0)) with (S (Z.to_nat (j - (i0 + 1)))) by lia.
      done.
Qed.

Lemma with_index_from_length (fitnesses : list Q) (i0 : Z) :
  length (with_index_from i0 fitnesses) = length fitnesses.
Proof.
  revert i0. induction fitnesses as [|g rest IH]; intros i0; [done|].
  simpl. by rewrite IH.
Qed.

Lemma rank_weights_length (k : nat) : length (rank_weights k) = k.
Proof. unfold rank_weights. by rewrite length_fmap, length_seq. Qed.

Lemma rank_selection_spec
    (sort : list (Q * Z) → list (Q * Z)) (fitnesses : list Q) (w : W) :
  (∀ l, sort l ≡ₚ l) →
  size fitnesses < 2 ^ 31 →
  (0 <= accumulate dadd (rank_weights (length fitnesses)))%Q →
  fitnesses ≠ [] →
  ∃ idx j f w',
    roulette_selection uniform_real_distribution dadd dsub
      (rank_weights (length fitnesses)) w = Some (idx, w') ∧
    rank_selection uniform_real_distribution dadd dsub sort fitnesses w
      = Some (j, w') ∧
    0 ≤ idx < size fitnesses ∧
    vec_get (sort (with_index_from 0 fitnesses)) idx = Some (f, j) ∧
    0 ≤ j < size fitnesses ∧
    vec_get fitnesses j = Some f.
Proof.
  intros Hsort Hsz Hsum Hne.
  assert (size (rank_weights (length fitnesses)) < 2 ^ 31) as Hsz'.
  { unfold size in *. by rewrite rank_weights_length. }
  destruct (roulette_selection_defined (rank_weights (length fitnesses)) w
              Hsz' Hsum) as (idx & Hroul & Hidx0 & _ & Hne').
  unfold rank_selection, mbind, M_bind, lift, mret, M_ret. rewrite Hroul.
  assert (idx < size fitnesses) as Hidx.
  { unfold size in *. rewrite rank_weights_length in Hne'. apply Hne'.
    destruct fitnesses; [done|]. unfold rank_weights. simpl. done. }
  destruct (lookup_lt_is_Some_2 (sort (with_index_from 0 fitnesses))
              (Z.to_nat idx)) as [[f j] Hchosen].
  { rewrite (Permutation_length (Hsort _)), with_index_from_length.
    unfold size in Hidx. lia. }
  assert ((f, j) ∈ with_index_from 0 fitnesses) as Hin.
  { rewrite <- (Hsort (with_index_from 0 fitnesses)).
    by eapply list_elem_of_lookup_2. }
  apply with_index_from_elem in Hin as [Hj Hf].
  replace (j - 0) with j in Hf by lia.
  exists idx, j, f, (uniform_real_distribution 0
    (accumulate dadd (rank_weights (length fitnesses))) w).2.
  unfold vec_get. destruct (decide (0 ≤ idx)) as [_|?]; [|lia].
  rewrite Hchosen. simpl.
  destruct (decide (0 ≤ j)) as [_|?]; [|lia].
  repeat split; try done; lia.
Qed.

(** Rank selection is undefined on an empty fitness vector, where the rank
    drawn is 0 and the sorted vector has no element to read.  On any other,
    whenever the sum of the ranks is not negative and whatever order the
    sort gives to equal fitnesses, it answers with an index of the fitness
    vector: that of the pair the sort has put at the rank drawn. *)
Theorem rank_selection_in_range
    (sort : list (Q * Z) → list (Q * Z)) (fitnesses : list Q) (w : W) :
  (∀ l, sort l ≡ₚ l) →
  size fitnesses < 2 ^ 31 →
  (0 <= accumulate dadd (rank_weights (length fitnesses)))%Q →
  (fitnesses = [] →
   rank_selection uniform_real_distribution dadd dsub sort fitnesses w
     = None) ∧
  (fitnesses ≠ [] →
   ∃ idx j f w',
     roulette_selection uniform_real_distribution dadd dsub
       (rank_weights (length fitnesses)) w = Some (idx, w') ∧
     rank_selection uniform_real_distribution dadd dsub sort fitnesses w
       = Some (j, w') ∧
     0 ≤ idx < size fitnesses ∧
     vec_get (sort (with_index_from 0 fitnesses)) idx = Some (f, j) ∧
     0 ≤ j < size fitnesses ∧
     vec_get fitnesses j = Some f).
Proof.
  intros Hsort Hsz Hsum. split; [|by apply rank_selection_spec].
  intros ->.
  destruct (roulette_selection_defined (rank_weights 0) w ltac:(done) Hsum)
    as (idx & Hroul & _ & Hempty & _).
  unfold rank_selection, mbind, M_bind, lift, mret, M_ret.
  simpl length. rewrite Hroul, (Hempty eq_refl).
  pose proof (Hsort []) as Hp. apply Permutation_nil_r in Hp.
  simpl with_index_from. rewrite Hp. reflexivity.
Qed.

Lemma insert_pair_perm (x : Q * Z) (l : list (Q * Z)) :
  insert_pair x l ≡ₚ x :: l.
Proof.
  induction l as [|y l IH]; [done|]. simpl.
  destruct (Qltb y.1 x.1); [|done].
  rewrite IH. apply perm_swap.
Qed.

Lemma sort_pairs_perm (l : list (Q * Z)) : sort_pairs l ≡ₚ l.
Proof.
  induction l as [|x l IH]; [done|]. unfold sort_pairs in *. simpl.
  by rewrite insert_pair_perm, IH.
Qed.

End SelectionFacts.

Definition alternating_draw (lo hi : Z) (w : nat) : Z * nat :=
  (if Nat.even w then lo else hi, S w).

Lemma alternating_draw_in_range : draws_in_range alternating_draw.
Proof.
  intros lo hi w H. unfold alternating_draw. simpl.
  destruct (Nat.even w); lia.
Qed.

Lemma tournament_selection_picks_fitter_witness :
  ∃ idx : Z,
    tournament_selection alternating_draw [3 # 1; 1 # 1; 2 # 1] 0%nat
      = Some (idx, 2%nat) ∧
    0 ≤ idx < 3.
Proof.
  destruct (tournament_selection_picks_fitter alternating_draw
              alternating_draw_in_range [3 # 1; 1 # 1; 2 # 1] 0%nat)
    as (_ & Hdef & _).
  destruct (Hdef ltac:(done)) as (idx & f1 & f2 & fi & Heq & Hr & _).
  exists idx. split; [exact Heq | exact Hr].
Defined.

Definition midpoint_draw (lo hi : Q) (w : nat) : Q * nat :=
  ((lo + hi) / 2, S w)%Q.

Lemma roulette_selection_in_range_witness :
  ∃ i : Z,
    roulette_selection midpoint_draw Qplus Qminus [1 # 1; 2 # 1; 3 # 1] 0%nat
      = Some (i, 1%nat) ∧ 0 ≤ i.
Proof.
  destruct (roulette_selection_in_range midpoint_draw Qplus Qminus
              [1 # 1; 2 # 1; 3 # 1] 0%nat ltac:(by vm_compute)) as [_ Hdef].
  destruct (Hdef ltac:(by vm_compute)) as (i & Heq & Hi & _).
  exists i. split; [exact Heq | exact Hi].
Defined.

Lemma roulette_selection_slice_witness :
  ∃ (i : nat) (f : Q),
    roulette_selection midpoint_draw Qplus Qminus [1 # 1; 2 # 1; 3 # 1] 0%nat
      = Some (Z.of_nat i, 1%nat) ∧
    [1 # 1; 2 # 1; 3 # 1] !! i = Some f ∧ (0 < f)%Q.
Proof.
  destruct (roulette_selection_slice midpoint_draw Qplus Qminus
              [1 # 1; 2 # 1; 3 # 1] 0%nat
              (λ x y, Qeq_refl _) (λ x y, Qeq_refl _)
              ltac:(by vm_compute) ltac:(by vm_compute) ltac:(by vm_compute))
    as (i & f & Heq & Hf & _ & _ & Hpos).
  exists i, f. split; [exact Heq|]. split; [exact Hf | exact Hpos].
Defined.

Lemma rank_selection_in_range_witness :
  ∃ j : Z,
    rank_selection midpoint_draw Qplus Qminus sort_pairs
      [5 # 1; 1 # 1; 3 # 1] 0%nat = Some (j, 1%nat) ∧
    0 ≤ j < 3.
Proof.
  destruct (rank_selection_in_range midpoint_draw Qplus Qminus sort_pairs
              [5 # 1; 1 # 1; 3 # 1] 0%nat sort_pairs_perm
              ltac:(by vm_compute) ltac:(by vm_compute)) as [_ Hdef].
  destruct (Hdef ltac:(done)) as (idx & j & f & w' & Hroul & Heq & _ & _ & Hj & _).
  exists j. split; [|exact Hj].
  rewrite Heq. f_equal. f_equal.
  vm_compute in Hroul. by inversion Hroul.
Defined.

End Selection.

(** ** Variation: what the crossovers and the mutation do to the genes *)

Module Variation.

Lemma lookup_window (a b : alternative_solution_t) (lo hi j : nat) :
  (lo ≤ hi ≤ length a)%nat → length b = length a →
  (take lo a ++ take (hi - lo) (drop lo b) ++ drop hi a) !! j
    = (if decide (lo ≤ j < hi)%nat then b !! j else a !! j).
Proof.
  intros Hr Hlen.
  assert (length (take lo a) = lo) as Hl1 by (rewrite length_take; lia).
  assert (length (take (hi - lo) (drop lo b)) = (hi - lo)%nat) as Hl2
    by (rewrite length_take, length_drop; lia).
  destruct (decide (j < lo)%nat) as [Hj|Hj].
  - rewrite lookup_app_l by lia. rewrite lookup_take_lt by lia.
    destruct (decide _); [lia|done].
  - rewrite lookup_app_r by lia. rewrite Hl1.
    destruct (decide (j < hi)%nat) as [Hj'|Hj'].
    + rewrite lookup_app_l by lia. rewrite lookup_take_lt by lia.
      rewrite lookup_drop. destruct (decide _); [|lia].
      f_equal. lia.
    + rewrite lookup_app_r by lia. rewrite Hl2, lookup_drop.
      destruct (decide _); [lia|]. f_equal. lia.
Qed.

Lemma swap_genes_short (k : nat) :
  ∀ (i : nat) (a b new_a new_b : alternative_solution_t),
    (0 < k)%nat → (length b < i + k)%nat →
    swap_genes k (Z.of_nat i) a b new_a new_b = None.
Proof.
  induction k as [|k IH]; intros i a b new_a new_b Hk Hlen; simpl.
  - lia.
  - destruct (decide (length b ≤ i)%nat) as [Hi|Hi].
    + rewrite (vec_get_nat b), (lookup_ge_None_2 b) by lia. done.
    + destruct (vec_get b (Z.of_nat i)) as [bi|]; [simpl|done].
      destruct (vec_set new_a (Z.of_nat i) bi) as [na|]; [simpl|done].
      destruct (vec_get a (Z.of_nat i)) as [ai|]; [simpl|done].
      destruct (vec_set new_b (Z.of_nat i) ai) as [nb|]; [simpl|done].
      replace (Z.of_nat i + 1) with (Z.of_nat (S i)) by lia.
      apply IH; lia.
Qed.

Section VariationFacts.

Context {W : Type}.
Variable uniform_int_distribution : Z → Z → W → Z * W.
Variable uniform_real_distribution : Q → Q → W → Q * W.

Hypothesis in_range : draws_in_range uniform_int_distribution.

Lemma crossover_one_point_list_form (a b : alternative_solution_t) (w : W) :
  let d := uniform_int_distribution 0 (size a - 1) w in
  let cut := Z.to_nat d.1 in
  a ≠ [] → length b = length a →
  crossover_one_point uniform_int_distribution a b w
    = Some ((take cut a ++ drop cut b, take cut b ++ drop cut a), d.2).
Proof.
  intros d cut Hne Hlen. subst cut d.
  assert (0 ≤ size a - 1) as Hsz.
  { unfold size. destruct a; [done|]. simpl. lia. }
  pose proof (in_range 0 (size a - 1) w Hsz) as Hd.
  destruct (crossover_one_point_spec uniform_int_distribution a b w)
    as (a' & b' & Heq & Hla & Hlb & Hlook); [done|lia|].
  rewrite Heq. do 3 f_equal.
  - apply list_eq. intros j. destruct (Hlook j) as [-> _].
    unfold size in *.
    destruct (decide _).
    + rewrite lookup_app_l by (rewrite length_take; lia).
      by rewrite lookup_take_lt by lia.
    + rewrite lookup_app_r by (rewrite length_take; lia).
      rewrite length_take, lookup_drop. f_equal. lia.
  - apply list_eq. intros j. destruct (Hlook j) as [_ ->].
    unfold size in *.
    destruct (decide _).
    + rewrite lookup_app_l by (rewrite length_take; lia).
      by rewrite lookup_take_lt by lia.
    + rewrite lookup_app_r by (rewrite length_take; lia).
      rewrite length_take, lookup_drop. f_equal. lia.
Qed.

(** One-point crossover is undefined for an empty first parent and for a
    second parent shorter than the first; for parents of one length the
    first child is the first parent up to the cut followed by the second
    parent from the cut on, and the second child the other way round. *)
Theorem crossover_one_point_splices (a b : alternative_solution_t) (w : W) :
  let d := uniform_int_distribution 0 (size a - 1) w in
  let cut := Z.to_nat d.1 in
  (a = [] → crossover_one_point uniform_int_distribution a b w = None) ∧
  (a ≠ [] → (length b < length a)%nat →
   crossover_one_point uniform_int_distribution a b w = None) ∧
  (a ≠ [] → length b = length a →
   crossover_one_point uniform_int_distribution a b w
     = Some ((take cut a ++ drop cut b, take cut b ++ drop cut a), d.2)).
Proof.
  intros d cut. split; [|split].
  - intros ->. reflexivity.
  - intros Hne Hshort. subst cut d.
    assert (0 ≤ size a - 1) as Hsz.
    { unfold size. destruct a; [done|]. simpl. lia. }
    pose proof (in_range 0 (size a - 1) w Hsz) as Hd.
    unfold crossover_one_point, mbind, M_bind, draw_int, lift.
    destruct (decide _) as [_|?]; [|lia].
    destruct (uniform_int_distribution 0 (size a - 1) w) as [cp w'].
    simpl in *. unfold size in *.
    replace cp with (Z.of_nat (Z.to_nat cp)) at 2 by lia.
    rewrite swap_genes_short; [done|lia|lia].
  - apply crossover_one_point_list_form.
Qed.

(** Crossing the two children of a one-point crossover again at the same
    cut gives the parents back. *)
Theorem crossover_one_point_twice (a b a' b' : alternative_solution_t)
    (w w' : W) :
  a ≠ [] → length b = length a →
  crossover_one_point uniform_int_distribution a b w = Some ((a', b'), w') →
  (uniform_int_distribution 0 (size a' - 1) w').1
    = (uniform_int_distribution 0 (size a - 1) w).1 →
  crossover_one_point uniform_int_distribution a' b' w'
    = Some ((a, b), (uniform_int_distribution 0 (size a' - 1) w').2).
Proof.
  intros Hne Hlen Hfirst Hsame.
  assert (0 ≤ size a - 1) as Hsz.
  { unfold size. destruct a; [done|]. simpl. lia. }
  pose proof (in_range 0 (size a - 1) w Hsz) as Hd.
  rewrite (crossover_one_point_list_form a b w Hne Hlen) in Hfirst.
  set (cut := Z.to_nat (uniform_int_distribution 0 (size a - 1) w).1) in *.
  assert (cut < length a)%nat as Hcut by (unfold size in *; lia).
  injection Hfirst as <- <- <-.
  assert (length (take cut a ++ drop cut b) = length a) as Hla.
  { rewrite length_app, length_take, length_drop. lia. }
  assert (length (take cut b ++ drop cut a) = length a) as Hlb.
  { rewrite length_app, length_take, length_drop. lia. }
  rewrite (crossover_one_point_list_form
             (take cut a ++ drop cut b) (take cut b ++ drop cut a)
             (uniform_int_distribution 0 (size a - 1) w).2); [|by intros E; rewrite E in Hla; destruct a|congruence].
  rewrite Hsame. fold cut.
  rewrite !take_app_length' by (rewrite length_take; lia).
  rewrite !drop_app_length' by (rewrite length_take; lia).
  by rewrite !take_drop.
Qed.

(** Two-point crossover exchanges the genes from the smaller cut up to, but
    not including, the larger one and nothing else; since no cut exceeds the
    last index, the last gene of each parent stays with its child. *)
Theorem crossover_two_point_window (a b : alternative_solution_t) (w : W) :
  a ≠ [] → length b = length a →
  let d1 := uniform_int_distribution 0 (size a - 1) w in
  let d2 := uniform_int_distribution 0 (size a - 1) d1.2 in
  let lo := Z.to_nat (Z.min d1.1 d2.1) in
  let hi := Z.to_nat (Z.max d1.1 d2.1) in
  crossover_two_point uniform_int_distribution a b w
    = Some ((take lo a ++ take (hi - lo) (drop lo b) ++ drop hi a,
             take lo b ++ take (hi - lo) (drop lo a) ++ drop hi b), d2.2) ∧
  back (take lo a ++ take (hi - lo) (drop lo b) ++ drop hi a) = back a ∧
  back (take lo b ++ take (hi - lo) (drop lo a) ++ drop hi b) = back b.
Proof.
  intros Hne Hlen d1 d2 lo hi.
  assert (0 ≤ size a - 1) as Hsz.
  { unfold size. destruct a; [done|]. simpl. lia. }
  pose proof (in_range 0 (size a - 1) w Hsz) as Hd1.
  pose proof (in_range 0 (size a - 1)
                (uniform_int_distribution 0 (size a - 1) w).2 Hsz) as Hd2.
  pose proof (crossover_two_point_spec uniform_int_distribution a b w) as Hspec.
  subst lo hi d2 d1. cbv zeta in Hspec.
  destruct (uniform_int_distribution 0 (size a - 1) w) as [c1 w1].
  simpl in *.
  destruct (uniform_int_distribution 0 (size a - 1) w1) as [c2 w2].
  simpl in *.
  set (lo := Z.to_nat (Z.min c1 c2)). set (hi := Z.to_nat (Z.max c1 c2)).
  assert (lo ≤ hi ∧ hi < length a)%nat as [Hlohi Hhi].
  { subst lo hi. unfold size in *. lia. }
  assert (∀ x y : alternative_solution_t,
            length x = length a → length y = length a →
            length (take lo x ++ take (hi - lo) (drop lo y) ++ drop hi x)
              = length a) as Hlength.
  { intros x y Hx Hy.
    rewrite !length_app, !length_take, !length_drop. lia. }
  split; [|split].
  - destruct Hspec as (a' & b' & Heq & Hla & Hlb & Hlook); [done|lia|lia|].
    rewrite Heq. do 3 f_equal.
    + apply list_eq. intros j. destruct (Hlook j) as [-> _].
      rewrite lookup_window by (try done; lia).
      subst lo hi. repeat destruct (decide _); try done; lia.
    + apply list_eq. intros j. destruct (Hlook j) as [_ ->].
      rewrite lookup_window by (try done; lia).
      subst lo hi. repeat destruct (decide _); try done; lia.
  - unfold back. rewrite !last_lookup, Hlength by done.
    rewrite lookup_window by (try done; lia).
    destruct (decide _); [lia|done].
  - unfold back. rewrite !last_lookup, Hlength by done.
    rewrite Hlen. rewrite lookup_window by (try done; lia).
    destruct (decide _); [lia|done].
Qed.

(** The mutation, when the number drawn is below the mutation probability
    and the vector has at least two genes, rewrites exactly one position,
    never the last, with a value within that position's bound; when the
    number drawn is not below the probability it returns its argument after
    the single real draw; on a vector of fewer than two genes the first case
    is undefined. *)
Theorem mutation_changes_one_gene
    (a : alternative_solution_t) (mutation_probability : Q) (w : W) :
  let du := uniform_real_distribution 0%Q 1%Q w in
  let dp := uniform_int_distribution 0 (size a - 2) du.2 in
  let dv := uniform_int_distribution 0 ((size a - 1) - dp.1) dp.2 in
  (¬ (du.1 < mutation_probability)%Q →
   mutation_change_one_city_descending uniform_int_distribution
     uniform_real_distribution a mutation_probability w = Some (a, du.2)) ∧
  ((du.1 < mutation_probability)%Q → (length a < 2)%nat →
   mutation_change_one_city_descending uniform_int_distribution
     uniform_real_distribution a mutation_probability w = None) ∧
  ((du.1 < mutation_probability)%Q → (2 ≤ length a)%nat →
   mutation_change_one_city_descending uniform_int_distribution
     uniform_real_distribution a mutation_probability w
     = Some (<[Z.to_nat dp.1 := dv.1]> a, dv.2) ∧
   (Z.to_nat dp.1 < length a - 1)%nat ∧
   0 ≤ dv.1 < size a - dp.1 ∧
   back (<[Z.to_nat dp.1 := dv.1]> a) = back a).
Proof.
  intros du dp dv. subst dv dp du.
  unfold mutation_change_one_city_descending, mbind, M_bind, draw_real,
    draw_int, lift, mret, M_ret, vec_set.
  destruct (uniform_real_distribution 0%Q 1%Q w) as [u w1]. simpl.
  split; [|split].
  - intros Hbelow. destruct (Qltb u mutation_probability) eqn:E; [|done].
    apply Qltb_lt in E. done.
  - intros Hbelow Hlen. destruct (Qltb u mutation_probability) eqn:E.
    + unfold size. destruct (decide _); [lia|done].
    + apply Qltb_ge in E. destruct (Qlt_not_le _ _ Hbelow E).
  - intros Hbelow Hlen. destruct (Qltb u mutation_probability) eqn:E.
    2:{ apply Qltb_ge in E. destruct (Qlt_not_le _ _ Hbelow E). }
    unfold size in *.
    destruct (decide (0 ≤ Z.of_nat (length a) - 2)) as [Hn|?]; [|lia].
    pose proof (in_range 0 (Z.of_nat (length a) - 2) w1 Hn) as Hmp.
    destruct (uniform_int_distribution 0 (Z.of_nat (length a) - 2) w1)
      as [mp w2]. simpl in *.
    destruct (decide (0 ≤ Z.of_nat (length a) - 1 - mp)) as [Hv|?]; [|lia].
    pose proof (in_range 0 (Z.of_nat (length a) - 1 - mp) w2 Hv) as Hvr.
    destruct (uniform_int_distribution 0 (Z.of_nat (length a) - 1 - mp) w2)
      as [v w3]. simpl in *.
    destruct (decide _) as [_|?]; [|lia].
    split; [done|]. split; [lia|]. split; [lia|].
    unfold back. rewrite !last_lookup, length_insert.
    rewrite list_lookup_insert_ne by lia. done.
Qed.

End VariationFacts.

Lemma crossover_one_point_splices_witness :
  crossover_one_point Selection.alternating_draw [2; 1; 0] [0; 0; 0] 1%nat
    = Some (([2; 1; 0], [0; 0; 0]), 2%nat).
Proof.
  destruct (crossover_one_point_splices Selection.alternating_draw
              Selection.alternating_draw_in_range [2; 1; 0] [0; 0; 0] 1%nat)
    as (_ & _ & H).
  exact (H ltac:(done) eq_refl).
Defined.

Definition middle_draw (lo hi : Z) (w : nat) : Z * nat :=
  ((lo + hi) / 2, S w).

Lemma middle_draw_in_range : draws_in_range middle_draw.
Proof.
  intros lo hi w H. unfold middle_draw. simpl.
  split; [apply Z.div_le_lower_bound | apply Z.div_le_upper_bound]; lia.
Qed.

Lemma crossover_one_point_twice_witness :
  crossover_one_point middle_draw [2; 0; 0] [0; 1; 0] 1%nat
    = Some (([2; 1; 0], [0; 0; 0]), 2%nat).
Proof.
  exact (crossover_one_point_twice middle_draw middle_draw_in_range
           [2; 1; 0] [0; 0; 0] [2; 0; 0] [0; 1; 0] 0%nat 1%nat
           ltac:(done) eq_refl eq_refl eq_refl).
Defined.

Lemma crossover_two_point_window_witness :
  crossover_two_point Selection.alternating_draw [2; 1; 0] [0; 0; 0] 0%nat
    = Some (([0; 0; 0], [2; 1; 0]), 2%nat) ∧
  back [0; 0; 0] = back [2; 1; 0].
Proof.
  destruct (crossover_two_point_window Selection.alternating_draw
              Selection.alternating_draw_in_range [2; 1; 0] [0; 0; 0] 0%nat
              ltac:(done) eq_refl) as (H1 & H2 & _).
  split; [exact H1 | exact H2].
Defined.

Lemma mutation_changes_one_gene_witness :
  mutation_change_one_city_descending Selection.alternating_draw
    Selection.midpoint_draw [2; 1; 0] (3 # 4) 0%nat
    = Some ([2; 0; 0], 3%nat).
Proof.
  destruct (mutation_changes_one_gene Selection.alternating_draw
              Selection.midpoint_draw Selection.alternating_draw_in_range
              [2; 1; 0] (3 # 4) 0%nat) as (_ & _ & H).
  destruct (H ltac:(by vm_compute) ltac:(simpl; lia)) as [Heq _].
  exact Heq.
Defined.

End Variation.

(** ** Factories: the operators chosen by name *)

Module Factories.

Import Stdlib.Strings.String.
Import Selection.

Section Factories.

Context {W : Type}.
Variable uniform_int_distribution : Z → Z → W → Z * W.
Variable uniform_real_distribution : Q → Q → W → Q * W.
Variable dadd : Q → Q → Q.
Variable dsub : Q → Q → Q.
Variable sort : list (Q * Z) → list (Q * Z).

(** A factory returns the lines it writes to [std::cerr] and the closure.
    The [example_solution] argument only fixes the closure's type. *)
Definition mutation_factory (mutation_name : string) (mutation_probability : Q)
    : list string * (alternative_solution_t → M W alternative_solution_t) :=
  let default_mutation := λ a : alternative_solution_t,
    mutation_change_one_city_descending uniform_int_distribution
      uniform_real_distribution a mutation_probability in
  if (mutation_name =? "mutation_change_one_city_descending")%string then
    ([], default_mutation)
  else
    (["[WW] falling back to default mutation: mutation_change_one_city_descending"%string],
     default_mutation).

Definition crossover_factory (crossover_name : string)
    (crossover_probability : Q)
    : list string *
      (alternative_solution_t → alternative_solution_t →
       M W (alternative_solution_t * alternative_solution_t)) :=
  let default_crossover := λ a b : alternative_solution_t,
    u ← draw_real uniform_real_distribution 0 1;
    if Qltb u crossover_probability then
      crossover_one_point uniform_int_distribution a b
    else mret (a, b) in
  if (crossover_name =? "crossover_one_point")%string then
    ([], default_crossover)
  else if (crossover_name =? "crossover_two_point")%string then
    ([], λ a b : alternative_solution_t,
       u ← draw_real uniform_real_distribution 0 1;
       if Qltb u crossover_probability then
         crossover_two_point uniform_int_distribution a b
       else mret (a, b))
  else
    (["[WW] falling back to default crossover: crossover_one_point"%string],
     default_crossover).

Definition selection_factory (selection_name : string) : list Q → M W Z :=
  if (selection_name =? "tournament_selection")%string then
    tournament_selection uniform_int_distribution
  else if (selection_name =? "roulette_selection")%string then
    roulette_selection uniform_real_distribution dadd dsub
  else if (selection_name =? "rank_selection")%string then
    rank_selection uniform_real_distribution dadd dsub sort
  else tournament_selection uniform_int_distribution.

End Factories.

Section FactoryFacts.

Context {W : Type}.
Variable uniform_int_distribution : Z → Z → W → Z * W.
Variable uniform_real_distribution : Q → Q → W → Q * W.
Variable dadd : Q → Q → Q.
Variable dsub : Q → Q → Q.
Variable sort : list (Q * Z) → list (Q * Z).

Hypothesis in_range : draws_in_range uniform_int_distribution.

(** Whatever name it is given, the crossover factory returns a closure that
    hands back the parents untouched when the number drawn is not below the
    crossover probability, and that turns two well-formed parents of at
    least one gene into two well-formed children.  The factory warns exactly
    when the name is neither of the two it knows, and then returns the
    one-point closure. *)
Theorem crossover_factory_closure
    (crossover_name : string) (crossover_probability : Q) :
  let made := crossover_factory uniform_int_distribution
                uniform_real_distribution crossover_name
                crossover_probability in
  (made.1 = [] ↔
   crossover_name = "crossover_one_point"%string ∨
   crossover_name = "crossover_two_point"%string) ∧
  (crossover_name ≠ "crossover_two_point"%string →
   made.2 = (crossover_factory uniform_int_distribution
               uniform_real_distribution "crossover_one_point"
               crossover_probability).2) ∧
  (∀ (a b : alternative_solution_t) (w : W),
     ¬ ((uniform_real_distribution 0%Q 1%Q w).1 < crossover_probability)%Q →
     made.2 a b w = Some ((a, b), (uniform_real_distribution 0%Q 1%Q w).2)) ∧
  (∀ (n : nat) (a b : alternative_solution_t) (w : W),
     (1 ≤ n)%nat → well_formed n a → well_formed n b →
     ∃ a' b' w',
       made.2 a b w = Some ((a', b'), w') ∧
       well_formed n a' ∧ well_formed n b').
Proof.
  intros made.
  assert (∀ (cross : alternative_solution_t → alternative_solution_t →
                     M W (alternative_solution_t * alternative_solution_t)),
            (∀ n a b w, (1 ≤ n)%nat → well_formed n a → well_formed n b →
               ∃ a' b' w', cross a b w = Some ((a', b'), w') ∧
                           well_formed n a' ∧ well_formed n b') →
            let guarded := λ a b : alternative_solution_t,
              u ← draw_real uniform_real_distribution 0 1;
              if Qltb u crossover_probability then cross a b
              else mret (a, b) in
            (∀ a b w,
               ¬ ((uniform_real_distribution 0%Q 1%Q w).1
                    < crossover_probability)%Q →
               guarded a b w
                 = Some ((a, b), (uniform_real_distribution 0%Q 1%Q w).2)) ∧
            (∀ n a b w, (1 ≤ n)%nat → well_formed n a → well_formed n b →
               ∃ a' b' w', guarded a b w = Some ((a', b'), w') ∧
                           well_formed n a' ∧ well_formed n b')) as Hguarded.
  { intros cross Hcross guarded. subst guarded. split.
    - intros a b w Hbelow. unfold mbind, M_bind, draw_real, mret, M_ret.
      destruct (uniform_real_distribution 0%Q 1%Q w) as [u w1]. simpl in *.
      destruct (Qltb u crossover_probability) eqn:E; [|done].
      apply Qltb_lt in E. done.
    - intros n a b w Hn Ha Hb. unfold mbind, M_bind, draw_real, mret, M_ret.
      destruct (uniform_real_distribution 0%Q 1%Q w) as [u w1].
      destruct (Qltb u crossover_probability); [by apply Hcross|].
      by exists a, b, w1. }
  assert (∀ n a b w, (1 ≤ n)%nat → well_formed n a → well_formed n b →
            ∃ a' b' w',
              crossover_one_point uniform_int_distribution a b w
                = Some ((a', b'), w') ∧
              well_formed n a' ∧ well_formed n b') as Hone.
  { intros n a b w Hn Ha Hb.
    destruct (crossover_one_point_well_formed uniform_int_distribution
                n a b w in_range Ha Hb) as [Hwf Hdef].
    destruct (Hdef Hn) as [[[a' b'] w'] Heq].
    exists a', b', w'. split; [done|]. by eapply Hwf. }
  assert (∀ n a b w, (1 ≤ n)%nat → well_formed n a → well_formed n b →
            ∃ a' b' w',
              crossover_two_point uniform_int_distribution a b w
                = Some ((a', b'), w') ∧
              well_formed n a' ∧ well_formed n b') as Htwo.
  { intros n a b w Hn Ha Hb.
    destruct (crossover_two_point_well_formed uniform_int_distribution
                n a b w in_range Ha Hb) as [Hwf Hdef].
    destruct (Hdef Hn) as [[[a' b'] w'] Heq].
    exists a', b', w'. split; [done|]. by eapply Hwf. }
  destruct (Hguarded _ Hone) as [Hshut1 Hwf1].
  destruct (Hguarded _ Htwo) as [Hshut2 Hwf2].
  subst made. unfold crossover_factory.
  destruct (crossover_name =? "crossover_one_point")%string eqn:E1.
  { apply String.eqb_eq in E1. subst. simpl.
    split; [split; [by left|done]|]. split; [done|]. split; done. }
  destruct (crossover_name =? "crossover_two_point")%string eqn:E2.
  { apply String.eqb_eq in E2. subst. simpl.
    split; [split; [by right|done]|]. split; [done|]. split; done. }
  apply String.eqb_neq in E1, E2. simpl.
  split; [split; [done|by intros [?|?]]|]. split; [done|]. split; done.
Qed.

(** The mutation factory returns the same closure for every name, and warns
    exactly when the name is not the one it knows.  The closure keeps a
    well-formed vector well-formed and is defined from two genes on. *)
Theorem mutation_factory_closure
    (mutation_name : string) (mutation_probability : Q) :
  let made := mutation_factory uniform_int_distribution
                uniform_real_distribution mutation_name
                mutation_probability in
  (made.1 = [] ↔
   mutation_name = "mutation_change_one_city_descending"%string) ∧
  made.2 = (mutation_factory uniform_int_distribution
              uniform_real_distribution "mutation_change_one_city_descending"
              mutation_probability).2 ∧
  (∀ (n : nat) (a : alternative_solution_t) (w : W),
     (2 ≤ n)%nat → well_formed n a →
     ∃ a' w', made.2 a w = Some (a', w') ∧ well_formed n a').
Proof.
  intros made.
  assert (∀ (n : nat) (a : alternative_solution_t) (w : W),
            (2 ≤ n)%nat → well_formed n a →
            ∃ a' w',
              mutation_change_one_city_descending uniform_int_distribution
                uniform_real_distribution a mutation_probability w
                = Some (a', w') ∧ well_formed n a') as Hwf.
  { intros n a w Hn Ha.
    destruct (mutation_well_formed uniform_int_distribution
                uniform_real_distribution n a mutation_probability w
                in_range Ha) as [Hkeep Hdef].
    destruct (Hdef Hn) as [[a' w'] Heq].
    exists a', w'. split; [done|]. by eapply Hkeep. }
  subst made. unfold mutation_factory.
  destruct (mutation_name =? "mutation_change_one_city_descending")%string
    eqn:E; simpl.
  - apply String.eqb_eq in E. by subst.
  - apply String.eqb_neq in E. split; [by split|]. by split.
Qed.

(** The selection factory falls back to the tournament for a name it does
    not know.  Whatever the name, on a non-empty vector of fewer than 2^31
    fitnesses, with the rounded sum of the fitnesses and that of the
    ranks not negative and a sort that permutes its input, the selection it
    returns answers with an index of the vector. *)
Theorem selection_factory_in_range
    (selection_name : string) (fitnesses : list Q) (w : W) :
  (∀ l, sort l ≡ₚ l) →
  fitnesses ≠ [] → size fitnesses < 2 ^ 31 →
  (0 <= accumulate dadd fitnesses)%Q →
  (0 <= accumulate dadd (rank_weights (List.length fitnesses)))%Q →
  let chosen := selection_factory uniform_int_distribution
                  uniform_real_distribution dadd dsub sort selection_name in
  (selection_name ≠ "roulette_selection"%string →
   selection_name ≠ "rank_selection"%string →
   chosen = tournament_selection uniform_int_distribution) ∧
  ∃ idx w', chosen fitnesses w = Some (idx, w') ∧ 0 ≤ idx < size fitnesses.
Proof.
  intros Hsort Hne Hsz Hsum Hranks chosen.
  assert (∃ idx w',
            tournament_selection uniform_int_distribution fitnesses w
              = Some (idx, w') ∧ 0 ≤ idx < size fitnesses) as Htour.
  { by apply tournament_selection_defined. }
  subst chosen. unfold selection_factory.
  destruct (selection_name =? "tournament_selection")%string eqn:E1;
    [by split|].
  destruct (selection_name =? "roulette_selection")%string eqn:E2.
  { apply String.eqb_eq in E2. split; [done|].
    destruct (roulette_selection_defined uniform_real_distribution
                dadd dsub fitnesses w Hsz Hsum) as (idx & Heq & H0 & _ & Hlt).
    exists idx. eexists. split; [exact Heq|]. split; [done|by apply Hlt]. }
  destruct (selection_name =? "rank_selection")%string eqn:E3.
  { apply String.eqb_eq in E3. split; [done|].
    destruct (rank_selection_spec uniform_real_distribution dadd dsub
                sort fitnesses w Hsort Hsz Hranks Hne)
      as (? & j & ? & w' & _ & Heq & _ & _ & Hj & _).
    by exists j, w'. }
  by split.
Qed.

End FactoryFacts.

Lemma crossover_factory_closure_witness :
  (crossover_factory Variation.middle_draw midpoint_draw
     "crossover_uniform" (1 # 4)).1
  ≠ [].
Proof.
  destruct (crossover_factory_closure Variation.middle_draw midpoint_draw
              Variation.middle_draw_in_range "crossover_uniform" (1 # 4))
    as [Hwarn _].
  intros H. apply Hwarn in H. by destruct H.
Defined.

Lemma mutation_factory_closure_witness :
  ∃ a' w',
    (mutation_factory Variation.middle_draw midpoint_draw
       "mutation_swap" (3 # 4)).2 [2; 1; 0] 0%nat = Some (a', w') ∧
    well_formed 3 a'.
Proof.
  destruct (mutation_factory_closure Variation.middle_draw midpoint_draw
              Variation.middle_draw_in_range "mutation_swap" (3 # 4))
    as (_ & _ & Hwf).
  apply Hwf; [lia|]. by apply well_formed_check.
Defined.

Lemma selection_factory_in_range_witness :
  ∃ idx w',
    selection_factory alternating_draw midpoint_draw Qplus Qminus sort_pairs
      "rank_selection" [5 # 1; 1 # 1; 3 # 1] 0%nat = Some (idx, w') ∧
    0 ≤ idx < 3.
Proof.
  destruct (selection_factory_in_range alternating_draw midpoint_draw
              Qplus Qminus sort_pairs alternating_draw_in_range
              "rank_selection" [5 # 1; 1 # 1; 3 # 1] 0%nat sort_pairs_perm
              ltac:(done) ltac:(by vm_compute) ltac:(by vm_compute)
              ltac:(by vm_compute)) as [_ H].
  exact H.
Defined.

End Factories.

(** ** Search: the comparison of alternatives, the neighbourhood and the
    randomized climb *)

Module Search.

Import LocalSearch.

Section RandomClimb.

Context {W : Type}.
Variable get_solution : alternative_solution_t → solution_t.
Variable goal : solution_t → Q.

(** [solution.generate_random_neighbour(1, generator)], a member declared in
    salesman.hpp: a parameter here. *)
Variable generate_random_neighbour :
  alternative_solution_t → M W alternative_solution_t.

(** The loop of hillclimb, [k] rounds. *)
Fixpoint hillclimb_rounds (k : nat) (solution : alternative_solution_t)
    : M W alternative_solution_t :=
  match k with
  | O => mret solution
  | S k' =>
      new_solution ← generate_random_neighbour solution;
      if Qltb (alt_goal get_solution goal new_solution)
              (alt_goal get_solution goal solution)
      then hillclimb_rounds k' new_solution
      else hillclimb_rounds k' solution
  end.

(** [start] is the vector drawn by [alternative_solution_t::of]. *)
Definition hillclimb (start : alternative_solution_t) (iterations : Z)
    : M W solution_t :=
  solution ← hillclimb_rounds (Z.to_nat iterations) start;
  mret (get_solution solution).

End RandomClimb.

Lemma alt_eq_same_length (a : alternative_solution_t) :
  ∀ b, length a = length b → alt_eq a b = Some (bool_decide (a = b)).
Proof.
  unfold alt_eq. induction a as [|x a IH]; intros [|y b] Hlen;
    simpl in *; try done; try lia.
  destruct (decide (x ≠ y)) as [Hne|Hxy].
  - rewrite bool_decide_eq_false_2; [done|]. by intros [= ? ?].
  - apply dec_stable in Hxy. subst y. rewrite IH by lia.
    f_equal. apply bool_decide_ext. split; [by intros -> | by intros [= ->]].
Qed.

(** The comparison of two alternatives walks the first vector only: it is
    true exactly when the first is a prefix of the second, it throws exactly
    when the second is a proper prefix of the first, and it is equality on
    vectors of one length. *)
Theorem alt_eq_prefix (a b : alternative_solution_t) :
  (alt_eq a b = Some true ↔ a `prefix_of` b) ∧
  (alt_eq a b = None ↔ b `prefix_of` a ∧ (length b < length a)%nat) ∧
  (length a = length b → alt_eq a b = Some (bool_decide (a = b))).
Proof.
  unfold alt_eq. revert b. induction a as [|x a IH]; intros b; simpl.
  - split; [split; [intros _; apply prefix_nil | done]|].
    split; [split; [done | intros [_ H]; simpl in H; lia]|].
    intros Hlen. destruct b; [done|simpl in Hlen; lia].
  - destruct b as [|y b]; simpl.
    + split; [split; [done | intros H; by apply prefix_nil_not in H]|].
      split; [split; [intros _; split; [apply prefix_nil | lia] | done]|].
      done.
    + destruct (IH b) as (Htrue & Hnone & Heq).
      destruct (decide (x ≠ y)) as [Hne|Hxy].
      * split; [split; [done | intros H; by apply prefix_cons_inv_1 in H]|].
        split; [split; [done |]|].
        { intros [H _]. apply prefix_cons_inv_1 in H. by subst. }
        intros _. rewrite bool_decide_eq_false_2; [done|]. by intros [= ? ?].
      * apply dec_stable in Hxy. subst y.
        split; [rewrite Htrue; split;
                [apply prefix_cons | apply prefix_cons_inv_2]|].
        split.
        { rewrite Hnone. split.
          - intros [H1 H2]. split; [by apply prefix_cons | lia].
          - intros [H1 H2]. split; [by apply prefix_cons_inv_2 in H1 | lia]. }
        intros Hlen. rewrite Heq by lia.
        f_equal. apply bool_decide_ext. split; [by intros -> | by intros [= ->]].
Qed.

(** Every neighbour generated from a well-formed vector is again
    well-formed, and is the source with exactly one gene, never the last,
    given a different value: no vector is its own neighbour. *)
Theorem generate_neighbours_well_formed
    (n : nat) (a : alternative_solution_t) :
  well_formed n a → (1 ≤ n)%nat → Z.of_nat n < 2 ^ 31 →
  ∃ ns,
    generate_neighbours a = Some ns ∧
    ∀ s, s ∈ ns →
      well_formed n s ∧
      ∃ (i : nat) (g g' : Z),
        (i < n - 1)%nat ∧ a !! i = Some g ∧ g' ≠ g ∧ s = <[i := g']> a.
Proof.
  intros [Hlen Hb] Hn Hsz.
  destruct (generate_neighbours_spec a) as (ns & Hns & Hl & Hlook);
    [lia | unfold size; lia |].
  exists ns. split; [done|]. intros s Hs.
  apply list_elem_of_lookup_1 in Hs as [idx Hidx].
  assert (idx < 2 * (n - 1))%nat as Hidx'.
  { rewrite <- Hlen, <- Hl. by eapply lookup_lt_Some. }
  set (i := (idx / 2)%nat).
  assert (i < n - 1)%nat as Hi.
  { subst i. apply Nat.Div0.div_lt_upper_bound. lia. }
  destruct (lookup_lt_is_Some_2 a i) as [g Hg]; [lia|].
  pose proof (Hb i g Hg) as Hgb.
  destruct (Hlook i g) as [Hup Hdown]; [lia|done|].
  destruct (gene_variants_plain (size a) (Z.of_nat i) g) as [Eup Edown];
    [unfold size; lia | lia | unfold size; lia |].
  unfold size in *. rewrite Hlen in *.
  set (m := Z.of_nat n - Z.of_nat i) in *.
  assert (2 ≤ m) as Hm by (subst m; lia).
  assert (∀ g', 0 ≤ g' < m → g' ≠ g →
            well_formed n (<[i := g']> a) ∧
            ∃ (i0 : nat) (g0 g0' : Z),
              (i0 < n - 1)%nat ∧ a !! i0 = Some g0 ∧ g0' ≠ g0 ∧
              <[i := g']> a = <[i0 := g0']> a) as Hvariant.
  { intros g' Hg' Hne. split.
    - split; [by rewrite length_insert|].
      intros j x. destruct (decide (i = j)) as [<-|Hij].
      + rewrite list_lookup_insert_eq by lia. intros [= <-]. subst m. lia.
      + rewrite list_lookup_insert_ne by done. apply Hb.
    - by exists i, g, g'. }
  assert (idx = (2 * i)%nat ∨ idx = (2 * i + 1)%nat) as [E|E].
  { subst i. pose proof (Nat.div_mod_eq idx 2).
    pose proof (Nat.mod_upper_bound idx 2). lia. }
  - rewrite E, Hup in Hidx. injection Hidx as <-. rewrite Eup.
    pose proof (Z.mod_pos_bound (g + 1) m).
    apply Hvariant; [lia|].
    destruct (decide (g + 1 < m)).
    + rewrite Z.mod_small by lia. lia.
    + replace (g + 1) with m by lia. rewrite Z.mod_same by lia. lia.
  - rewrite E, Hdown in Hidx. injection Hidx as <-. rewrite Edown.
    pose proof (Z.mod_pos_bound (g - 1 + m) m).
    apply Hvariant; [lia|].
    destruct (decide (g = 0)) as [->|?].
    + rewrite Z.mod_small by lia. lia.
    + replace (g - 1 + m) with (g - 1 + 1 * m) by lia.
      rewrite Z.mod_add by lia. rewrite Z.mod_small by lia. lia.
Qed.

Lemma generate_neighbours_well_formed_witness :
  ∃ ns,
    generate_neighbours [2; 0; 0] = Some ns ∧
    ∀ s, s ∈ ns → well_formed 3 s.
Proof.
  destruct (generate_neighbours_well_formed 3 [2; 0; 0])
    as (ns & Heq & Hall);
    [by apply well_formed_check | lia | done |].
  exists ns. split; [exact Heq|]. intros s Hs. exact (proj1 (Hall s Hs)).
Defined.

Section ClimbFacts.

Context {W : Type}.
Variable get_solution : alternative_solution_t → solution_t.
Variable goal : solution_t → Q.
Variable generate_random_neighbour :
  alternative_solution_t → M W alternative_solution_t.

Local Abbreviation alt_goal := (alt_goal get_solution goal).

Lemma hillclimb_rounds_spec (k : nat) :
  (∀ s w, is_Some (generate_random_neighbour s w)) →
  ∀ (solution : alternative_solution_t) (w : W),
    ∃ s w',
      hillclimb_rounds get_solution goal generate_random_neighbour k
        solution w = Some (s, w') ∧
      (s = solution ∨ (alt_goal s < alt_goal solution)%Q).
Proof.
  intros Htotal. induction k as [|k IH]; intros solution w; simpl.
  - exists solution, w. split; [done | by left].
  - unfold mbind, M_bind.
    destruct (Htotal solution w) as [[new_solution w1] ->].
    destruct (Qltb (alt_goal new_solution) (alt_goal solution)) eqn:E.
    + apply Qltb_lt in E.
      destruct (IH new_solution w1) as (s & w' & -> & Hs).
      exists s, w'. split; [done|]. right.
      destruct Hs as [->|Hlt]; [done|]. by eapply Qlt_trans.
    + apply IH.
Qed.

(** The randomized hill climb, given a neighbour generator that always
    answers, returns the decoding of a vector that is the start itself or
    has a strictly smaller goal value: never a worse one.  With no
    iteration to run it returns the start and draws nothing. *)
Theorem hillclimb_never_worse
    (start : alternative_solution_t) (iterations : Z) (w : W) :
  (∀ s w, is_Some (generate_random_neighbour s w)) →
  (∃ s w',
     hillclimb get_solution goal generate_random_neighbour start
       iterations w = Some (get_solution s, w') ∧
     (s = start ∨ (alt_goal s < alt_goal start)%Q) ∧
     (alt_goal s <= alt_goal start)%Q) ∧
  (iterations ≤ 0 →
   hillclimb get_solution goal generate_random_neighbour start iterations w
     = Some (get_solution start, w)).
Proof.
  intros Htotal. split.
  - destruct (hillclimb_rounds_spec (Z.to_nat iterations) Htotal start w)
      as (s & w' & Heq & Hs).
    exists s, w'. unfold hillclimb, mbind, M_bind. rewrite Heq.
    split; [done|]. split; [done|].
    destruct Hs as [->|?]; [apply Qle_refl | by apply Qlt_le_weak].
  - intros Hk. unfold hillclimb. by replace (Z.to_nat iterations) with 0%nat by lia.
Qed.

End ClimbFacts.

(** A neighbour generator for concrete runs: the first generated neighbour. *)
Definition first_neighbour (a : alternative_solution_t)
    : M nat alternative_solution_t := λ w,
  match generate_neighbours a with
  | Some (s :: _) => Some (s, S w)
  | _ => Some (a, S w)
  end.

Lemma hillclimb_never_worse_witness :
  ∃ s w',
    hillclimb genes_as_tour sum_goal first_neighbour [2; 1; 0] 5 0%nat
      = Some (genes_as_tour s, w') ∧
    (alt_goal genes_as_tour sum_goal s
       <= alt_goal genes_as_tour sum_goal [2; 1; 0]%Z)%Q.
Proof.
  destruct (hillclimb_never_worse genes_as_tour sum_goal first_neighbour
              [2; 1; 0] 5 0%nat) as [(s & w' & Heq & _ & Hle) _].
  { intros s w. unfold first_neighbour.
    destruct (generate_neighbours s) as [[|? ?]|]; by eauto. }
  exists s, w'. split; [exact Heq | exact Hle].
Defined.

Section TabuFacts.

Variable get_solution : alternative_solution_t → solution_t.
Variable goal : solution_t → Q.

Local Abbreviation alt_goal := (alt_goal get_solution goal).

(** What holds of the state of tabu search between two iterations. *)
Definition tabu_invariant (start : alternative_solution_t)
    (max_tabu_size : Z) (st : tabu_state) : Prop :=
  tabu_list st ≠ [] ∧
  Forall (λ e, length e = length start) (tabu_list st) ∧
  length (global_best st) = length start ∧
  NoDup (tabu_list st) ∧
  (alt_goal (global_best st) <= alt_goal start)%Q ∧
  Forall (λ e, (alt_goal (global_best st) <= alt_goal e)%Q) (tabu_list st) ∧
  (0 ≤ max_tabu_size < 2 ^ 31 →
   size (tabu_list st) ≤ Z.max 1 (max_tabu_size - 1)).

Lemma in_tabu_decides (n : nat) tl (te : alternative_solution_t) :
  Forall (λ e : alternative_solution_t, length e = n) tl → length te = n →
  in_tabu tl te = Some (bool_decide (te ∈ tl)).
Proof.
  induction 1 as [|e tl He _ IH]; intros Hte; simpl.
  - done.
  - rewrite alt_eq_same_length by congruence. simpl.
    destruct (decide (e = te)) as [->|Hne].
    + rewrite !bool_decide_eq_true_2; [done | by left | done].
    + rewrite (bool_decide_eq_false_2 (e = te)) by done.
      rewrite IH by done. f_equal. apply bool_decide_ext.
      rewrite elem_of_cons. split; [by right | by intros [->|?]].
Qed.

Lemma remove_tabu_filter (n : nat) tl (ns : list alternative_solution_t) :
  Forall (λ e : alternative_solution_t, length e = n) tl →
  Forall (λ e : alternative_solution_t, length e = n) ns →
  remove_tabu tl ns = Some (filter (λ te, te ∉ tl) ns).
Proof.
  intros Htl. induction 1 as [|te ns Hte _ IH]; simpl; [done|].
  rewrite (in_tabu_decides n) by done. simpl. rewrite IH. simpl.
  destruct (decide (te ∈ tl)) as [Hin|Hin].
  - rewrite bool_decide_eq_true_2 by done.
    rewrite filter_cons_False; [done | by intros ?].
  - rewrite bool_decide_eq_false_2 by done.
    by rewrite filter_cons_True.
Qed.

Lemma tabu_iteration_invariant
    (start : alternative_solution_t) (max_tabu_size : Z) (st : tabu_state) :
  (1 ≤ length start)%nat → size start < 2 ^ 31 →
  tabu_invariant start max_tabu_size st →
  ∃ r,
    tabu_iteration get_solution goal max_tabu_size st = Some r ∧
    match r with
    | inl st' => tabu_invariant start max_tabu_size st'
    | inr result => result = get_solution (global_best st)
    end.
Proof.
  intros Hlen Hsz (Hne & Hlens & Hgb & Hnd & Hstart & Hbest & Hbound).
  destruct st as [tl gb]. simpl in *.
  unfold tabu_iteration. simpl.
  destruct (back tl) as [recent|] eqn:Hback;
    [|by apply last_None in Hback].
  simpl.
  assert (recent ∈ tl) as Hrecent by (by apply last_Some_elem_of).
  assert (length recent = length start) as Hlr.
  { by apply (proj1 (list.Forall_forall _ _) Hlens). }
  destruct (generate_neighbours_spec recent) as (ns & Hns & _ & _);
    [lia | unfold size in *; lia |].
  rewrite Hns. simpl.
  assert (Forall (λ e : alternative_solution_t, length e = length start) ns)
    as Hnslen.
  { apply list.Forall_forall. intros s Hs.
    rewrite <- Hlr. by eapply generate_neighbours_length. }
  rewrite (remove_tabu_filter (length start)) by done. simpl.
  set (kept := filter (λ te, te ∉ tl) ns).
  destruct (decide (size kept ≤ 0)) as [Hempty|Hsome].
  - destruct (decide (size tl > 1)) as [Hmany|Hone].
    + eexists. split; [reflexivity|]. unfold tabu_invariant; cbn [tabu_list global_best].
      unfold size in *.
      split; [|split; [|split; [|split; [|split; [|split]]]]]; try done.
      * intros E. apply (f_equal length) in E.
        rewrite length_drop in E. simpl in E. lia.
      * by apply Forall_drop.
      * eapply sublist_NoDup; [exact Hnd | apply sublist_drop].
      * by apply Forall_drop.
      * intros Hm. specialize (Hbound Hm). rewrite length_drop. lia.
    + eexists. split; [reflexivity|]. done.
  - destruct (best_neighbour_defined get_solution goal kept) as [cb Hcb].
    { intros E. rewrite E in Hsome. unfold size in Hsome. simpl in Hsome. lia. }
    rewrite Hcb. simpl.
    destruct (best_neighbour_spec get_solution goal kept cb Hcb) as [Hin _].
    apply list_elem_of_filter in Hin as [Hfresh Hin].
    assert (length cb = length start) as Hlcb.
    { by apply (proj1 (list.Forall_forall _ _) Hnslen). }
    eexists. split; [reflexivity|]. unfold tabu_invariant; cbn [tabu_list global_best].
    set (gb' := if Qltb (alt_goal cb) (alt_goal gb) then cb else gb).
    assert ((alt_goal gb' <= alt_goal gb)%Q ∧ (alt_goal gb' <= alt_goal cb)%Q
            ∧ length gb' = length start) as (Hle1 & Hle2 & Hlgb').
    { subst gb'. destruct (Qltb (alt_goal cb) (alt_goal gb)) eqn:E.
      - apply Qltb_lt in E. split; [by apply Qlt_le_weak|].
        split; [apply Qle_refl | done].
      - apply Qltb_ge in E. split; [apply Qle_refl|]. by split. }
    assert (Forall (λ e : alternative_solution_t, length e = length start)
              (tl ++ [cb])) as Hlens'.
    { apply Forall_app. split; [done|]. by apply Forall_singleton. }
    assert (NoDup (tl ++ [cb])) as Hnd'.
    { apply list.NoDup_app. split; [done|]. split.
      - intros x Hx Hx'. apply list_elem_of_singleton in Hx'. by subst.
      - apply list.NoDup_singleton. }
    assert (Forall (λ e, (alt_goal gb' <= alt_goal e)%Q) (tl ++ [cb]))
      as Hbest'.
    { apply Forall_app. split; [|by apply Forall_singleton].
      eapply list.Forall_impl; [exact Hbest|]. intros e He. simpl in He.
      exact (Qle_trans _ _ _ Hle1 He). }
    assert (length (tl ++ [cb]) = S (length tl)) as Hl'
      by (rewrite length_app; simpl; lia).
    assert (1 ≤ length tl)%nat as Hl1.
    { destruct tl; [done|]. simpl. lia. }
    unfold size in *.
    destruct (decide (Z.of_nat (length (tl ++ [cb])) >= to_size_t max_tabu_size))
      as [Hfull|Hroom]; unfold tabu_invariant; cbn [tabu_list global_best].
    + split; [|split; [|split; [|split; [|split; [|split]]]]]; try done.
      * intros E. apply (f_equal length) in E.
        rewrite length_drop in E. simpl in E. lia.
      * by apply Forall_drop.
      * eapply sublist_NoDup; [exact Hnd' | apply sublist_drop].
      * exact (Qle_trans _ _ _ Hle1 Hstart).
      * by apply Forall_drop.
      * intros Hm. specialize (Hbound Hm). rewrite length_drop. lia.
    + split; [|split; [|split; [|split; [|split; [|split]]]]]; try done.
      * intros E. apply (f_equal length) in E. simpl in E. lia.
      * exact (Qle_trans _ _ _ Hle1 Hstart).
      * intros Hm. unfold to_size_t in Hroom.
        rewrite Z.mod_small in Hroom by lia. lia.
Qed.

Lemma tabu_invariant_start (start : alternative_solution_t)
    (max_tabu_size : Z) :
  (1 ≤ length start)%nat →
  tabu_invariant start max_tabu_size (TabuState [start] start).
Proof.
  intros Hlen. unfold tabu_invariant. simpl.
  split; [done|]. split; [by apply Forall_singleton|]. split; [done|].
  split; [apply list.NoDup_singleton|]. split; [apply Qle_refl|].
  split; [apply Forall_singleton, Qle_refl|].
  intros _. unfold size. simpl. lia.
Qed.

Lemma tabu_loop_invariant (start : alternative_solution_t)
    (max_tabu_size : Z) (k : nat) :
  (1 ≤ length start)%nat → size start < 2 ^ 31 →
  ∀ st, tabu_invariant start max_tabu_size st →
    ∃ best,
      tabu_loop get_solution goal k max_tabu_size st
        = Some (get_solution best) ∧
      length best = length start ∧
      (alt_goal best <= alt_goal start)%Q.
Proof.
  intros Hlen Hsz. induction k as [|k IH]; intros st Hinv; simpl.
  - exists (global_best st). split; [done|].
    destruct Hinv as (_ & _ & Hgb & _ & Hle & _). by split.
  - destruct (tabu_iteration_invariant start max_tabu_size st Hlen Hsz Hinv)
      as (r & -> & Hr). simpl. destruct r as [st'|result].
    + by apply IH.
    + subst result. exists (global_best st). split; [done|].
      destruct Hinv as (_ & _ & Hgb & _ & Hle & _). by split.
Qed.

(** Started from a vector of at least one gene, tabu search always returns,
    and what it returns is the decoding of a vector of the start's length
    whose goal value is no greater than the start's. *)
Theorem tabusearch_returns_no_worse
    (start : alternative_solution_t) (iterations max_tabu_size : Z) :
  (1 ≤ length start)%nat → size start < 2 ^ 31 →
  ∃ best,
    tabusearch get_solution goal start iterations max_tabu_size
      = Some (get_solution best) ∧
    length best = length start ∧
    (alt_goal best <= alt_goal start)%Q.
Proof.
  intros Hlen Hsz. unfold tabusearch.
  apply tabu_loop_invariant; [done|done|]. by apply tabu_invariant_start.
Qed.

(** At the start of every iteration that tabu search reaches, the tabu list
    is not empty and holds no vector twice, every entry has the start's
    length, the incumbent is no worse than any entry, and, for a
    non-negative [max_tabu_size], the list holds at most
    [max (1, max_tabu_size - 1)] entries. *)
Theorem tabu_list_invariants
    (start : alternative_solution_t) (max_tabu_size : Z)
    (j : nat) (st_j : tabu_state) :
  (1 ≤ length start)%nat → size start < 2 ^ 31 →
  tabu_reaches get_solution goal j max_tabu_size (TabuState [start] start)
    st_j →
  tabu_list st_j ≠ [] ∧
  NoDup (tabu_list st_j) ∧
  Forall (λ e, length e = length start) (tabu_list st_j) ∧
  Forall (λ e, (alt_goal (global_best st_j) <= alt_goal e)%Q)
    (tabu_list st_j) ∧
  (0 ≤ max_tabu_size < 2 ^ 31 →
   size (tabu_list st_j) ≤ Z.max 1 (max_tabu_size - 1)).
Proof.
  intros Hlen Hsz Hreach.
  assert (tabu_invariant start max_tabu_size st_j) as Hinv.
  { pose proof (tabu_invariant_start start max_tabu_size Hlen) as H0.
    revert H0 Hreach. generalize (TabuState [start] start) as st.
    induction j as [|j IH]; intros st Hinv Hreach; simpl in Hreach.
    - by subst.
    - destruct Hreach as (st' & Hstep & Hreach).
      destruct (tabu_iteration_invariant start max_tabu_size st Hlen Hsz Hinv)
        as (r & Hr & Hinv').
      rewrite Hstep in Hr. injection Hr as <-. by apply (IH st'). }
  destruct Hinv as (H1 & H2 & _ & H4 & _ & H6 & H7). done.
Qed.

(** *** The exhausted neighbourhood *)

Lemma tabu_reaches_invariant
    (start : alternative_solution_t) (max_tabu_size : Z) (j : nat) :
  (1 ≤ length start)%nat → size start < 2 ^ 31 →
  ∀ st st_j,
    tabu_invariant start max_tabu_size st →
    tabu_reaches get_solution goal j max_tabu_size st st_j →
    tabu_invariant start max_tabu_size st_j.
Proof.
  intros Hlen Hsz. induction j as [|j IH]; intros st st_j Hinv Hreach;
    simpl in Hreach.
  - by subst.
  - destruct Hreach as (st' & Hstep & Hreach).
    destruct (tabu_iteration_invariant start max_tabu_size st Hlen Hsz Hinv)
      as (r & Hr & Hinv').
    rewrite Hstep in Hr. injection Hr as <-. by apply (IH st').
Qed.

Lemma exhausted_filter (n : nat) tl (ns : list alternative_solution_t) :
  Forall (λ e : alternative_solution_t, length e = n) tl →
  Forall (λ e : alternative_solution_t, length e = n) ns →
  Forall (λ te, in_tabu tl te = Some true) ns ↔
  filter (λ te, te ∉ tl) ns = [].
Proof.
  intros Htl. induction 1 as [|te ns Hte _ IH].
  - done.
  - rewrite list.Forall_cons, (in_tabu_decides n) by done.
    destruct (decide (te ∈ tl)) as [Hin|Hin].
    + rewrite filter_cons_False by (by intros ?).
      rewrite bool_decide_eq_true_2 by done. rewrite IH. tauto.
    + rewrite filter_cons_True by done.
      rewrite bool_decide_eq_false_2 by done. split; [by intros [? _]|done].
Qed.

(** What an iteration finds: the most recent entry, its neighbours, and the
    neighbours that are left when the tabu ones are removed. *)
Lemma tabu_iteration_cases
    (start : alternative_solution_t) (max_tabu_size : Z) (st : tabu_state) :
  (1 ≤ length start)%nat → size start < 2 ^ 31 →
  tabu_invariant start max_tabu_size st →
  ∃ recent ns,
    back (tabu_list st) = Some recent ∧
    length recent = length start ∧
    generate_neighbours recent = Some ns ∧
    length ns = (2 * (length start - 1))%nat ∧
    remove_tabu (tabu_list st) ns
      = Some (filter (λ te, te ∉ tabu_list st) ns) ∧
    (Forall (λ te, in_tabu (tabu_list st) te = Some true) ns ↔
     filter (λ te, te ∉ tabu_list st) ns = []).
Proof.
  intros Hlen Hsz (Hne & Hlens & _).
  destruct (back (tabu_list st)) as [recent|] eqn:Hback;
    [|by apply last_None in Hback].
  assert (length recent = length start) as Hlr.
  { apply (proj1 (list.Forall_forall _ _) Hlens).
    by apply last_Some_elem_of. }
  destruct (generate_neighbours_spec recent) as (ns & Hns & Hnl & _);
    [lia | unfold size in *; lia |].
  assert (Forall (λ e : alternative_solution_t, length e = length start) ns)
    as Hnslen.
  { apply list.Forall_forall. intros s Hs.
    rewrite <- Hlr. by eapply generate_neighbours_length. }
  exists recent, ns. split; [done|]. split; [done|]. split; [done|].
  split; [by rewrite Hnl, Hlr|].
  split; [by apply (remove_tabu_filter (length start))|].
  by apply (exhausted_filter (length start)).
Qed.

(** Lines 187 to 192: no neighbour is left. *)
Lemma tabu_iteration_exhausted (max_tabu_size : Z) (st : tabu_state)
    (recent : alternative_solution_t) ns :
  back (tabu_list st) = Some recent →
  generate_neighbours recent = Some ns →
  Forall (λ te, in_tabu (tabu_list st) te = Some true) ns →
  tabu_iteration get_solution goal max_tabu_size st
  = Some (if decide (size (tabu_list st) > 1)
          then inl (TabuState (drop 1 (tabu_list st)) (global_best st))
          else inr (get_solution (global_best st))).
Proof.
  intros Hback Hns Hall. unfold tabu_iteration.
  rewrite Hback. cbn [mbind option_bind]. rewrite Hns. cbn [mbind option_bind].
  rewrite (remove_tabu_all _ _ Hall). cbn [mbind option_bind].
  destruct (decide (size [] ≤ 0)) as [_|Hn]; [|by destruct Hn].
  by destruct (decide (size (tabu_list st) > 1)).
Qed.

(** Some neighbour is left: the search goes on. *)
Lemma tabu_iteration_fresh (max_tabu_size : Z) (st : tabu_state)
    (recent : alternative_solution_t) ns :
  back (tabu_list st) = Some recent →
  generate_neighbours recent = Some ns →
  remove_tabu (tabu_list st) ns
    = Some (filter (λ te, te ∉ tabu_list st) ns) →
  filter (λ te, te ∉ tabu_list st) ns ≠ [] →
  ∃ st', tabu_iteration get_solution goal max_tabu_size st = Some (inl st').
Proof.
  intros Hback Hns Hrem Hleft. unfold tabu_iteration.
  rewrite Hback. cbn [mbind option_bind]. rewrite Hns. cbn [mbind option_bind].
  rewrite Hrem. cbn [mbind option_bind].
  destruct (decide _) as [Hempty|_].
  { destruct (filter _ ns); [done|]. unfold size in Hempty. simpl in Hempty. lia. }
  destruct (best_neighbour_defined get_solution goal _ Hleft) as [cb ->].
  cbn [mbind option_bind]. by eexists.
Qed.

(** With two genes or more an iteration never returns: a list of one entry
    does not hold the first neighbour of that entry. *)
Lemma tabu_iteration_goes_on
    (start : alternative_solution_t) (max_tabu_size : Z) (st : tabu_state) :
  (2 ≤ length start)%nat → size start < 2 ^ 31 →
  tabu_invariant start max_tabu_size st →
  ∃ st',
    tabu_iteration get_solution goal max_tabu_size st = Some (inl st') ∧
    tabu_invariant start max_tabu_size st'.
Proof.
  intros Hlen Hsz Hinv.
  destruct (tabu_iteration_invariant start max_tabu_size st) as (r & Hr & Hinv');
    [lia|done|done|].
  destruct r as [st'|result]; [by exists st'|]. exfalso.
  destruct (tabu_iteration_cases start max_tabu_size st)
    as (recent & ns & Hback & Hlr & Hns & _ & Hrem & Hiff); [lia|done|done|].
  destruct (decide (filter (λ te, te ∉ tabu_list st) ns = [])) as [Hnil|Hleft].
  - apply Hiff in Hnil.
    rewrite (tabu_iteration_exhausted _ _ _ _ Hback Hns Hnil) in Hr.
    destruct (decide (size (tabu_list st) > 1)) as [|Hone]; [done|].
    destruct (tabu_list st) as [|e [|e' tl]] eqn:Htl.
    + done.
    + injection Hback as ->.
      apply (first_neighbour_not_tabu recent ns);
        [lia | unfold size in *; lia | done | done].
    + unfold size in Hone. simpl in Hone. lia.
  - destruct (tabu_iteration_fresh max_tabu_size st recent ns Hback Hns Hrem
                Hleft) as [st' Hst']. by rewrite Hst' in Hr.
Qed.

Lemma tabu_loop_full
    (start : alternative_solution_t) (max_tabu_size : Z) (k : nat) :
  (2 ≤ length start)%nat → size start < 2 ^ 31 →
  ∀ st, tabu_invariant start max_tabu_size st →
    ∃ st_end,
      tabu_reaches get_solution goal k max_tabu_size st st_end ∧
      tabu_loop get_solution goal k max_tabu_size st
        = Some (get_solution (global_best st_end)).
Proof.
  intros Hlen Hsz. induction k as [|k IH]; intros st Hinv.
  - by exists st.
  - destruct (tabu_iteration_goes_on start max_tabu_size st Hlen Hsz Hinv)
      as (st' & Hstep & Hinv').
    destruct (IH st' Hinv') as (st_end & Hreach & Hloop).
    exists st_end. split; [by exists st'|].
    cbn [tabu_loop]. rewrite Hstep. done.
Qed.


End TabuFacts.

Lemma tabusearch_returns_no_worse_witness :
  ∃ best,
    tabusearch genes_as_tour sum_goal [2; 1; 0] 4 3
      = Some (genes_as_tour best) ∧
    (LocalSearch.alt_goal genes_as_tour sum_goal best
       <= LocalSearch.alt_goal genes_as_tour sum_goal [2; 1; 0]%Z)%Q.
Proof.
  destruct (tabusearch_returns_no_worse genes_as_tour sum_goal [2; 1; 0] 4 3)
    as (best & Heq & _ & Hle); [simpl; lia | done |].
  exists best. split; [exact Heq | exact Hle].
Defined.

Lemma tabu_list_invariants_witness :
  NoDup [[0; 1; 0]; [0; 0; 0]] ∧
  size [[0; 1; 0]; [0; 0; 0]] ≤ Z.max 1 (3 - 1).
Proof.
  destruct (tabu_list_invariants genes_as_tour sum_goal [2; 1; 0] 3 2
              (TabuState [[0; 1; 0]; [0; 0; 0]] [0; 0; 0]))
    as (_ & Hnd & _ & _ & Hsize); [simpl; lia | done | |].
  { eexists. split; [vm_compute; reflexivity|].
    eexists. split; [vm_compute; reflexivity|]. reflexivity. }
  split; [exact Hnd | exact (Hsize ltac:(lia))].
Defined.


End Search.

(** ** Evolution: what a run of the generational loop returns *)

Module Evolution.

Import Engine.

Section Generations.

Context {W X : Type}.

Variable uniform_real_distribution : Q → Q → W → Q * W.
Variable fitness_f : X → Q.
Variable selection_f : list Q → M W Z.
Variable crossover_f : X → X → M W (X * X).
Variable mutation_f : X → M W X.
Variable crossover_probability : Q.
Variable mutation_probability : Q.

(** [k] passes through the body of the while loop. *)
Fixpoint generations (k : nat) (n : Z) (population : list X)
    : M W (list X) :=
  match k with
  | O => mret population
  | S k' =>
      children ← generation uniform_real_distribution fitness_f selection_f
                   crossover_f mutation_f crossover_probability
                   mutation_probability n population;
      generations k' n children
  end.

End Generations.

Section Counter.

Context {W : Type}.

(** The driver's termination closure captures a shared counter,
    [iteration_count]: the outside state is then the state of the generator
    together with that counter, which nothing else touches. *)
Definition with_counter {A} (m : M W A) : M (W * Z) A := λ wc,
  match m wc.1 with
  | Some (x, w') => Some (x, (w', wc.2))
  | None => None
  end.

Definition counted_draw (uniform_real_distribution : Q → Q → W → Q * W)
    (lo hi : Q) (wc : W * Z) : Q * (W * Z) :=
  let d := uniform_real_distribution lo hi wc.1 in (d.1, (d.2, wc.2)).

Definition counted_selection (selection_f : list Q → M W Z)
    (fit : list Q) : M (W * Z) Z :=
  with_counter (selection_f fit).

Definition counted_crossover {X} (crossover_f : X → X → M W (X * X))
    (a b : X) : M (W * Z) (X * X) :=
  with_counter (crossover_f a b).

Definition counted_mutation {X} (mutation_f : X → M W X)
    (a : X) : M (W * Z) X :=
  with_counter (mutation_f a).

(** The closure returns the counter and decrements it afterwards: the loop
    goes on while the value read is not zero; decrementing the least [int]
    is undefined.  The goal values printed on the way are left out. *)
Definition term_condition_f {X} (pop : list X) : M (W * Z) bool := λ wc,
  if decide (- 2 ^ 31 ≤ wc.2 - 1)
  then Some (negb (wc.2 =? 0), (wc.1, wc.2 - 1))
  else None.

End Counter.

Section EvolutionFacts.

Context {W X : Type}.

Variable uniform_real_distribution : Q → Q → W → Q * W.
Variable fitness_f : X → Q.
Variable selection_f : list Q → M W Z.
Variable crossover_f : X → X → M W (X * X).
Variable mutation_f : X → M W X.
Variable crossover_probability : Q.
Variable mutation_probability : Q.
Variable term_condition_f : list X → M W bool.

Local Abbreviation select_parents := (select_parents selection_f).
Local Abbreviation crossover_loop :=
  (crossover_loop uniform_real_distribution crossover_f crossover_probability).
Local Abbreviation mutation_loop :=
  (mutation_loop uniform_real_distribution mutation_f mutation_probability).
Local Abbreviation generation :=
  (generation uniform_real_distribution fitness_f selection_f crossover_f
     mutation_f crossover_probability mutation_probability).
Local Abbreviation evolve :=
  (evolve uniform_real_distribution fitness_f selection_f crossover_f
     mutation_f crossover_probability mutation_probability term_condition_f).
Local Abbreviation genetic_algorithm :=
  (genetic_algorithm uniform_real_distribution fitness_f selection_f
     crossover_f mutation_f crossover_probability mutation_probability
     term_condition_f).

(** When the loop is left with a population, the algorithm returns a member
    of that population that no other member exceeds in fitness; left with an
    empty population, it dereferences the end of an empty range. *)
Theorem genetic_algorithm_returns_fittest
    (fuel : nat) (initial_population final : list X) (w w' : W) :
  evolve fuel (size initial_population) initial_population w
    = Some (final, w') →
  (final = [] → genetic_algorithm fuel initial_population w = None) ∧
  (final ≠ [] →
   ∃ best,
     genetic_algorithm fuel initial_population w = Some (best, w') ∧
     best ∈ final ∧
     ∀ y, y ∈ final → (fitness_f y <= fitness_f best)%Q).
Proof.
  intros Hev. unfold Engine.genetic_algorithm, mbind, M_bind, lift.
  rewrite Hev. split.
  - intros ->. reflexivity.
  - intros Hne. destruct (max_element_defined fitness_f final Hne) as [m Hm].
    rewrite Hm. exists m. split; [done|]. by apply max_element_spec.
Qed.

Lemma evolve_from_nothing (fuel : nat) (n : Z) :
  n ≤ 1 →
  ∀ (w : W) (final : list X) (w' : W),
    evolve fuel n [] w = Some (final, w') → final = [].
Proof.
  intros Hn. induction fuel as [|fuel IH]; intros w final w' H;
    cbn [Engine.evolve] in H; [done|].
  unfold mbind, M_bind in H.
  destruct (term_condition_f [] w) as [[[] w1]|]; [| |done].
  - destruct (generation n [] w1) as [[children w2]|] eqn:Hg; [|done].
    apply generation_length in Hg.
    assert (pair_rounds n = 0%nat) as Hr.
    { unfold pair_rounds. rewrite Z2Nat.nonpos; [done|].
      assert (n `div` 2 < 1) by (apply Z.div_lt_upper_bound; lia). lia. }
    rewrite Hr in Hg. destruct children; [|done]. by eapply IH.
  - by injection H as <- <-.
Qed.

(** A population of at most one specimen cannot be evolved: once the
    termination condition has asked for a generation, or when there is no
    specimen at all, the algorithm has no defined result, however much time
    it is given. *)
Theorem genetic_algorithm_single_specimen
    (fuel : nat) (initial_population : list X) (w : W) :
  (length initial_population ≤ 1)%nat →
  (initial_population = [] ∨
   ∃ w1, term_condition_f initial_population w = Some (true, w1)) →
  genetic_algorithm fuel initial_population w = None.
Proof.
  intros Hlen Hstart.
  assert (size initial_population ≤ 1) as Hn by (unfold size; lia).
  assert (pair_rounds (size initial_population) = 0%nat) as Hr.
  { unfold pair_rounds. rewrite Z2Nat.nonpos; [done|].
    assert (size initial_population `div` 2 < 1)
      by (apply Z.div_lt_upper_bound; lia).
    lia. }
  unfold Engine.genetic_algorithm, mbind, M_bind, lift.
  destruct (evolve fuel (size initial_population) initial_population w)
    as [[final w']|] eqn:Hev; [|done].
  assert (final = []) as ->; [|done].
  destruct Hstart as [->|[w1 Hterm]].
  - by eapply evolve_from_nothing.
  - destruct fuel as [|fuel]; [done|]. cbn [Engine.evolve] in Hev.
    unfold mbind, M_bind in Hev. rewrite Hterm in Hev.
    destruct (generation (size initial_population) initial_population w1)
      as [[children w2]|] eqn:Hg; [|done].
    apply generation_length in Hg. rewrite Hr in Hg.
    destruct children; [|done]. by eapply evolve_from_nothing.
Qed.

Lemma crossover_loop_shut (k : nat) :
  (∀ w, ¬ (crossover_probability < (uniform_real_distribution 0 1 w).1)%Q) →
  ∀ (i : nat) (parents children : list X) (w : W),
    (i + 2 * k ≤ length parents)%nat →
    ∃ w',
      crossover_loop k (Z.of_nat i) parents children w
        = Some (children ++ take (2 * k) (drop i parents), w').
Proof.
  intros Hshut. induction k as [|k IH]; intros i parents children w Hlen;
    cbn [Engine.crossover_loop].
  - exists w. simpl. by rewrite app_nil_r.
  - unfold mbind, M_bind, lift, draw_unit.
    pose proof (Hshut w) as Hu.
    destruct (uniform_real_distribution 0%Q 1%Q w) as [u w1]. simpl in Hu.
    destruct (lookup_lt_is_Some_2 parents i) as [p1 Hp1]; [lia|].
    destruct (lookup_lt_is_Some_2 parents (S i)) as [p2 Hp2]; [lia|].
    replace (Z.of_nat i + 1) with (Z.of_nat (S i)) by lia.
    rewrite !vec_get_nat, Hp1, Hp2.
    replace (Z.of_nat i + 2) with (Z.of_nat (S (S i))) by lia.
    destruct (Qltb crossover_probability u) eqn:E.
    { apply Qltb_lt in E. done. }
    destruct (IH (S (S i)) parents (children ++ [p1; p2]) w1) as [w' ->]; [lia|].
    exists w'. do 2 f_equal. rewrite <- app_assoc. f_equal.
    replace (2 * S k)%nat with (S (S (2 * k))) by lia.
    rewrite (drop_S _ _ _ Hp1), (drop_S _ _ _ Hp2). done.
Qed.

Lemma mutation_loop_shut (k : nat) :
  (∀ w, ¬ (mutation_probability < (uniform_real_distribution 0 1 w).1)%Q) →
  ∀ (i : Z) (children : list X) (w : W),
    ∃ w', mutation_loop k i children w = Some (children, w').
Proof.
  intros Hshut. induction k as [|k IH]; intros i children w;
    cbn [Engine.mutation_loop].
  - by exists w.
  - unfold mbind, M_bind, lift, draw_unit.
    pose proof (Hshut w) as Hu.
    destruct (uniform_real_distribution 0%Q 1%Q w) as [u w1]. simpl in Hu.
    destruct (Qltb mutation_probability u) eqn:E.
    { apply Qltb_lt in E. done. }
    apply IH.
Qed.

Lemma crossover_loop_open (k : nat) :
  (∀ w, (crossover_probability < (uniform_real_distribution 0 1 w).1)%Q) →
  ∀ (i : nat) (parents children : list X) (w : W) (cs : list X) (w' : W),
    crossover_loop k (Z.of_nat i) parents children w = Some (cs, w') →
    ∃ rest,
      cs = children ++ rest ∧
      ∀ j, (j < k)%nat →
        ∃ p1 p2 wa ab wb,
          parents !! (i + 2 * j)%nat = Some p1 ∧
          parents !! (i + 2 * j + 1)%nat = Some p2 ∧
          crossover_f p1 p2 wa = Some (ab, wb) ∧
          rest !! (2 * j)%nat = Some ab.1 ∧
          rest !! (2 * j + 1)%nat = Some ab.2.
Proof.
  intros Hopen. induction k as [|k IH]; intros i parents children w cs w' H;
    cbn [Engine.crossover_loop] in H.
  - injection H as <- <-. exists []. split; [by rewrite app_nil_r|].
    intros j Hj. lia.
  - unfold mbind, M_bind, lift, draw_unit in H.
    pose proof (Hopen w) as Hu.
    destruct (uniform_real_distribution 0%Q 1%Q w) as [u w1]. simpl in Hu.
    replace (Z.of_nat i + 1) with (Z.of_nat (S i)) in H by lia.
    rewrite !vec_get_nat in H.
    destruct (parents !! i) as [p1|] eqn:Hp1; [|done].
    destruct (parents !! S i) as [p2|] eqn:Hp2; [|done].
    replace (Z.of_nat i + 2) with (Z.of_nat (S (S i))) in H by lia.
    destruct (Qltb crossover_probability u) eqn:E.
    2:{ apply Qltb_ge in E. destruct (Qlt_not_le _ _ Hu E). }
    destruct (crossover_f p1 p2 w1) as [[ab w2]|] eqn:Hcross; [|done].
    apply IH in H as (rest & -> & Hrest).
    exists ([ab.1; ab.2] ++ rest). split; [by rewrite <- app_assoc|].
    intros [|j] Hj.
    + exists p1, p2, w1, ab, w2.
      replace (i + 2 * 0)%nat with i by lia.
      replace (i + 1)%nat with (S i) by lia. done.
    + destruct (Hrest j) as (q1 & q2 & wa & cd & wb & Hq1 & Hq2 & Hc & H1 & H2);
        [lia|].
      exists q1, q2, wa, cd, wb.
      replace (i + 2 * S j)%nat with (S (S i) + 2 * j)%nat by lia.
      split; [done|]. split; [done|]. split; [done|].
      replace (2 * S j)%nat with (S (S (2 * j))) by lia. done.
Qed.

(** The rounds from pair [j0] on leave the children before that pair as they
    are. *)
Lemma mutation_loop_earlier_untouched (k : nat) :
  ∀ (j0 : nat) (children : list X) (w : W) (cs : list X) (w' : W),
    mutation_loop k (Z.of_nat (2 * j0)) children w = Some (cs, w') →
    ∀ idx : nat, (idx < 2 * j0)%nat → cs !! idx = children !! idx.
Proof.
  induction k as [|k IH]; intros j0 children w cs w' H;
    cbn [Engine.mutation_loop] in H.
  - by injection H as <- <-.
  - unfold mbind, M_bind, lift, draw_unit in H.
    destruct (uniform_real_distribution 0%Q 1%Q w) as [u w1].
    replace (Z.of_nat (2 * j0) + 2) with (Z.of_nat (2 * S j0)) in H by lia.
    destruct (Qltb mutation_probability u).
    + destruct (vec_get children (Z.of_nat (2 * j0))) as [c|]; [|done].
      destruct (mutation_f c w1) as [[c' w2]|]; [|done].
      unfold vec_set in H. destruct (decide _) as [Hi|]; [|done].
      intros idx Hidx. rewrite (IH _ _ _ _ _ H idx) by lia.
      apply list_lookup_insert_ne. lia.
    + intros idx Hidx. apply (IH _ _ _ _ _ H idx). lia.
Qed.

Lemma mutation_loop_open (k : nat) :
  (∀ w, (mutation_probability < (uniform_real_distribution 0 1 w).1)%Q) →
  ∀ (j0 : nat) (children : list X) (w : W) (cs : list X) (w' : W),
    mutation_loop k (Z.of_nat (2 * j0)) children w = Some (cs, w') →
    ∀ j, (j0 ≤ j < j0 + k)%nat →
      ∃ c wc c' wd,
        children !! (2 * j)%nat = Some c ∧
        mutation_f c wc = Some (c', wd) ∧
        cs !! (2 * j)%nat = Some c'.
Proof.
  intros Hopen. induction k as [|k IH]; intros j0 children w cs w' H j Hj;
    [lia|]. cbn [Engine.mutation_loop] in H.
  unfold mbind, M_bind, lift, draw_unit in H.
  pose proof (Hopen w) as Hu.
  destruct (uniform_real_distribution 0%Q 1%Q w) as [u w1]. simpl in Hu.
  replace (Z.of_nat (2 * j0) + 2) with (Z.of_nat (2 * S j0)) in H by lia.
  destruct (Qltb mutation_probability u) eqn:E.
  2:{ apply Qltb_ge in E. destruct (Qlt_not_le _ _ Hu E). }
  rewrite vec_get_nat in H.
  destruct (children !! (2 * j0)%nat) as [c|] eqn:Hc; [|done].
  destruct (mutation_f c w1) as [[c' w2]|] eqn:Hmut; [|done].
  unfold vec_set in H. destruct (decide _) as [Hi|]; [|done].
  rewrite Nat2Z.id in H.
  destruct (decide (j = j0)) as [->|Hne].
  - exists c, w1, c', w2. split; [done|]. split; [done|].
    rewrite (mutation_loop_earlier_untouched _ _ _ _ _ _ H) by lia.
    apply list_lookup_insert_eq. lia.
  - destruct (IH _ _ _ _ _ H j) as (d & wc & d' & wd & Hd & Hm & Hcs); [lia|].
    exists d, wc, d', wd. split; [|done].
    rewrite list_lookup_insert_ne in Hd by lia. done.
Qed.

Section Preservation.

(** A property of specimens that the two closures preserve. *)
Variable P : X → Prop.
Hypothesis crossover_keeps : ∀ a b w a' b' w',
  P a → P b → crossover_f a b w = Some ((a', b'), w') → P a' ∧ P b'.
Hypothesis mutation_keeps : ∀ a w a' w',
  P a → mutation_f a w = Some (a', w') → P a'.

Lemma select_parents_keeps (population : list X) (fit : list Q) (k : nat) :
  Forall P population →
  ∀ (parents : list X) (w : W) (ps : list X) (w' : W),
    Forall P parents →
    select_parents k population fit parents w = Some (ps, w') →
    Forall P ps.
Proof.
  intros Hpop. induction k as [|k IH]; intros parents w ps w' Hps H;
    cbn [Engine.select_parents] in H.
  - by injection H as <- <-.
  - unfold mbind, M_bind, lift in H.
    destruct (selection_f fit w) as [[idx w1]|]; [|done].
    destruct (vec_get population idx) as [p|] eqn:Hp; [|done].
    eapply IH; [|exact H]. apply Forall_app. split; [done|].
    apply Forall_singleton. unfold vec_get in Hp.
    destruct (decide _); [|done].
    by eapply (Forall_lookup_1 P population).
Qed.

Lemma crossover_loop_keeps (k : nat) :
  ∀ i (parents children : list X) (w : W) (cs : list X) (w' : W),
    Forall P parents → Forall P children →
    crossover_loop k i parents children w = Some (cs, w') →
    Forall P cs.
Proof.
  induction k as [|k IH]; intros i parents children w cs w' Hps Hcs H;
    cbn [Engine.crossover_loop] in H.
  - by injection H as <- <-.
  - unfold mbind, M_bind, lift, draw_unit in H.
    destruct (uniform_real_distribution 0%Q 1%Q w) as [u w1].
    destruct (vec_get parents i) as [p1|] eqn:Hp1; [|done].
    destruct (vec_get parents (i + 1)) as [p2|] eqn:Hp2; [|done].
    assert (P p1 ∧ P p2) as [HP1 HP2].
    { unfold vec_get in Hp1, Hp2.
      destruct (decide (0 ≤ i)); [|done].
      destruct (decide (0 ≤ i + 1)); [|done].
      split; by eapply (Forall_lookup_1 P parents). }
    destruct (Qltb crossover_probability u).
    + destruct (crossover_f p1 p2 w1) as [[[a b] w2]|] eqn:Hab; [|done].
      destruct (crossover_keeps _ _ _ _ _ _ HP1 HP2 Hab) as [Ha Hb].
      eapply IH; [exact Hps| |exact H]. apply Forall_app. split; [done|].
      simpl. by repeat constructor.
    + eapply IH; [exact Hps| |exact H]. apply Forall_app. split; [done|].
      by repeat constructor.
Qed.

Lemma mutation_loop_keeps (k : nat) :
  ∀ i (children : list X) (w : W) (cs : list X) (w' : W),
    Forall P children →
    mutation_loop k i children w = Some (cs, w') →
    Forall P cs.
Proof.
  induction k as [|k IH]; intros i children w cs w' Hcs H;
    cbn [Engine.mutation_loop] in H.
  - by injection H as <- <-.
  - unfold mbind, M_bind, lift, draw_unit in H.
    destruct (uniform_real_distribution 0%Q 1%Q w) as [u w1].
    destruct (Qltb mutation_probability u).
    + destruct (vec_get children i) as [c|] eqn:Hc; [|done].
      destruct (mutation_f c w1) as [[c' w2]|] eqn:Hmut; [|done].
      unfold vec_set in H. destruct (decide _) as [Hi|]; [|done].
      eapply IH; [|exact H]. apply Forall_insert; [done|].
      eapply mutation_keeps; [|exact Hmut].
      unfold vec_get in Hc. destruct (decide _); [|done].
      by eapply (Forall_lookup_1 P children).
    + by eapply IH.
Qed.

Lemma generation_keeps (n : Z) (population : list X) (w : W) cs w' :
  Forall P population →
  generation n population w = Some (cs, w') →
  Forall P cs.
Proof.
  intros Hpop H. unfold Engine.generation, mbind, M_bind in H.
  destruct (select_parents _ _ _ _ _) as [[ps w1]|] eqn:Hs; [|done].
  apply select_parents_keeps in Hs; [|done|done].
  destruct (crossover_loop _ _ _ _ _) as [[children w2]|] eqn:Hc; [|done].
  apply crossover_loop_keeps in Hc; [|done|done].
  by eapply mutation_loop_keeps.
Qed.

Lemma evolve_keeps (fuel : nat) (n : Z) :
  ∀ (population : list X) (w : W) (final : list X) (w' : W),
    Forall P population →
    evolve fuel n population w = Some (final, w') →
    Forall P final.
Proof.
  induction fuel as [|fuel IH]; intros population w final w' Hpop H;
    cbn [Engine.evolve] in H; [done|].
  unfold mbind, M_bind in H.
  destruct (term_condition_f population w) as [[[] w1]|]; [| |done].
  - destruct (generation n population w1) as [[children w2]|] eqn:Hg; [|done].
    eapply IH; [|exact H]. by eapply generation_keeps.
  - by injection H as <- <-.
Qed.

Lemma generations_keeps (k : nat) (n : Z) :
  ∀ (population : list X) (w : W) (final : list X) (w' : W),
    Forall P population →
    generations uniform_real_distribution fitness_f selection_f crossover_f
      mutation_f crossover_probability mutation_probability k n population w
      = Some (final, w') →
    Forall P final.
Proof.
  induction k as [|k IH]; intros population w final w' Hpop H;
    cbn [generations] in H.
  - by injection H as <- <-.
  - unfold mbind, M_bind in H.
    destruct (generation n population w) as [[children w2]|] eqn:Hg; [|done].
    eapply IH; [|exact H]. by eapply generation_keeps.
Qed.

End Preservation.

(** A property of specimens that the crossover and the mutation closures
    preserve, and that holds of every initial specimen, holds of every
    member of the population with which the loop is left and of the specimen
    returned. *)
Theorem genetic_algorithm_keeps_property
    (P : X → Prop) (fuel : nat) (initial_population : list X) (w : W) :
  (∀ a b w a' b' w',
     P a → P b → crossover_f a b w = Some ((a', b'), w') → P a' ∧ P b') →
  (∀ a w a' w', P a → mutation_f a w = Some (a', w') → P a') →
  Forall P initial_population →
  (∀ final w',
     evolve fuel (size initial_population) initial_population w
       = Some (final, w') → Forall P final) ∧
  (∀ best w',
     genetic_algorithm fuel initial_population w = Some (best, w') → P best).
Proof.
  intros Hcross Hmut Hinit. split.
  - intros final w' Hev. by eapply evolve_keeps.
  - intros best w' Hga.
    unfold Engine.genetic_algorithm, mbind, M_bind, lift in Hga.
    destruct (evolve fuel (size initial_population) initial_population w)
      as [[final w1]|] eqn:Hev; [|done].
    destruct (max_element fitness_f final) as [m|] eqn:Hm; [|done].
    injection Hga as <- <-.
    apply max_element_spec in Hm as [Hin _].
    eapply (proj1 (list.Forall_forall P final)); [|exact Hin].
    by eapply evolve_keeps.
Qed.

End EvolutionFacts.

Lemma genetic_algorithm_returns_fittest_witness :
  ∃ best,
    genetic_algorithm half_draw inject_Z turn_selection swap_crossover
      bump_mutation (9 # 10) (1 # 10) stop_at_once 1 [1; 3; 2] 0%nat
      = Some (best, 0%nat) ∧
    best ∈ [1; 3; 2].
Proof.
  destruct (genetic_algorithm_returns_fittest half_draw inject_Z
              turn_selection swap_crossover bump_mutation (9 # 10) (1 # 10)
              stop_at_once 1 [1; 3; 2] [1; 3; 2] 0%nat 0%nat eq_refl)
    as [_ Hbest].
  destruct (Hbest ltac:(done)) as (best & Heq & Hin & _).
  exists best. split; [exact Heq | exact Hin].
Defined.

(** A termination condition that asks for one generation after another. *)
Definition never_stop (population : list Z) : M nat bool := λ w,
  Some (true, w).

Lemma genetic_algorithm_single_specimen_witness :
  genetic_algorithm half_draw inject_Z turn_selection swap_crossover
    bump_mutation (9 # 10) (1 # 10) never_stop 5 [7] 0%nat = None.
Proof.
  apply genetic_algorithm_single_specimen; [simpl; lia|].
  right. by exists 0%nat.
Defined.

Lemma genetic_algorithm_keeps_property_witness :
  Forall (λ x : Z, 0 < x) [1; 3; 2] ∧ 0 < 3.
Proof.
  destruct (genetic_algorithm_keeps_property half_draw inject_Z
              turn_selection swap_crossover bump_mutation (9 # 10) (1 # 10)
              stop_at_once (λ x, 0 < x) 1 [1; 3; 2] 0%nat) as [Hev Hga].
  - intros a b w a' b' w' Ha Hb [= <- <- <-]. done.
  - intros a w a' w' Ha [= <- <-]. lia.
  - repeat constructor.
  - split; [exact (Hev [1; 3; 2] 0%nat eq_refl) | exact (Hga 3 0%nat eq_refl)].
Defined.

Section CounterFacts.

Context {W X : Type}.

Variable uniform_real_distribution : Q → Q → W → Q * W.
Variable fitness_f : X → Q.
Variable selection_f : list Q → M W Z.
Variable crossover_f : X → X → M W (X * X).
Variable mutation_f : X → M W X.
Variable crossover_probability : Q.
Variable mutation_probability : Q.

Local Abbreviation counted_selection := (counted_selection selection_f).
Local Abbreviation counted_crossover := (counted_crossover crossover_f).
Local Abbreviation counted_mutation := (counted_mutation mutation_f).

Lemma with_counter_run {A} (m : M W A) (w : W) (c : Z) :
  with_counter m (w, c)
  = match m w with Some (x, w') => Some (x, (w', c)) | None => None end.
Proof. reflexivity. Qed.

Lemma counted_selection_run (fit : list Q) (w : W) (c : Z) :
  counted_selection fit (w, c)
  = match selection_f fit w with
    | Some (x, w') => Some (x, (w', c))
    | None => None
    end.
Proof. reflexivity. Qed.

Lemma counted_crossover_run (a b : X) (w : W) (c : Z) :
  counted_crossover a b (w, c)
  = match crossover_f a b w with
    | Some (x, w') => Some (x, (w', c))
    | None => None
    end.
Proof. reflexivity. Qed.

Lemma counted_mutation_run (a : X) (w : W) (c : Z) :
  counted_mutation a (w, c)
  = match mutation_f a w with
    | Some (x, w') => Some (x, (w', c))
    | None => None
    end.
Proof. reflexivity. Qed.

Lemma counted_draw_run (lo hi : Q) (w : W) (c : Z) :
  counted_draw uniform_real_distribution lo hi (w, c)
  = ((uniform_real_distribution lo hi w).1,
     ((uniform_real_distribution lo hi w).2, c)).
Proof. reflexivity. Qed.

Lemma select_parents_counter (population : list X) (fit : list Q) (k : nat) :
  ∀ (parents : list X) (w : W) (c : Z),
    select_parents counted_selection k population fit parents (w, c)
    = with_counter (select_parents selection_f k population fit parents)
        (w, c).
Proof.
  induction k as [|k IH]; intros parents w c; cbn [select_parents]; [done|].
  unfold mbind, M_bind, lift.
  rewrite counted_selection_run, with_counter_run.
  destruct (selection_f fit w) as [[idx w1]|]; [|done].
  destruct (vec_get population idx); [|done].
  by rewrite IH, with_counter_run.
Qed.

Lemma crossover_loop_counter (k : nat) :
  ∀ (i : Z) (parents children : list X) (w : W) (c : Z),
    crossover_loop (counted_draw uniform_real_distribution) counted_crossover
      crossover_probability k i parents children (w, c)
    = with_counter
        (crossover_loop uniform_real_distribution crossover_f
           crossover_probability k i parents children) (w, c).
Proof.
  induction k as [|k IH]; intros i parents children w c;
    cbn [crossover_loop]; [done|].
  unfold mbind, M_bind, lift, draw_unit.
  rewrite with_counter_run, counted_draw_run.
  destruct (uniform_real_distribution 0%Q 1%Q w) as [u w1]. cbn [fst snd].
  destruct (vec_get parents i); [|done].
  destruct (vec_get parents (i + 1)); [|done].
  destruct (Qltb crossover_probability u).
  - rewrite counted_crossover_run.
    destruct (crossover_f x x0 w1) as [[ab w2]|]; [|done].
    by rewrite IH, with_counter_run.
  - by rewrite IH, with_counter_run.
Qed.

Lemma mutation_loop_counter (k : nat) :
  ∀ (i : Z) (children : list X) (w : W) (c : Z),
    mutation_loop (counted_draw uniform_real_distribution) counted_mutation
      mutation_probability k i children (w, c)
    = with_counter
        (mutation_loop uniform_real_distribution mutation_f
           mutation_probability k i children) (w, c).
Proof.
  induction k as [|k IH]; intros i children w c; cbn [mutation_loop]; [done|].
  unfold mbind, M_bind, lift, draw_unit.
  rewrite with_counter_run, counted_draw_run.
  destruct (uniform_real_distribution 0%Q 1%Q w) as [u w1]. cbn [fst snd].
  destruct (Qltb mutation_probability u).
  - destruct (vec_get children i); [|done].
    rewrite counted_mutation_run.
    destruct (mutation_f x w1) as [[c' w2]|]; [|done].
    destruct (vec_set children i c'); [|done].
    by rewrite IH, with_counter_run.
  - by rewrite IH, with_counter_run.
Qed.

Lemma generation_counter (n : Z) (population : list X) (w : W) (c : Z) :
  generation (counted_draw uniform_real_distribution) fitness_f
    counted_selection counted_crossover counted_mutation
    crossover_probability mutation_probability n population (w, c)
  = with_counter
      (generation uniform_real_distribution fitness_f selection_f
         crossover_f mutation_f crossover_probability mutation_probability
         n population) (w, c).
Proof.
  unfold generation, mbind, M_bind.
  rewrite select_parents_counter, !with_counter_run.
  destruct (select_parents selection_f _ _ _ _ w) as [[ps w1]|]; [|done].
  rewrite crossover_loop_counter, with_counter_run.
  destruct (crossover_loop _ _ _ _ _ _ _ w1) as [[children w2]|]; [|done].
  by rewrite mutation_loop_counter, with_counter_run.
Qed.

Lemma evolve_countdown (n : Z) (k : nat) :
  ∀ (fuel : nat) (population : list X) (w : W),
    (k < fuel)%nat →
    evolve (counted_draw uniform_real_distribution) fitness_f
      counted_selection counted_crossover counted_mutation
      crossover_probability mutation_probability term_condition_f
      fuel n population (w, Z.of_nat k)
    = match generations uniform_real_distribution fitness_f selection_f
              crossover_f mutation_f crossover_probability
              mutation_probability k n population w with
      | Some (final, w') => Some (final, (w', -1))
      | None => None
      end.
Proof.
  induction k as [|k IH]; intros fuel population w Hfuel;
    (destruct fuel as [|fuel]; [lia|]); cbn [evolve generations].
  - reflexivity.
  - unfold mbind, M_bind. unfold term_condition_f at 1. cbn [fst snd].
    destruct (decide _) as [_|?]; [|lia].
    replace (Z.of_nat (S k) =? 0) with false by (symmetry; apply Z.eqb_neq; lia).
    cbn [negb]. replace (Z.of_nat (S k) - 1) with (Z.of_nat k) by lia.
    rewrite generation_counter, with_counter_run.
    destruct (generation _ _ _ _ _ _ _ n population w) as [[children w1]|];
      [|done].
    apply IH. lia.
Qed.

Lemma evolve_countdown_negative (n : Z) (fuel : nat) :
  ∀ (population : list X) (w : W) (c : Z),
    c < 0 →
    evolve (counted_draw uniform_real_distribution) fitness_f
      counted_selection counted_crossover counted_mutation
      crossover_probability mutation_probability term_condition_f
      fuel n population (w, c) = None.
Proof.
  induction fuel as [|fuel IH]; intros population w c Hc; cbn [evolve];
    [done|].
  unfold mbind, M_bind. unfold term_condition_f at 1. cbn [fst snd].
  destruct (decide _) as [_|?]; [|done].
  replace (c =? 0) with false by (symmetry; apply Z.eqb_neq; lia).
  cbn [negb]. rewrite generation_counter, with_counter_run.
  destruct (generation _ _ _ _ _ _ _ n population w) as [[children w1]|];
    [|done].
  apply IH. lia.
Qed.

(** With the driver's countdown as termination condition and a counter that
    starts at [k >= 0], the algorithm runs exactly [k] generations, leaves
    the counter at [-1] and returns the fittest member of the population
    reached; it needs [k + 1] tests of the condition.  With a counter that
    starts below zero the loop is never left with a result. *)
Theorem genetic_algorithm_countdown
    (initial_population : list X) (w : W) (fuel : nat) :
  (∀ k : nat, (k < fuel)%nat →
     genetic_algorithm (counted_draw uniform_real_distribution) fitness_f
       counted_selection counted_crossover counted_mutation
       crossover_probability mutation_probability term_condition_f
       fuel initial_population (w, Z.of_nat k)
     = match generations uniform_real_distribution fitness_f selection_f
               crossover_f mutation_f crossover_probability
               mutation_probability k (size initial_population)
               initial_population w with
       | Some (final, w') =>
           match max_element fitness_f final with
           | Some best => Some (best, (w', -1))
           | None => None
           end
       | None => None
       end) ∧
  (∀ c : Z, c < 0 →
     genetic_algorithm (counted_draw uniform_real_distribution) fitness_f
       counted_selection counted_crossover counted_mutation
       crossover_probability mutation_probability term_condition_f
       fuel initial_population (w, c) = None).
Proof.
  split.
  - intros k Hk. unfold genetic_algorithm, mbind, M_bind, lift.
    rewrite evolve_countdown by done.
    destruct (generations _ _ _ _ _ _ _ k _ _ w) as [[final w']|]; [|done].
    by destruct (max_element fitness_f final).
  - intros c Hc. unfold genetic_algorithm, mbind, M_bind.
    by rewrite evolve_countdown_negative.
Qed.

End CounterFacts.

Lemma genetic_algorithm_countdown_witness :
  genetic_algorithm (counted_draw half_draw) inject_Z
    (counted_selection turn_selection) (counted_crossover swap_crossover)
    (counted_mutation bump_mutation)
    (9 # 10) (1 # 10) term_condition_f 3 [1; 2; 3; 4] (0%nat, 2)
  = Some (5, (16%nat, -1)) ∧
  genetic_algorithm (counted_draw half_draw) inject_Z
    (counted_selection turn_selection) (counted_crossover swap_crossover)
    (counted_mutation bump_mutation)
    (9 # 10) (1 # 10) term_condition_f 3 [1; 2; 3; 4] (0%nat, -1)
  = None.
Proof.
  destruct (genetic_algorithm_countdown half_draw inject_Z turn_selection
              swap_crossover bump_mutation (9 # 10) (1 # 10)
              [1; 2; 3; 4] 0%nat 3) as [Hrun Hneg].
  split.
  - exact (Hrun 2%nat ltac:(lia)).
  - exact (Hneg (-1) ltac:(lia)).
Defined.

Section Totality.

Context {W X : Type}.

Variable uniform_real_distribution : Q → Q → W → Q * W.
Variable fitness_f : X → Q.
Variable selection_f : list Q → M W Z.
Variable crossover_f : X → X → M W (X * X).
Variable mutation_f : X → M W X.
Variable crossover_probability : Q.
Variable mutation_probability : Q.

(** A property of specimens on which both closures are defined and which
    they preserve. *)
Variable P : X → Prop.
Hypothesis selection_ok : selection_in_range selection_f.
Hypothesis crossover_total : ∀ a b w, P a → P b →
  ∃ a' b' w', crossover_f a b w = Some ((a', b'), w') ∧ P a' ∧ P b'.
Hypothesis mutation_total : ∀ a w, P a →
  ∃ a' w', mutation_f a w = Some (a', w') ∧ P a'.

Local Abbreviation generation :=
  (generation uniform_real_distribution fitness_f selection_f crossover_f
     mutation_f crossover_probability mutation_probability).

Lemma crossover_loop_defined_on (k : nat) :
  ∀ (i : nat) (parents children : list X) (w : W),
    Forall P parents → (i + 2 * k ≤ length parents)%nat →
    is_Some (crossover_loop uniform_real_distribution crossover_f
               crossover_probability k (Z.of_nat i) parents children w).
Proof.
  induction k as [|k IH]; intros i parents children w Hps Hlen;
    cbn [crossover_loop]; [by eauto|].
  unfold mbind, M_bind, lift, draw_unit.
  destruct (uniform_real_distribution 0%Q 1%Q w) as [u w1].
  destruct (lookup_lt_is_Some_2 parents i) as [p1 Hp1]; [lia|].
  destruct (lookup_lt_is_Some_2 parents (S i)) as [p2 Hp2]; [lia|].
  replace (Z.of_nat i + 1) with (Z.of_nat (S i)) by lia.
  rewrite !vec_get_nat, Hp1, Hp2.
  replace (Z.of_nat i + 2) with (Z.of_nat (S (S i))) by lia.
  destruct (Qltb crossover_probability u).
  - destruct (crossover_total p1 p2 w1) as (a' & b' & w2 & -> & _).
    + by eapply (Forall_lookup_1 P parents).
    + by eapply (Forall_lookup_1 P parents).
    + apply IH; [done|lia].
  - apply IH; [done|lia].
Qed.

Lemma mutation_loop_defined_on (k : nat) :
  ∀ (i : nat) (children : list X) (w : W),
    Forall P children → (i + 2 * k ≤ length children)%nat →
    is_Some (mutation_loop uniform_real_distribution mutation_f
               mutation_probability k (Z.of_nat i) children w).
Proof.
  induction k as [|k IH]; intros i children w Hcs Hlen;
    cbn [mutation_loop]; [by eauto|].
  unfold mbind, M_bind, lift, draw_unit.
  destruct (uniform_real_distribution 0%Q 1%Q w) as [u w1].
  replace (Z.of_nat i + 2) with (Z.of_nat (S (S i))) by lia.
  destruct (Qltb mutation_probability u).
  - destruct (lookup_lt_is_Some_2 children i) as [c Hc]; [lia|].
    rewrite vec_get_nat, Hc.
    destruct (mutation_total c w1) as (c' & w2 & -> & Hc').
    { by eapply (Forall_lookup_1 P children). }
    rewrite vec_set_nat by lia.
    apply IH; [by apply Forall_insert | rewrite length_insert; lia].
  - apply IH; [done|lia].
Qed.

Lemma crossover_keeps_of_total : ∀ a b w a' b' w',
  P a → P b → crossover_f a b w = Some ((a', b'), w') → P a' ∧ P b'.
Proof.
  intros a b w a' b' w' Ha Hb Heq.
  destruct (crossover_total a b w Ha Hb) as (a2 & b2 & w2 & Heq2 & Ha2 & Hb2).
  rewrite Heq in Heq2. by injection Heq2 as <- <- <-.
Qed.

Lemma mutation_keeps_of_total : ∀ a w a' w',
  P a → mutation_f a w = Some (a', w') → P a'.
Proof.
  intros a w a' w' Ha Heq.
  destruct (mutation_total a w Ha) as (a2 & w2 & Heq2 & Ha2).
  rewrite Heq in Heq2. by injection Heq2 as <- <-.
Qed.

Lemma generation_total (n : Z) (population : list X) (w : W) :
  Forall P population → population ≠ [] →
  ∃ children w',
    generation n population w = Some (children, w') ∧
    Forall P children ∧ length children = (2 * pair_rounds n)%nat.
Proof.
  intros Hpop Hne.
  assert (is_Some (generation n population w)) as [[children w'] Heq].
  { unfold Engine.generation, mbind, M_bind.
    destruct (select_parents_defined fitness_f selection_f population
                (Z.to_nat n) selection_ok Hne [] w) as [[ps w1] Hps].
    rewrite Hps.
    pose proof (select_parents_keeps selection_f P population _ _ Hpop
                  [] w ps w1 (Forall_nil_2 P) Hps) as HPps.
    apply select_parents_length in Hps. simpl in Hps.
    assert (2 * pair_rounds n ≤ Z.to_nat n)%nat as Hr.
    { unfold pair_rounds. destruct (decide (0 ≤ n)).
      - pose proof (Z.mul_div_le n 2). lia.
      - rewrite Z2Nat.nonpos; [lia|]. apply Z.div_le_upper_bound; lia. }
    destruct (crossover_loop_defined_on (pair_rounds n) 0 ps [] w1 HPps)
      as [[children w2] Hc]; [lia|].
    change (Z.of_nat 0) with 0 in Hc. rewrite Hc.
    pose proof (crossover_loop_keeps uniform_real_distribution crossover_f
                  crossover_probability P crossover_keeps_of_total _ _ _ _ _
                  _ _ HPps (Forall_nil_2 P) Hc) as HPc.
    apply crossover_loop_length in Hc. simpl in Hc.
    apply (mutation_loop_defined_on (pair_rounds n) 0); [done|lia]. }
  exists children, w'. split; [done|]. split.
  - eapply (generation_keeps uniform_real_distribution fitness_f selection_f
              crossover_f mutation_f crossover_probability
              mutation_probability P crossover_keeps_of_total
              mutation_keeps_of_total); [exact Hpop | exact Heq].
  - by eapply generation_length.
Qed.

Lemma generations_total (k : nat) (n : Z) :
  2 ≤ n →
  ∀ (population : list X) (w : W),
    Forall P population → population ≠ [] →
    ∃ final w',
      generations uniform_real_distribution fitness_f selection_f
        crossover_f mutation_f crossover_probability mutation_probability
        k n population w = Some (final, w') ∧
      Forall P final ∧ final ≠ [].
Proof.
  intros Hn. induction k as [|k IH]; intros population w Hpop Hne;
    cbn [generations].
  - by exists population, w.
  - unfold mbind, M_bind.
    destruct (generation_total n population w Hpop Hne)
      as (children & w1 & -> & HPc & Hlen).
    apply IH; [done|]. intros ->. simpl in Hlen.
    assert (1 ≤ n `div` 2) by (apply Z.div_le_lower_bound; lia).
    unfold pair_rounds in Hlen. lia.
Qed.

End Totality.

(** *** What a generation hands to the closures *)

Section Calls.

Context {W X : Type}.

Variable uniform_real_distribution : Q → Q → W → Q * W.
Variable fitness_f : X → Q.
Variable selection_f : list Q → M W Z.
Variable crossover_f : X → X → M W (X * X).
Variable mutation_f : X → M W X.
Variable crossover_probability : Q.
Variable mutation_probability : Q.

Local Abbreviation select_parents := (select_parents selection_f).
Local Abbreviation crossover_loop :=
  (crossover_loop uniform_real_distribution crossover_f crossover_probability).
Local Abbreviation mutation_loop :=
  (mutation_loop uniform_real_distribution mutation_f mutation_probability).
Local Abbreviation generation :=
  (generation uniform_real_distribution fitness_f selection_f crossover_f
     mutation_f crossover_probability mutation_probability).

(** The loop calls the crossover and the mutation when the number drawn
    exceeds the probability: when every draw exceeds both probabilities,
    every pair of consecutive selected parents is handed to [crossover_f],
    and the first child of every pair to [mutation_f]; child [2j] is the
    mutation's answer on the first child of crossing parents [2j] and
    [2j + 1], child [2j + 1] is the second child of that crossing, and the
    generation is defined whenever the two closures are defined on, and
    preserve, some property of the selected parents.  When no draw
    exceeds either probability, a generation is no more than the selection:
    the children are the selected parents, without the last one when their
    number is odd. *)
Theorem generation_without_variation
    (n : Z) (population parents : list X) (w w1 : W) :
  select_parents (Z.to_nat n) population (map fitness_f population) [] w
    = Some (parents, w1) →
  ((∀ w, (crossover_probability < (uniform_real_distribution 0 1 w).1)%Q) →
   (∀ w, (mutation_probability < (uniform_real_distribution 0 1 w).1)%Q) →
   (∀ (children : list X) (w' : W),
      generation n population w = Some (children, w') →
      ∀ j, (j < pair_rounds n)%nat →
        ∃ p1 p2 wa a b wb wc c wd,
          parents !! (2 * j)%nat = Some p1 ∧
          parents !! (2 * j + 1)%nat = Some p2 ∧
          crossover_f p1 p2 wa = Some ((a, b), wb) ∧
          mutation_f a wc = Some (c, wd) ∧
          children !! (2 * j)%nat = Some c ∧
          children !! (2 * j + 1)%nat = Some b) ∧
   (∀ P : X → Prop,
      (∀ a b w, P a → P b →
         ∃ a' b' w', crossover_f a b w = Some ((a', b'), w') ∧ P a' ∧ P b') →
      (∀ a w, P a → ∃ a' w', mutation_f a w = Some (a', w') ∧ P a') →
      Forall P parents →
      is_Some (generation n population w))) ∧
  ((∀ w, ¬ (crossover_probability < (uniform_real_distribution 0 1 w).1)%Q) →
   (∀ w, ¬ (mutation_probability < (uniform_real_distribution 0 1 w).1)%Q) →
   ∃ w',
     generation n population w
       = Some (take (2 * pair_rounds n) parents, w')).
Proof.
  intros Hsel.
  pose proof (select_parents_length _ _ _ _ _ _ _ _ Hsel) as Hlen.
  simpl in Hlen.
  assert (2 * pair_rounds n ≤ Z.to_nat n)%nat as Hr.
  { unfold pair_rounds. destruct (decide (0 ≤ n)).
    - pose proof (Z.mul_div_le n 2). lia.
    - rewrite Z2Nat.nonpos; [lia|]. apply Z.div_le_upper_bound; lia. }
  split.
  - intros Hc Hm. split.
    + intros children w' Hgen j Hj.
      unfold Engine.generation, mbind, M_bind in Hgen. rewrite Hsel in Hgen.
      destruct (crossover_loop (pair_rounds n) 0 parents [] w1)
        as [[crossed w2]|] eqn:Hcross; [|done].
      destruct (crossover_loop_open uniform_real_distribution crossover_f
                  crossover_probability _ Hc 0 _ _ _ _ _ Hcross)
        as (rest & Hrest & Hpairs).
      simpl in Hrest. subst rest.
      destruct (Hpairs j Hj)
        as (p1 & p2 & wa & [a b] & wb & Hp1 & Hp2 & Hx & Ha & Hb).
      rewrite Nat.add_0_l in Hp1, Hp2. cbn [fst snd] in Ha, Hb.
      destruct (mutation_loop_open uniform_real_distribution mutation_f
                  mutation_probability _ Hm 0 _ _ _ _ Hgen j)
        as (c0 & wc & c & wd & Hc0 & Hmut & Hchild); [lia|].
      rewrite Ha in Hc0. injection Hc0 as <-.
      exists p1, p2, wa, a, b, wb, wc, c, wd.
      repeat (split; [done|]).
      destruct (mutation_loop_odd_untouched uniform_real_distribution
                  mutation_f mutation_probability (pair_rounds n) 0%nat
                  crossed w2 children w' Hgen) as [_ Hodd].
      rewrite Hodd; [done|]. exists j. lia.
    + intros P Hcross_total Hmut_total HP.
      unfold Engine.generation, mbind, M_bind. rewrite Hsel.
      destruct (crossover_loop_defined_on uniform_real_distribution
                  crossover_f crossover_probability P Hcross_total
                  (pair_rounds n) 0 parents [] w1 HP)
        as [[crossed w2] Hcross]; [lia|].
      change (Z.of_nat 0) with 0 in Hcross. rewrite Hcross.
      pose proof (crossover_loop_keeps uniform_real_distribution crossover_f
                    crossover_probability P
                    (crossover_keeps_of_total crossover_f P Hcross_total)
                    _ _ _ _ _ _ _ HP (Forall_nil_2 P) Hcross) as HPc.
      apply crossover_loop_length in Hcross. simpl in Hcross.
      apply (mutation_loop_defined_on uniform_real_distribution mutation_f
               mutation_probability P Hmut_total (pair_rounds n) 0);
        [done|lia].
  - intros Hc Hm. unfold Engine.generation, mbind, M_bind. rewrite Hsel.
    destruct (crossover_loop_shut uniform_real_distribution crossover_f
                crossover_probability (pair_rounds n) Hc 0 parents [] w1)
      as [w2 Hcross]; [lia|].
    change (Z.of_nat 0) with 0 in Hcross. rewrite Hcross. simpl.
    apply mutation_loop_shut. done.
Qed.

End Calls.

Lemma generation_without_variation_witness :
  (∃ p1 p2 wa a b wb wc c wd,
     [1; 2; 3] !! (2 * 0)%nat = Some p1 ∧
     [1; 2; 3] !! (2 * 0 + 1)%nat = Some p2 ∧
     swap_crossover p1 p2 wa = Some ((a, b), wb) ∧
     bump_mutation a wc = Some (c, wd) ∧
     [3; 1] !! (2 * 0)%nat = Some c ∧
     [3; 1] !! (2 * 0 + 1)%nat = Some b) ∧
  (∃ w',
     generation half_draw inject_Z turn_selection swap_crossover bump_mutation
       1 1 3 [1; 2; 3] 0%nat = Some ([1; 2], w')).
Proof.
  split.
  - destruct (generation_without_variation half_draw inject_Z turn_selection
                swap_crossover bump_mutation (1 # 10) (1 # 10) 3 [1; 2; 3]
                [1; 2; 3] 0%nat 3%nat eq_refl) as [Hopen _].
    destruct (Hopen ltac:(intros w; by vm_compute)
                ltac:(intros w; by vm_compute)) as [Hcalls _].
    apply (Hcalls [3; 1] 5%nat eq_refl 0%nat). vm_compute. lia.
  - destruct (generation_without_variation half_draw inject_Z turn_selection
                swap_crossover bump_mutation 1 1 3 [1; 2; 3] [1; 2; 3]
                0%nat 3%nat eq_refl) as [_ Hshut].
    apply Hshut; intros w; by vm_compute.
Defined.

(** *** The driver of 9/src/salesman.cpp *)

Section Driver.

Context {W : Type}.
Variable uniform_int_distribution : Z → Z → W → Z * W.
Variable uniform_real_distribution : Q → Q → W → Q * W.

(** The closures that the driver hands to the algorithm. *)
Definition selection_f (fitnesses : list Q) : M W Z :=
  first ← draw_int uniform_int_distribution 0 (size fitnesses - 1);
  second ← draw_int uniform_int_distribution 0 (size fitnesses - 1);
  f1 ← lift (vec_get fitnesses first);
  f2 ← lift (vec_get fitnesses second);
  mret (if Qltb f2 f1 then first else second).

Definition crossover_f (a b : alternative_solution_t)
    : M W (alternative_solution_t * alternative_solution_t) :=
  cross_point ← draw_int uniform_int_distribution 0 (size a - 1);
  lift (swap_genes (Z.to_nat (size a - cross_point)) cross_point a b a b).

Definition mutation_f (a : alternative_solution_t)
    : M W alternative_solution_t :=
  mut_point ← draw_int uniform_int_distribution 0 (size a - 2);
  v ← draw_int uniform_int_distribution 0 ((size a - 1) - mut_point);
  lift (vec_set a mut_point v).

End Driver.

Section DriverFacts.

Context {W : Type}.
Variable uniform_int_distribution : Z → Z → W → Z * W.
Variable uniform_real_distribution : Q → Q → W → Q * W.

(** The driver's fitness divides by the goal value, a member declared in
    salesman.hpp: any fitness will do here. *)
Variable fitness_f : alternative_solution_t → Q.
Variable crossover_probability : Q.
Variable mutation_probability : Q.

Hypothesis in_range : draws_in_range uniform_int_distribution.

Lemma mutation_f_total (n : nat) (a : alternative_solution_t) (w : W) :
  (2 ≤ n)%nat → well_formed n a →
  ∃ a' w',
    mutation_f uniform_int_distribution a w = Some (a', w') ∧
    well_formed n a'.
Proof.
  intros Hn [Hlen Hb].
  unfold mutation_f, mbind, M_bind, draw_int, lift, vec_set.
  unfold size. rewrite Hlen.
  destruct (decide (0 ≤ Z.of_nat n - 2)) as [Hn'|?]; [|lia].
  pose proof (in_range 0 (Z.of_nat n - 2) w Hn') as Hmp.
  destruct (uniform_int_distribution 0 (Z.of_nat n - 2) w) as [mp w2].
  simpl in Hmp.
  destruct (decide (0 ≤ Z.of_nat n - 1 - mp)) as [Hv|?]; [|lia].
  pose proof (in_range 0 (Z.of_nat n - 1 - mp) w2 Hv) as Hvr.
  destruct (uniform_int_distribution 0 (Z.of_nat n - 1 - mp) w2) as [v w3].
  simpl in Hvr.
  destruct (decide _) as [_|?]; [|lia].
  eexists _, _. split; [reflexivity|].
  split; [by rewrite length_insert|].
  intros i g. destruct (decide (Z.to_nat mp = i)) as [<-|Hne].
  - rewrite list_lookup_insert_eq by lia. intros [= <-]. lia.
  - rewrite list_lookup_insert_ne by done. apply Hb.
Qed.

Lemma crossover_f_total (n : nat) (a b : alternative_solution_t) (w : W) :
  (1 ≤ n)%nat → well_formed n a → well_formed n b →
  ∃ a' b' w',
    crossover_f uniform_int_distribution a b w = Some ((a', b'), w') ∧
    well_formed n a' ∧ well_formed n b'.
Proof.
  intros Hn Ha Hb.
  destruct (crossover_one_point_well_formed uniform_int_distribution
              n a b w in_range Ha Hb) as [Hwf Hdef].
  destruct (Hdef Hn) as [[[a' b'] w'] Heq].
  exists a', b', w'. split; [exact Heq|]. by eapply Hwf.
Qed.

(** The run that the driver starts: tournament selection, one-point
    crossover, the unconditional mutation, and a countdown from [k].  From at least
    two well-formed vectors of at least two genes it is defined throughout:
    it performs the [k] generations, ends with the counter at [-1], and
    returns a well-formed vector. *)
Theorem driver_run_well_formed
    (n k : nat) (initial_population : list alternative_solution_t) (w : W) :
  (2 ≤ n)%nat → (2 ≤ length initial_population)%nat →
  Forall (well_formed n) initial_population →
  ∃ best w',
    genetic_algorithm (counted_draw uniform_real_distribution) fitness_f
      (counted_selection (selection_f uniform_int_distribution))
      (counted_crossover (crossover_f uniform_int_distribution))
      (counted_mutation (mutation_f uniform_int_distribution))
      crossover_probability mutation_probability term_condition_f
      (S k) initial_population (w, Z.of_nat k)
    = Some (best, (w', -1)) ∧
    well_formed n best.
Proof.
  intros Hn HN Hwf.
  unfold genetic_algorithm, mbind, M_bind, lift.
  rewrite evolve_countdown by lia.
  destruct (generations_total uniform_real_distribution fitness_f
              (selection_f uniform_int_distribution)
              (crossover_f uniform_int_distribution)
              (mutation_f uniform_int_distribution)
              crossover_probability mutation_probability (well_formed n))
    with (k := k) (n := size initial_population)
         (population := initial_population) (w := w)
    as (final & w' & Hgen & HPf & Hne).
  - intros fit w0 Hfit.
    by apply (Selection.tournament_selection_defined
                uniform_int_distribution in_range).
  - intros a b w0 Ha Hb. apply crossover_f_total; [lia|done|done].
  - intros a w0 Ha. by apply mutation_f_total.
  - unfold size. lia.
  - done.
  - intros ->. simpl in HN. lia.
  - rewrite Hgen.
    destruct (max_element_defined fitness_f final Hne) as [best Hbest].
    rewrite Hbest. exists best, w'. split; [done|].
    apply max_element_spec in Hbest as [Hin _].
    by eapply (proj1 (list.Forall_forall (well_formed n) final)).
Qed.

End DriverFacts.

(** *** The size of the population *)

Section PopulationSize.

Context {W X : Type}.

Variable uniform_real_distribution : Q → Q → W → Q * W.
Variable fitness_f : X → Q.
Variable selection_f : list Q → M W Z.
Variable crossover_f : X → X → M W (X * X).
Variable mutation_f : X → M W X.
Variable crossover_probability : Q.
Variable mutation_probability : Q.
Variable term_condition_f : list X → M W bool.

Local Abbreviation generation :=
  (generation uniform_real_distribution fitness_f selection_f crossover_f
     mutation_f crossover_probability mutation_probability).
Local Abbreviation generations :=
  (generations uniform_real_distribution fitness_f selection_f crossover_f
     mutation_f crossover_probability mutation_probability).
Local Abbreviation evolve :=
  (evolve uniform_real_distribution fitness_f selection_f crossover_f
     mutation_f crossover_probability mutation_probability term_condition_f).

Lemma generations_length (k : nat) (n : Z) :
  ∀ (population : list X) (w : W) (final : list X) (w' : W),
    generations k n population w = Some (final, w') →
    (k = 0%nat ∧ final = population) ∨
    ((1 ≤ k)%nat ∧ length final = (2 * pair_rounds n)%nat).
Proof.
  induction k as [|k IH]; intros population w final w' H;
    cbn [Evolution.generations] in H.
  - injection H as <- <-. by left.
  - unfold mbind, M_bind in H.
    destruct (generation n population w) as [[children w1]|] eqn:Hg; [|done].
    apply generation_length in Hg. right. split; [lia|].
    apply IH in H as [[_ ->]|[_ H]]; done.
Qed.

(** C4, amended.  In a run started from [N >= 2] individuals, whatever the
    closures are, every generation leaves exactly [2 * (N / 2)] children,
    which replace the population: [N] when [N] is even and [N - 1] when [N]
    is odd; whenever the loop is left, the population is either the initial
    one (no generation ran) or has that size.  The generations are defined,
    one after the other, as soon as selection answers with an index and the
    two closures are defined on, and preserve, some property of the initial
    specimens: no closure has to answer outside of it. *)
Theorem population_size_after_generation (initial_population : list X) :
  (2 ≤ length initial_population)%nat →
  let n := size initial_population in
  let kept := (2 * (length initial_population / 2))%nat in
  (∀ (population : list X) (w : W) (children : list X) (w' : W),
     generation n population w = Some (children, w') →
     length children = kept) ∧
  (∀ fuel (w : W) (final : list X) (w' : W),
     evolve fuel n initial_population w = Some (final, w') →
     final = initial_population ∨ length final = kept) ∧
  (∀ P : X → Prop,
     selection_in_range selection_f →
     (∀ a b w, P a → P b →
        ∃ a' b' w', crossover_f a b w = Some ((a', b'), w') ∧ P a' ∧ P b') →
     (∀ a w, P a → ∃ a' w', mutation_f a w = Some (a', w') ∧ P a') →
     (∀ (population : list X) (w : W),
        Forall P population → population ≠ [] →
        ∃ children w',
          generation n population w = Some (children, w') ∧
          Forall P children ∧ length children = kept) ∧
     (Forall P initial_population →
      ∀ (k : nat) (w : W),
        ∃ final w',
          generations k n initial_population w = Some (final, w') ∧
          Forall P final ∧
          (k = 0%nat → final = initial_population) ∧
          ((1 ≤ k)%nat → length final = kept))) ∧
  (2 ≤ kept)%nat ∧
  (Nat.Even (length initial_population) → kept = length initial_population) ∧
  (Nat.Odd (length initial_population) →
   kept = (length initial_population - 1)%nat).
Proof.
  intros HN n kept. subst n kept.
  rewrite <- pair_rounds_size.
  split; [|split; [|split; [|split; [|split]]]].
  - intros population w children w' H. by eapply generation_length.
  - intros fuel w final w' H. by eapply evolve_length.
  - intros P Hsel Hcross Hmut. split.
    + intros population w Hpop Hne.
      by apply (generation_total uniform_real_distribution fitness_f
                  selection_f crossover_f mutation_f crossover_probability
                  mutation_probability P Hsel Hcross Hmut).
    + intros Hpop k w.
      destruct (generations_total uniform_real_distribution fitness_f
                  selection_f crossover_f mutation_f crossover_probability
                  mutation_probability P Hsel Hcross Hmut k
                  (size initial_population))
        with (population := initial_population) (w := w)
        as (final & w' & Hgen & HPf & _).
      * unfold size. lia.
      * done.
      * intros ->. simpl in HN. lia.
      * exists final, w'. split; [done|]. split; [done|].
        apply generations_length in Hgen as [[-> ->]|[Hk Hlen]].
        -- split; [done|]. intros ?. lia.
        -- split; [intros ->; lia | done].
  - rewrite pair_rounds_size.
    assert (1 ≤ length initial_population / 2)%nat
      by (apply Nat.div_le_lower_bound; lia).
    lia.
  - intros [m Hm]. rewrite pair_rounds_size, Hm.
    rewrite (Nat.mul_comm 2 m), Nat.div_mul by done. lia.
  - intros [m Hm]. rewrite pair_rounds_size, Hm.
    rewrite (Nat.mul_comm 2 m), Nat.div_add_l by done. simpl. lia.
Qed.

End PopulationSize.

(** Three well-formed vectors under the driver's own closures: a generation
    is defined and leaves two of them. *)
Lemma population_size_after_generation_witness :
  ∃ children w',
    generation Selection.midpoint_draw (λ a, inject_Z (foldr Z.add 0 a))
      (selection_f Variation.middle_draw) (crossover_f Variation.middle_draw)
      (mutation_f Variation.middle_draw) (9 # 10) (1 # 10)
      (size [[2; 1; 0]; [0; 0; 0]; [1; 1; 0]])
      [[2; 1; 0]; [0; 0; 0]; [1; 1; 0]] 0%nat
      = Some (children, w') ∧
    Forall (well_formed 3) children ∧
    length children = 2%nat.
Proof.
  destruct (population_size_after_generation Selection.midpoint_draw
              (λ a, inject_Z (foldr Z.add 0 a))
              (selection_f Variation.middle_draw)
              (crossover_f Variation.middle_draw)
              (mutation_f Variation.middle_draw) (9 # 10) (1 # 10)
              (λ _ w, Some (false, w)) [[2; 1; 0]; [0; 0; 0]; [1; 1; 0]])
    as (_ & _ & Hdef & _); [simpl; lia|].
  destruct (Hdef (well_formed 3)) as [Hgen _].
  - intros fit w Hfit.
    by apply (Selection.tournament_selection_defined Variation.middle_draw
                Variation.middle_draw_in_range).
  - intros a b w Ha Hb.
    apply (crossover_f_total Variation.middle_draw
             Variation.middle_draw_in_range); [lia|done|done].
  - intros a w Ha.
    apply (mutation_f_total Variation.middle_draw
             Variation.middle_draw_in_range); [lia|done].
  - apply (Hgen [[2; 1; 0]; [0; 0; 0]; [1; 1; 0]] 0%nat); [|done].
    apply list.Forall_forall. intros a Ha.
    repeat (apply elem_of_cons in Ha as [->|Ha]; [by apply well_formed_check|]).
    by apply elem_of_nil in Ha.
Defined.

Lemma driver_run_well_formed_witness :
  ∃ best w',
    genetic_algorithm (counted_draw Selection.midpoint_draw)
      (λ a, inject_Z (foldr Z.add 0 a))
      (counted_selection (selection_f Variation.middle_draw))
      (counted_crossover (crossover_f Variation.middle_draw))
      (counted_mutation (mutation_f Variation.middle_draw))
      (9 # 10) (1 # 10) term_condition_f
      3 [[2; 1; 0]; [0; 0; 0]; [1; 1; 0]] (0%nat, 2)
    = Some (best, (w', -1)) ∧
    well_formed 3 best.
Proof.
  apply (driver_run_well_formed Variation.middle_draw Selection.midpoint_draw
           (λ a, inject_Z (foldr Z.add 0 a)) (9 # 10) (1 # 10)
           Variation.middle_draw_in_range 3 2
           [[2; 1; 0]; [0; 0; 0]; [1; 1; 0]] 0%nat);
    [lia | simpl; lia |].
  apply list.Forall_forall. intros a Ha.
  repeat (apply elem_of_cons in Ha as [->|Ha]; [by apply well_formed_check|]).
  by apply elem_of_nil in Ha.
Defined.

End Evolution.

(** ** The island algorithm's operators: generic_ga.cpp *)

Module IslandGA.

Import Island.

(** [p2.erase(std::remove(p2.begin(), p2.end(), v), p2.end())]. *)
Definition erase_value (v : Z) (p2 : chromosome_t) : chromosome_t :=
  filter (λ x, x ≠ v) p2.

(** [for (int i = cpoint1; i < cpoint2; i++) erase p1.at(i) from p2], [k]
    rounds from [i]; [at] throws past the end of [p1]. *)
Fixpoint erase_segment (k : nat) (i : Z) (p1 p2 : chromosome_t)
    : option chromosome_t :=
  match k with
  | O => Some p2
  | S k' =>
      v ← vec_get p1 i;
      erase_segment k' (i + 1) p1 (erase_value v p2)
  end.

(** [p2.insert(p2.begin() + pos, p1.begin() + first, p1.begin() + last)]:
    all three iterators must lie within their vectors. *)
Definition insert_range (pos first last : Z) (p1 p2 : chromosome_t)
    : option chromosome_t :=
  if decide (0 ≤ pos ≤ size p2 ∧ 0 ≤ first ≤ last ∧ last ≤ size p1) then
    Some (take (Z.to_nat pos) p2
          ++ take (Z.to_nat (last - first)) (drop (Z.to_nat first) p1)
          ++ drop (Z.to_nat pos) p2)
  else None.

Definition swap_part (cpoint1 cpoint2 : Z) (p1 p2 : chromosome_t)
    : option chromosome_t :=
  p2 ← erase_segment (Z.to_nat (cpoint2 - cpoint1)) cpoint1 p1 p2;
  insert_range cpoint1 cpoint1 cpoint2 p1 p2.

Section Operators.

Context {W : Type}.
Variable uniform_int_distribution : Z → Z → W → Z * W.
Variable uniform_real_distribution : Q → Q → W → Q * W.
Variable fitness : chromosome_t → Q.

(** Tournament of size two; [at] throws out of range. *)
Definition select (population : list chromosome_t) : M W chromosome_t :=
  i1 ← draw_int uniform_int_distribution 0 (size population - 1);
  s1 ← lift (vec_get population i1);
  i2 ← draw_int uniform_int_distribution 0 (size population - 1);
  s2 ← lift (vec_get population i2);
  mret (if Qltb (fitness s2) (fitness s1) then s1 else s2).

Definition corssover_ox (p1 p2 : chromosome_t) (p_crossover : Q)
    : M W (chromosome_t * chromosome_t) :=
  cpoint1 ← draw_int uniform_int_distribution 0 (size p1 - 1);
  cpoint2 ← draw_int uniform_int_distribution 0 (size p1 - 1);
  let '(cpoint1, cpoint2) :=
    if decide (cpoint2 < cpoint1) then (cpoint2, cpoint1)
    else (cpoint1, cpoint2) in
  child1 ← lift (swap_part cpoint1 cpoint2 p1 p2);
  child2 ← lift (swap_part cpoint1 cpoint2 p2 p1);
  mret (child1, child2).

(** The two indices are drawn in the arguments of one call to [std::swap],
    in an order the language leaves open; exchanging the two elements gives
    the same vector either way. *)
Definition mutation_swap (c : chromosome_t) (pm : Q) : M W chromosome_t :=
  u ← draw_real uniform_real_distribution 0 1;
  if Qltb u pm then
    i ← draw_int uniform_int_distribution 0 (size c - 1);
    j ← draw_int uniform_int_distribution 0 (size c - 1);
    ci ← lift (vec_get c i);
    cj ← lift (vec_get c j);
    c ← lift (vec_set c i cj);
    lift (vec_set c j ci)
  else mret c.

End Operators.

Section Iteration.

Context {W : Type}.

(** The closures handed to ga_iteration. *)
Variable select : list chromosome_t → M W chromosome_t.
Variable crossover :
  chromosome_t → chromosome_t → Q → M W (chromosome_t * chromosome_t).
Variable mutation : chromosome_t → Q → M W chromosome_t.
Variable p_crossover : Q.
Variable p_mutation : Q.

(** The loop of ga_iteration read in sequence, [k] rounds from [c]. *)
Fixpoint ga_iteration_from (k : nat) (c : Z)
    (population new_pop : list chromosome_t) : M W (list chromosome_t) :=
  match k with
  | O => mret new_pop
  | S k' =>
      parent1 ← select population;
      parent2 ← select population;
      children ← crossover parent1 parent2 p_crossover;
      child1 ← mutation children.1 p_mutation;
      child2 ← mutation children.2 p_mutation;
      new_pop ← lift (vec_set new_pop (c * 2) child1);
      new_pop ← lift (vec_set new_pop (c * 2 + 1) child2);
      ga_iteration_from k' (c + 1) population new_pop
  end.

(** [new_pop] starts as [population.size()] empty chromosomes. *)
Definition ga_iteration (population : list chromosome_t)
    : M W (list chromosome_t) :=
  ga_iteration_from (Z.to_nat (size population / 2)) 0 population
    (replicate (length population) []).

End Iteration.

(** [dem * population.size() / dems], computed in [size_t]. *)
Definition deme_bound (population : list chromosome_t) (dems dem : Z) : Z :=
  to_size_t (to_size_t dem * size population) / to_size_t dems.

(** The deme handed to ga_iteration: the range between two such bounds,
    which must be a range of the population. *)
Definition deme_slice (population : list chromosome_t) (dems dem : Z)
    : option (list chromosome_t) :=
  let first := deme_bound population dems dem in
  let last := deme_bound population dems (dem + 1) in
  if decide (first ≤ last ≤ size population) then
    Some (take (Z.to_nat (last - first)) (drop (Z.to_nat first) population))
  else None.

Section Ep.

Context {W : Type}.
Variable uniform_int_distribution : Z → Z → W → Z * W.
Variable select : list chromosome_t → M W chromosome_t.
Variable crossover :
  chromosome_t → chromosome_t → Q → M W (chromosome_t * chromosome_t).
Variable mutation : chromosome_t → Q → M W chromosome_t.
Variable p_crossover : Q.
Variable p_mutation : Q.
Variable term_condition : list chromosome_t → Z → M W bool.
Variable dems : Z.
Variable migration_gap : Z.
Variable fitness : chromosome_t → Q.
(** [std::sort] with the comparator on fitness: see [Island]. *)
Variable sort : list chromosome_t → list chromosome_t.
Variable random_replace : bool.

(** The loop over the demes, [k] rounds from [dem]. *)
Fixpoint evolve_demes (k : nat) (dem : Z) (population : list chromosome_t)
    (new_populations : list (list chromosome_t))
    : M W (list (list chromosome_t)) :=
  match k with
  | O => mret new_populations
  | S k' =>
      slice ← lift (deme_slice population dems dem);
      new_pop ← ga_iteration select crossover mutation p_crossover
                  p_mutation slice;
      evolve_demes k' (dem + 1) population (new_populations ++ [new_pop])
  end.

(** The body of the loop of ep.  The remainder by [migration_gap] is that of
    C++, and undefined for a gap of zero; the parameter [migration_rate] is
    never read. *)
Definition ep_iteration (iteration : Z) (population : list chromosome_t)
    : M W (list chromosome_t) :=
  new_populations ← evolve_demes (Z.to_nat dems) 0 population [];
  event ← lift (if decide (migration_gap = 0) then None
                else Some (bool_decide
                             (Z.rem iteration migration_gap
                              = migration_gap - 1)));
  new_populations ←
    (if (event : bool)
     then migration uniform_int_distribution fitness sort random_replace
            new_populations
     else mret new_populations);
  mret (concat new_populations).

Fixpoint ep_loop (fuel : nat) (iteration : Z) (population : list chromosome_t)
    : M W (list chromosome_t) :=
  match fuel with
  | O => λ _, None
  | S fuel' =>
      continue ← term_condition population iteration;
      if (continue : bool) then
        population ← ep_iteration iteration population;
        ep_loop fuel' (iteration + 1) population
      else mret population
  end.

Definition ep (fuel : nat) (population : list chromosome_t)
    : M W (list chromosome_t) :=
  ep_loop fuel 0 population.

End Ep.

Lemma erase_segment_filter (p1 : chromosome_t) (k : nat) :
  ∀ (i : nat) (p2 : chromosome_t),
    (i + k ≤ length p1)%nat →
    erase_segment k (Z.of_nat i) p1 p2
    = Some (filter (λ x, x ∉ take k (drop i p1)) p2).
Proof.
  induction k as [|k IH]; intros i p2 Hlen; simpl.
  - f_equal. symmetry. change (take 0 (drop i p1)) with (@nil Z).
    induction p2 as [|x p2 IHp]; [done|].
    rewrite filter_cons_True by apply not_elem_of_nil. by rewrite IHp.
  - destruct (lookup_lt_is_Some_2 p1 i) as [v Hv]; [lia|].
    rewrite vec_get_nat, Hv. simpl.
    replace (Z.of_nat i + 1) with (Z.of_nat (S i)) by lia.
    rewrite IH by lia. f_equal. unfold erase_value.
    rewrite list_filter_filter. apply list_filter_iff. intros x.
    rewrite (drop_S _ _ _ Hv). simpl. rewrite not_elem_of_cons. tauto.
Qed.

Lemma swap_part_spec (p1 p2 : chromosome_t) (lo hi : nat) :
  NoDup p1 → p1 ≡ₚ p2 → (lo ≤ hi ≤ length p1)%nat →
  ∃ child,
    swap_part (Z.of_nat lo) (Z.of_nat hi) p1 p2 = Some child ∧
    child ≡ₚ p2 ∧
    take (hi - lo) (drop lo child) = take (hi - lo) (drop lo p1).
Proof.
  intros Hnd Hperm Hr. unfold swap_part.
  replace (Z.to_nat (Z.of_nat hi - Z.of_nat lo)) with (hi - lo)%nat by lia.
  rewrite erase_segment_filter by lia. simpl.
  set (seg := take (hi - lo) (drop lo p1)).
  set (rest := filter (λ x, x ∉ seg) p2).
  assert (length seg = (hi - lo)%nat) as Hlseg.
  { subst seg. rewrite length_take, length_drop. lia. }
  assert (seg `sublist_of` p1) as Hsub.
  { subst seg. etrans; [apply sublist_take | apply sublist_drop]. }
  assert (NoDup p2) as Hnd2 by (by rewrite <- Hperm).
  assert (seg ++ rest ≡ₚ p2) as Hsplit.
  { apply NoDup_Permutation; [|done|].
    - apply list.NoDup_app. split; [exact (sublist_NoDup _ _ Hnd Hsub)|]. split.
      + intros x Hx Hx'. apply list_elem_of_filter in Hx' as [Hno _]. done.
      + by apply list.NoDup_filter.
    - intros x. rewrite elem_of_app. subst rest.
      rewrite list_elem_of_filter. split.
      + intros [Hx|[_ Hx]]; [|done]. rewrite <- Hperm.
        by eapply elem_of_sublist.
      + intros Hx. destruct (decide (x ∈ seg)); [by left | by right]. }
  assert (length rest = (length p1 - (hi - lo))%nat) as Hlrest.
  { apply Permutation_length in Hsplit, Hperm.
    rewrite length_app in Hsplit. lia. }
  unfold insert_range, size.
  destruct (decide _) as [_|Hno]; [|lia].
  rewrite !Nat2Z.id.
  replace (Z.to_nat (Z.of_nat hi - Z.of_nat lo)) with (hi - lo)%nat by lia.
  fold seg. eexists. split; [reflexivity|]. split.
  - rewrite Permutation_app_swap_app, take_drop. done.
  - rewrite drop_app_length' by (rewrite length_take; lia).
    by rewrite take_app_length'.
Qed.

Lemma swap_one_permutation (c : chromosome_t) (j : nat) (x cj : Z) :
  c !! j = Some cj → cj :: <[j := x]> c ≡ₚ x :: c.
Proof.
  intros Hj. rewrite insert_take_drop by (by eapply lookup_lt_Some).
  rewrite <- (take_drop_middle c j cj Hj) at 3.
  rewrite <- !Permutation_middle. apply perm_swap.
Qed.

Lemma swap_two_permutation (c : chromosome_t) :
  ∀ (i j : nat) (ci cj : Z),
    c !! i = Some ci → c !! j = Some cj →
    <[j := ci]> (<[i := cj]> c) ≡ₚ c.
Proof.
  induction c as [|x c IH]; intros i j ci cj Hi Hj; [done|].
  destruct i as [|i], j as [|j]; simpl in *.
  - by simplify_eq.
  - injection Hi as ->. by apply swap_one_permutation.
  - injection Hj as ->. by apply swap_one_permutation.
  - constructor. by eapply IH.
Qed.

Section SelectFacts.

Context {W : Type}.
Variable uniform_int_distribution : Z → Z → W → Z * W.
Variable fitness : chromosome_t → Q.

Hypothesis in_range : draws_in_range uniform_int_distribution.

Lemma select_run (population : list chromosome_t) (w : W) :
  population ≠ [] →
  let d1 := uniform_int_distribution 0 (size population - 1) w in
  let d2 := uniform_int_distribution 0 (size population - 1) d1.2 in
  ∃ s1 s2,
    vec_get population d1.1 = Some s1 ∧
    vec_get population d2.1 = Some s2 ∧
    s1 ∈ population ∧ s2 ∈ population ∧
    select uniform_int_distribution fitness population w
      = Some (if Qltb (fitness s2) (fitness s1) then s1 else s2, d2.2).
Proof.
  intros Hne d1 d2. subst d2 d1.
  assert (0 ≤ size population - 1) as Hsz.
  { unfold size. destruct population; [done|]. simpl. lia. }
  pose proof (in_range 0 (size population - 1) w Hsz) as H1.
  pose proof (in_range 0 (size population - 1)
                (uniform_int_distribution 0 (size population - 1) w).2 Hsz)
    as H2.
  unfold select, mbind, M_bind, draw_int, lift, mret, M_ret, vec_get.
  destruct (decide (0 ≤ size population - 1)) as [_|?]; [|lia].
  destruct (uniform_int_distribution 0 (size population - 1) w) as [i1 w1].
  cbn [fst snd] in *.
  destruct (lookup_lt_is_Some_2 population (Z.to_nat i1)) as [s1 Hs1];
    [unfold size in *; lia|].
  destruct (decide (0 ≤ i1)) as [_|?]; [|lia].
  rewrite Hs1.
  destruct (uniform_int_distribution 0 (size population - 1) w1)
    as [i2 w2].
  cbn [fst snd] in *.
  destruct (lookup_lt_is_Some_2 population (Z.to_nat i2)) as [s2 Hs2];
    [unfold size in *; lia|].
  destruct (decide (0 ≤ i2)) as [_|?]; [|lia].
  rewrite Hs2. exists s1, s2.
  split; [done|]. split; [done|].
  split; [by eapply list_elem_of_lookup_2|].
  split; [by eapply list_elem_of_lookup_2|]. done.
Qed.

(** The tournament is undefined on an empty population; on any other it
    returns one of the two individuals it draws, a member of the population
    at least as fit as both, the second winning a tie. *)
Theorem select_picks_fitter (population : list chromosome_t) (w : W) :
  let d1 := uniform_int_distribution 0 (size population - 1) w in
  let d2 := uniform_int_distribution 0 (size population - 1) d1.2 in
  (population = [] →
   select uniform_int_distribution fitness population w = None) ∧
  (population ≠ [] →
   ∃ s1 s2 chosen,
     vec_get population d1.1 = Some s1 ∧
     vec_get population d2.1 = Some s2 ∧
     select uniform_int_distribution fitness population w
       = Some (chosen, d2.2) ∧
     chosen ∈ population ∧
     (chosen = s1 ∨ chosen = s2) ∧
     (fitness s1 <= fitness chosen)%Q ∧ (fitness s2 <= fitness chosen)%Q ∧
     ((fitness s1 <= fitness s2)%Q → chosen = s2)).
Proof.
  intros d1 d2. subst d2 d1. split.
  - intros ->. reflexivity.
  - intros Hne.
    destruct (select_run population w Hne)
      as (s1 & s2 & Hs1 & Hs2 & Hin1 & Hin2 & Heq).
    exists s1, s2. rewrite Heq.
    destruct (Qltb (fitness s2) (fitness s1)) eqn:E.
    + apply Qltb_lt in E. exists s1. repeat split; try done.
      * by left.
      * apply Qle_refl.
      * by apply Qlt_le_weak.
      * intros Hle. destruct (Qlt_not_le _ _ E Hle).
    + apply Qltb_ge in E. exists s2. repeat split; try done.
      * by right.
      * apply Qle_refl.
Qed.

End SelectFacts.

Section CrossoverFacts.

Context {W : Type}.
Variable uniform_int_distribution : Z → Z → W → Z * W.

Hypothesis in_range : draws_in_range uniform_int_distribution.

Lemma corssover_ox_run (p1 p2 : chromosome_t) (p_crossover : Q) (w : W) :
  p1 ≠ [] →
  let d1 := uniform_int_distribution 0 (size p1 - 1) w in
  let d2 := uniform_int_distribution 0 (size p1 - 1) d1.2 in
  let lo := Z.to_nat (Z.min d1.1 d2.1) in
  let hi := Z.to_nat (Z.max d1.1 d2.1) in
  (lo ≤ hi ≤ length p1)%nat ∧
  corssover_ox uniform_int_distribution p1 p2 p_crossover w
  = match swap_part (Z.of_nat lo) (Z.of_nat hi) p1 p2 with
    | Some child1 =>
        match swap_part (Z.of_nat lo) (Z.of_nat hi) p2 p1 with
        | Some child2 => Some ((child1, child2), d2.2)
        | None => None
        end
    | None => None
    end.
Proof.
  intros Hne d1 d2 lo hi.
  assert (0 ≤ size p1 - 1) as Hsz.
  { unfold size. destruct p1; [done|]. simpl. lia. }
  pose proof (in_range 0 (size p1 - 1) w Hsz) as H1.
  pose proof (in_range 0 (size p1 - 1)
                (uniform_int_distribution 0 (size p1 - 1) w).2 Hsz) as H2.
  subst lo hi d2 d1.
  unfold corssover_ox, mbind, M_bind, draw_int, lift, mret, M_ret.
  destruct (decide _) as [_|?]; [|lia].
  destruct (uniform_int_distribution 0 (size p1 - 1) w) as [c1 w1].
  simpl in *.
  destruct (uniform_int_distribution 0 (size p1 - 1) w1) as [c2 w2].
  simpl in *. unfold size in *.
  split; [lia|].
  assert ((if decide (c2 < c1) then (c2, c1) else (c1, c2))
          = (Z.of_nat (Z.to_nat (Z.min c1 c2)),
             Z.of_nat (Z.to_nat (Z.max c1 c2)))) as ->.
  { destruct (decide (c2 < c1)); f_equal; lia. }
  destruct (swap_part _ _ p1 p2); [|done].
  by destruct (swap_part _ _ p2 p1).
Qed.

(** The order crossover of two permutations of the same distinct cities is
    defined and gives two permutations of those cities; each child carries,
    between the two cut points, the genes that its first parent has there.
    The crossover probability handed to it plays no part. *)
Theorem corssover_ox_permutations
    (p1 p2 : chromosome_t) (p_crossover : Q) (w : W) :
  NoDup p1 → p1 ≡ₚ p2 → p1 ≠ [] →
  let d1 := uniform_int_distribution 0 (size p1 - 1) w in
  let d2 := uniform_int_distribution 0 (size p1 - 1) d1.2 in
  let lo := Z.to_nat (Z.min d1.1 d2.1) in
  let hi := Z.to_nat (Z.max d1.1 d2.1) in
  ∃ child1 child2,
    corssover_ox uniform_int_distribution p1 p2 p_crossover w
      = Some ((child1, child2), d2.2) ∧
    child1 ≡ₚ p1 ∧ child2 ≡ₚ p1 ∧
    take (hi - lo) (drop lo child1) = take (hi - lo) (drop lo p1) ∧
    take (hi - lo) (drop lo child2) = take (hi - lo) (drop lo p2) ∧
    ∀ q, corssover_ox uniform_int_distribution p1 p2 q w
         = corssover_ox uniform_int_distribution p1 p2 p_crossover w.
Proof.
  intros Hnd Hperm Hne d1 d2 lo hi.
  destruct (corssover_ox_run p1 p2 p_crossover w Hne) as [Hr Hrun].
  fold d1 d2 lo hi in Hr, Hrun.
  assert (NoDup p2) as Hnd2 by (by rewrite <- Hperm).
  destruct (swap_part_spec p1 p2 lo hi Hnd Hperm Hr) as (ch1 & Hs1 & Hp1 & Hk1).
  destruct (swap_part_spec p2 p1 lo hi Hnd2 (symmetry Hperm))
    as (ch2 & Hs2 & Hp2 & Hk2).
  { apply Permutation_length in Hperm. lia. }
  rewrite Hs1, Hs2 in Hrun. exists ch1, ch2.
  split; [done|]. split; [by rewrite Hp1|]. split; [done|].
  split; [done|]. split; [done|]. done.
Qed.

Lemma corssover_ox_defined (p1 p2 : chromosome_t) (p_crossover : Q) (w : W) :
  NoDup p1 → p1 ≡ₚ p2 → p1 ≠ [] →
  ∃ child1 child2 w',
    corssover_ox uniform_int_distribution p1 p2 p_crossover w
      = Some ((child1, child2), w') ∧
    child1 ≡ₚ p2 ∧ child2 ≡ₚ p1.
Proof.
  intros Hnd Hperm Hne.
  destruct (corssover_ox_run p1 p2 p_crossover w Hne) as [Hr Hrun].
  set (d1 := uniform_int_distribution 0 (size p1 - 1) w) in *.
  set (d2 := uniform_int_distribution 0 (size p1 - 1) d1.2) in *.
  set (lo := Z.to_nat (Z.min d1.1 d2.1)) in *.
  set (hi := Z.to_nat (Z.max d1.1 d2.1)) in *.
  assert (NoDup p2) as Hnd2 by (by rewrite <- Hperm).
  destruct (swap_part_spec p1 p2 lo hi Hnd Hperm Hr) as (ch1 & Hs1 & Hp1 & _).
  destruct (swap_part_spec p2 p1 lo hi Hnd2 (symmetry Hperm))
    as (ch2 & Hs2 & Hp2 & _).
  { apply Permutation_length in Hperm. lia. }
  rewrite Hs1, Hs2 in Hrun. by eexists ch1, ch2, _.
Qed.

End CrossoverFacts.

Section MutationFacts.

Context {W : Type}.
Variable uniform_int_distribution : Z → Z → W → Z * W.
Variable uniform_real_distribution : Q → Q → W → Q * W.

Hypothesis in_range : draws_in_range uniform_int_distribution.

Lemma mutation_swap_shut (c : chromosome_t) (pm : Q) (w : W) :
  let du := uniform_real_distribution 0%Q 1%Q w in
  ¬ (du.1 < pm)%Q →
  mutation_swap uniform_int_distribution uniform_real_distribution c pm w
    = Some (c, du.2).
Proof.
  intros du. subst du.
  unfold mutation_swap, mbind, M_bind, draw_real, mret, M_ret.
  destruct (uniform_real_distribution 0%Q 1%Q w) as [u w1]. simpl.
  intros Hbelow. destruct (Qltb u pm) eqn:E; [|done].
  apply Qltb_lt in E. done.
Qed.

Lemma mutation_swap_open (c : chromosome_t) (pm : Q) (w : W) :
  let du := uniform_real_distribution 0%Q 1%Q w in
  let di := uniform_int_distribution 0 (size c - 1) du.2 in
  let dj := uniform_int_distribution 0 (size c - 1) di.2 in
  (du.1 < pm)%Q → c ≠ [] →
  ∃ ci cj,
    c !! Z.to_nat di.1 = Some ci ∧ c !! Z.to_nat dj.1 = Some cj ∧
    mutation_swap uniform_int_distribution uniform_real_distribution c pm w
      = Some (<[Z.to_nat dj.1 := ci]> (<[Z.to_nat di.1 := cj]> c), dj.2).
Proof.
  intros du di dj. subst dj di du.
  unfold mutation_swap, mbind, M_bind, draw_real, draw_int, lift, mret, M_ret.
  destruct (uniform_real_distribution 0%Q 1%Q w) as [u w1]. simpl.
  intros Hbelow Hne. destruct (Qltb u pm) eqn:E.
  2:{ apply Qltb_ge in E. destruct (Qlt_not_le _ _ Hbelow E). }
  assert (0 ≤ size c - 1) as Hsz.
  { unfold size. destruct c; [done|]. simpl. lia. }
  pose proof (in_range 0 (size c - 1) w1 Hsz) as Hi.
  pose proof (in_range 0 (size c - 1)
                (uniform_int_distribution 0 (size c - 1) w1).2 Hsz) as Hj.
  destruct (decide _) as [_|?]; [|lia].
  destruct (uniform_int_distribution 0 (size c - 1) w1) as [i w2].
  simpl in *.
  destruct (uniform_int_distribution 0 (size c - 1) w2) as [j w3].
  simpl in *. unfold size in *.
  destruct (lookup_lt_is_Some_2 c (Z.to_nat i)) as [ci Hci]; [lia|].
  destruct (lookup_lt_is_Some_2 c (Z.to_nat j)) as [cj Hcj]; [lia|].
  unfold vec_get, vec_set.
  destruct (decide (0 ≤ i)) as [_|?]; [|lia].
  destruct (decide (0 ≤ j)) as [_|?]; [|lia].
  rewrite Hci, Hcj.
  destruct (decide (0 ≤ i < Z.of_nat (length c))) as [_|?]; [|lia].
  rewrite length_insert.
  destruct (decide (0 ≤ j < Z.of_nat (length c))) as [_|?]; [|lia].
  by exists ci, cj.
Qed.

(** The swap mutation returns its argument untouched when the number drawn
    is not below [pm]; otherwise it is undefined on an empty chromosome and
    on any other it exchanges the genes at the two positions drawn, so that
    the result is a permutation of the argument. *)
Theorem mutation_swap_permutation (c : chromosome_t) (pm : Q) (w : W) :
  let du := uniform_real_distribution 0%Q 1%Q w in
  let di := uniform_int_distribution 0 (size c - 1) du.2 in
  let dj := uniform_int_distribution 0 (size c - 1) di.2 in
  (¬ (du.1 < pm)%Q →
   mutation_swap uniform_int_distribution uniform_real_distribution c pm w
     = Some (c, du.2)) ∧
  ((du.1 < pm)%Q → c = [] →
   mutation_swap uniform_int_distribution uniform_real_distribution c pm w
     = None) ∧
  ((du.1 < pm)%Q → c ≠ [] →
   ∃ c',
     mutation_swap uniform_int_distribution uniform_real_distribution c pm w
       = Some (c', dj.2) ∧
     c' ≡ₚ c ∧
     c' !! Z.to_nat di.1 = c !! Z.to_nat dj.1 ∧
     c' !! Z.to_nat dj.1 = c !! Z.to_nat di.1 ∧
     ∀ k : nat, k ≠ Z.to_nat di.1 → k ≠ Z.to_nat dj.1 → c' !! k = c !! k).
Proof.
  intros du di dj. split; [|split].
  - apply mutation_swap_shut.
  - subst dj di du. intros Hbelow ->.
    unfold mutation_swap, mbind, M_bind, draw_real, draw_int.
    destruct (uniform_real_distribution 0%Q 1%Q w) as [u w1]. simpl in *.
    destruct (Qltb u pm) eqn:E; [done|].
    apply Qltb_ge in E. destruct (Qlt_not_le _ _ Hbelow E).
  - intros Hbelow Hne.
    destruct (mutation_swap_open c pm w Hbelow Hne) as (ci & cj & Hci & Hcj & Heq).
    fold du di dj in Hci, Hcj, Heq.
    set (i := Z.to_nat di.1) in *. set (j := Z.to_nat dj.1) in *.
    pose proof (lookup_lt_Some _ _ _ Hci) as Hi.
    pose proof (lookup_lt_Some _ _ _ Hcj) as Hj.
    eexists. split; [exact Heq|].
    split; [by eapply swap_two_permutation|].
    split; [|split].
    + destruct (decide (i = j)) as [Hij|Hij].
      * rewrite Hij in *.
        rewrite list_lookup_insert_eq by (rewrite length_insert; lia).
        congruence.
      * rewrite list_lookup_insert_ne by done.
        rewrite list_lookup_insert_eq by lia. done.
    + rewrite list_lookup_insert_eq by (rewrite length_insert; lia). done.
    + intros k Hki Hkj. by rewrite !list_lookup_insert_ne.
Qed.

Lemma mutation_swap_defined (c : chromosome_t) (pm : Q) (w : W) :
  c ≠ [] →
  ∃ c' w',
    mutation_swap uniform_int_distribution uniform_real_distribution c pm w
      = Some (c', w') ∧ c' ≡ₚ c.
Proof.
  intros Hne.
  destruct (Qlt_le_dec (uniform_real_distribution 0%Q 1%Q w).1 pm)
    as [Hlt|Hge].
  - destruct (mutation_swap_open c pm w Hlt Hne) as (ci & cj & Hci & Hcj & Heq).
    eexists _, _. split; [exact Heq|]. by eapply swap_two_permutation.
  - eexists _, _. split; [apply mutation_swap_shut; by apply Qle_not_lt|]. done.
Qed.

End MutationFacts.

Section IterationFacts.

Context {W : Type}.
Variable select : list chromosome_t → M W chromosome_t.
Variable crossover :
  chromosome_t → chromosome_t → Q → M W (chromosome_t * chromosome_t).
Variable mutation : chromosome_t → Q → M W chromosome_t.
Variable p_crossover : Q.
Variable p_mutation : Q.

Local Abbreviation ga_iteration_from :=
  (ga_iteration_from select crossover mutation p_crossover p_mutation).
Local Abbreviation ga_iteration :=
  (ga_iteration select crossover mutation p_crossover p_mutation).

Lemma ga_iteration_from_length (population : list chromosome_t) (k : nat) :
  ∀ (c : Z) (new_pop : list chromosome_t) (w : W) r w',
    ga_iteration_from k c population new_pop w = Some (r, w') →
    length r = length new_pop.
Proof.
  induction k as [|k IH]; intros c new_pop w r w' H;
    cbn [IslandGA.ga_iteration_from] in H.
  - by injection H as <- <-.
  - unfold mbind, M_bind, lift in H.
    destruct (select population w) as [[parent1 w1]|]; [|done].
    destruct (select population w1) as [[parent2 w2]|]; [|done].
    destruct (crossover parent1 parent2 p_crossover w2)
      as [[children w3]|]; [|done].
    destruct (mutation children.1 p_mutation w3) as [[child1 w4]|]; [|done].
    destruct (mutation children.2 p_mutation w4) as [[child2 w5]|]; [|done].
    unfold vec_set in H.
    destruct (decide _); [|done]. rewrite length_insert in H.
    destruct (decide _); [|done].
    apply IH in H. by rewrite !length_insert in H.
Qed.

Lemma ga_iteration_length (population : list chromosome_t) (w : W) r w' :
  ga_iteration population w = Some (r, w') → length r = length population.
Proof.
  unfold IslandGA.ga_iteration. intros H.
  apply ga_iteration_from_length in H. by rewrite length_replicate in H.
Qed.

Section Slots.

(** A property of chromosomes that the closures establish and preserve on
    the population at hand. *)
Variable P : chromosome_t → Prop.
Variable population : list chromosome_t.
Hypothesis select_ok : ∀ w,
  ∃ s w', select population w = Some (s, w') ∧ P s.
Hypothesis crossover_ok : ∀ a b w, P a → P b →
  ∃ c1 c2 w', crossover a b p_crossover w = Some ((c1, c2), w') ∧ P c1 ∧ P c2.
Hypothesis mutation_ok : ∀ c w, P c →
  ∃ c' w', mutation c p_mutation w = Some (c', w') ∧ P c'.

Lemma ga_iteration_from_slots (k : nat) :
  ∀ (c : nat) (new_pop : list chromosome_t) (w : W),
    (2 * (c + k) ≤ length new_pop)%nat →
    ∃ r w',
      ga_iteration_from k (Z.of_nat c) population new_pop w = Some (r, w') ∧
      length r = length new_pop ∧
      (∀ (j : nat) x, (2 * c ≤ j < 2 * (c + k))%nat → r !! j = Some x → P x) ∧
      (∀ j : nat, (j < 2 * c ∨ 2 * (c + k) ≤ j)%nat → r !! j = new_pop !! j).
Proof.
  induction k as [|k IH]; intros c new_pop w Hlen;
    cbn [IslandGA.ga_iteration_from].
  - exists new_pop, w. split; [done|]. split; [done|].
    split; [intros; lia | done].
  - unfold mbind, M_bind, lift.
    destruct (select_ok w) as (parent1 & w1 & -> & HP1).
    destruct (select_ok w1) as (parent2 & w2 & -> & HP2).
    destruct (crossover_ok parent1 parent2 w2 HP1 HP2)
      as (c1 & c2 & w3 & -> & Hc1 & Hc2).
    cbn [fst snd].
    destruct (mutation_ok c1 w3 Hc1) as (child1 & w4 & -> & Hm1).
    destruct (mutation_ok c2 w4 Hc2) as (child2 & w5 & -> & Hm2).
    replace (Z.of_nat c * 2) with (Z.of_nat (2 * c)) by lia.
    replace (Z.of_nat (2 * c) + 1) with (Z.of_nat (2 * c + 1)) by lia.
    rewrite vec_set_nat by lia.
    rewrite vec_set_nat by (rewrite length_insert; lia).
    replace (Z.of_nat c + 1) with (Z.of_nat (S c)) by lia.
    destruct (IH (S c) (<[(2 * c + 1)%nat := child2]>
                          (<[(2 * c)%nat := child1]> new_pop)) w5)
      as (r & w' & Heq & Hl & Hin & Hout).
    { rewrite !length_insert. lia. }
    rewrite Heq. exists r, w'. split; [done|].
    rewrite !length_insert in Hl. split; [done|]. split.
    + intros j x Hj Hx.
      destruct (decide (2 * S c ≤ j)%nat) as [Hhi|Hlo].
      * apply (Hin j x); [lia|done].
      * rewrite Hout in Hx by lia.
        destruct (decide (j = 2 * c + 1)%nat) as [->|Hne].
        -- rewrite list_lookup_insert_eq in Hx
             by (rewrite length_insert; lia).
           by injection Hx as <-.
        -- rewrite list_lookup_insert_ne in Hx by lia.
           assert (j = 2 * c)%nat as -> by lia.
           rewrite list_lookup_insert_eq in Hx by lia.
           by injection Hx as <-.
    + intros j Hj. rewrite Hout by lia.
      rewrite !list_lookup_insert_ne by lia. done.
Qed.

End Slots.

Lemma ga_iteration_run
    (P : chromosome_t → Prop) (population : list chromosome_t) (w : W) :
  (∀ w, ∃ s w', select population w = Some (s, w') ∧ P s) →
  (∀ a b w, P a → P b →
     ∃ c1 c2 w',
       crossover a b p_crossover w = Some ((c1, c2), w') ∧ P c1 ∧ P c2) →
  (∀ c w, P c → ∃ c' w', mutation c p_mutation w = Some (c', w') ∧ P c') →
  ∃ new_pop w',
    ga_iteration population w = Some (new_pop, w') ∧
    length new_pop = length population ∧
    (∀ (j : nat) x, (j < 2 * (length population / 2))%nat →
       new_pop !! j = Some x → P x) ∧
    (∀ j : nat, (2 * (length population / 2) ≤ j)%nat →
       new_pop !! j = replicate (length population) [] !! j).
Proof.
  intros Hsel Hcross Hmut. unfold IslandGA.ga_iteration.
  assert (Z.to_nat (size population / 2) = (length population / 2)%nat)
    as ->.
  { unfold size. rewrite <- (Nat2Z.id (length population / 2)). f_equal.
    by rewrite Nat2Z.inj_div. }
  pose proof (Nat.div_mod_eq (length population) 2) as Hdiv.
  pose proof (Nat.mod_upper_bound (length population) 2) as Hmod.
  destruct (ga_iteration_from_slots P population Hsel Hcross Hmut
              (length population / 2) 0
              (replicate (length population) []) w)
    as (r & w' & Heq & Hl & Hin & Hout).
  { rewrite length_replicate. lia. }
  change (Z.of_nat 0) with 0 in Heq. rewrite Heq.
  rewrite length_replicate in Hl.
  exists r, w'. split; [done|]. split; [done|]. split.
  - intros j x Hj Hx. apply (Hin j x); [lia|done].
  - intros j Hj. apply Hout. right. lia.
Qed.

(** One generation of a deme, with closures that are defined on the deme
    and on what they produce and that keep a property [P]: the new deme has
    as many slots as the old one; the slots filled by the loop, two per
    round, hold chromosomes with [P]; for a deme of odd size the last slot
    is left as the empty chromosome. *)
Theorem ga_iteration_slots
    (P : chromosome_t → Prop) (population : list chromosome_t) (w : W) :
  (∀ w, ∃ s w', select population w = Some (s, w') ∧ P s) →
  (∀ a b w, P a → P b →
     ∃ c1 c2 w',
       crossover a b p_crossover w = Some ((c1, c2), w') ∧ P c1 ∧ P c2) →
  (∀ c w, P c → ∃ c' w', mutation c p_mutation w = Some (c', w') ∧ P c') →
  ∃ new_pop w',
    ga_iteration population w = Some (new_pop, w') ∧
    length new_pop = length population ∧
    (∀ (j : nat) x, (j < 2 * (length population / 2))%nat →
       new_pop !! j = Some x → P x) ∧
    (Nat.Odd (length population) →
     new_pop !! (length population - 1)%nat = Some []).
Proof.
  intros Hsel Hcross Hmut.
  destruct (ga_iteration_run P population w Hsel Hcross Hmut)
    as (new_pop & w' & Heq & Hlen & Hin & Hout).
  exists new_pop, w'. split; [done|]. split; [done|]. split; [done|].
  intros [m Hm]. rewrite Hout.
  - apply lookup_replicate_2. lia.
  - rewrite Hm. replace (2 * m + 1)%nat with (1 + m * 2)%nat by lia.
    rewrite Nat.div_add by lia. simpl. lia.
Qed.

End IterationFacts.

Section Composition.

Context {W : Type}.
Variable uniform_int_distribution : Z → Z → W → Z * W.
Variable uniform_real_distribution : Q → Q → W → Q * W.
Variable fitness : chromosome_t → Q.

Hypothesis in_range : draws_in_range uniform_int_distribution.

(** One generation of a deme with the program's own closures: the
    tournament, the order crossover and the swap mutation.  On a non-empty
    deme of permutations of the same distinct cities it is defined; the new
    deme has as many slots as the old one, those filled by the loop hold
    permutations of the cities, and for a deme of odd size the last slot is
    the empty chromosome. *)
Theorem ga_iteration_permutations
    (cities : chromosome_t) (population : list chromosome_t)
    (p_crossover p_mutation : Q) (w : W) :
  NoDup cities → cities ≠ [] → population ≠ [] →
  Forall (λ c, c ≡ₚ cities) population →
  ∃ new_pop w',
    ga_iteration (select uniform_int_distribution fitness)
      (corssover_ox uniform_int_distribution)
      (mutation_swap uniform_int_distribution uniform_real_distribution)
      p_crossover p_mutation population w = Some (new_pop, w') ∧
    length new_pop = length population ∧
    (∀ (j : nat) x, (j < 2 * (length population / 2))%nat →
       new_pop !! j = Some x → x ≡ₚ cities) ∧
    (Nat.Odd (length population) →
     new_pop !! (length population - 1)%nat = Some []).
Proof.
  intros Hnd Hcities Hpop Hall.
  assert (∀ c, c ≡ₚ cities → c ≠ []) as Hnonempty.
  { intros c Hc ->. apply Permutation_nil_l in Hc. by subst. }
  destruct (ga_iteration_run (select uniform_int_distribution fitness)
              (corssover_ox uniform_int_distribution)
              (mutation_swap uniform_int_distribution
                 uniform_real_distribution)
              p_crossover p_mutation (λ c, c ≡ₚ cities) population w)
    as (new_pop & w' & Heq & Hlen & Hin & Hout).
  - intros w0.
    destruct (select_run uniform_int_distribution fitness in_range
                population w0 Hpop) as (s1 & s2 & _ & _ & Hin1 & Hin2 & Heq).
    eexists _, _. split; [exact Heq|].
    destruct (Qltb (fitness s2) (fitness s1));
      by apply (proj1 (list.Forall_forall _ population) Hall).
  - intros a b w0 Ha Hb.
    destruct (corssover_ox_defined uniform_int_distribution in_range
                a b p_crossover w0) as (c1 & c2 & w1 & Heq & H1 & H2).
    + by rewrite Ha.
    + by rewrite Ha, Hb.
    + by apply Hnonempty.
    + exists c1, c2, w1. split; [exact Heq|]. split; by etrans.
  - intros c w0 Hc.
    destruct (mutation_swap_defined uniform_int_distribution
                uniform_real_distribution in_range c p_mutation w0)
      as (c' & w1 & Heq & Hperm); [by apply Hnonempty|].
    exists c', w1. split; [exact Heq|]. by etrans.
  - exists new_pop, w'. split; [done|]. split; [done|]. split; [done|].
    intros [m Hm]. rewrite Hout.
    + apply lookup_replicate_2. lia.
    + rewrite Hm. replace (2 * m + 1)%nat with (1 + m * 2)%nat by lia.
      rewrite Nat.div_add by lia. simpl. lia.
Qed.

End Composition.

Lemma deme_bound_plain (population : list chromosome_t) (dems dem : Z) :
  1 ≤ dems < 2 ^ 31 → 0 ≤ dem ≤ dems → dems * size population < 2 ^ 64 →
  deme_bound population dems dem = (dem * size population) `div` dems.
Proof.
  intros Hd Hdem Hsz. unfold deme_bound, to_size_t.
  assert (0 ≤ size population) by (unfold size; lia).
  rewrite (Z.mod_small dem) by lia.
  rewrite (Z.mod_small dems) by lia.
  rewrite (Z.mod_small (dem * size population)); [reflexivity|].
  split; [nia|].
  apply Z.le_lt_trans with (dems * size population); [nia|exact Hsz].
Qed.

Lemma deme_step (S D x : Z) :
  1 ≤ D → 0 ≤ S → 0 ≤ x →
  x `div` D + S `div` D ≤ (x + S) `div` D ≤ x `div` D + S `div` D + 1.
Proof.
  intros HD HS Hx.
  pose proof (Z.div_mod x D ltac:(lia)) as Ex.
  pose proof (Z.div_mod S D ltac:(lia)) as ES.
  pose proof (Z.mod_pos_bound x D ltac:(lia)) as Bx.
  pose proof (Z.mod_pos_bound S D ltac:(lia)) as BS.
  replace (x + S) with ((x `div` D + S `div` D) * D + (x `mod` D + S `mod` D))
    by lia.
  rewrite Z.div_add_l by lia.
  assert (0 ≤ (x `mod` D + S `mod` D) `div` D) by (apply Z.div_pos; lia).
  assert ((x `mod` D + S `mod` D) `div` D < 2)
    by (apply Z.div_lt_upper_bound; lia).
  lia.
Qed.

Lemma deme_slice_plain (population : list chromosome_t) (dems : Z) (d : nat) :
  1 ≤ dems < 2 ^ 31 → Z.of_nat d < dems →
  dems * size population < 2 ^ 64 →
  let first := (Z.of_nat d * size population) `div` dems in
  let last := ((Z.of_nat d + 1) * size population) `div` dems in
  deme_slice population dems (Z.of_nat d)
    = Some (take (Z.to_nat (last - first))
              (drop (Z.to_nat first) population)) ∧
  0 ≤ first ∧ first ≤ last ≤ size population ∧
  size population `div` dems ≤ last - first ≤ size population `div` dems + 1.
Proof.
  intros Hd Hlt Hsz first last. subst first last.
  assert (0 ≤ size population) as HS by (unfold size; lia).
  pose proof (deme_step (size population) dems
                (Z.of_nat d * size population) ltac:(lia) HS ltac:(nia))
    as Hstep.
  replace (Z.of_nat d * size population + size population)
    with ((Z.of_nat d + 1) * size population) in Hstep by lia.
  assert (0 ≤ size population `div` dems) by (apply Z.div_pos; lia).
  assert (0 ≤ (Z.of_nat d * size population) `div` dems)
    by (apply Z.div_pos; nia).
  assert (((Z.of_nat d + 1) * size population) `div` dems ≤ size population).
  { apply Z.div_le_upper_bound; [lia|]. nia. }
  unfold deme_slice.
  rewrite !deme_bound_plain by lia.
  destruct (decide _) as [_|?]; [|lia].
  split; [done|]. lia.
Qed.

(** The demes that ep cuts out of the population, for a positive number of
    demes and sizes that do not overflow: every range is a range of the
    population, the demes follow one another and together make up the
    population, and each holds [size / dems] or one more individuals. *)
Theorem deme_slices_partition (population : list chromosome_t) (dems : Z) :
  1 ≤ dems < 2 ^ 31 → dems * size population < 2 ^ 64 →
  ∃ slices,
    Forall2 (λ (d : nat) slice,
               deme_slice population dems (Z.of_nat d) = Some slice)
      (seq 0 (Z.to_nat dems)) slices ∧
    concat slices = population ∧
    Forall (λ slice,
              size population `div` dems ≤ size slice
              ≤ size population `div` dems + 1) slices.
Proof.
  intros Hd Hsz.
  assert (∀ k : nat, Z.of_nat k ≤ dems →
    ∃ slices,
      Forall2 (λ (d : nat) slice,
                 deme_slice population dems (Z.of_nat d) = Some slice)
        (seq 0 k) slices ∧
      concat slices
        = take (Z.to_nat ((Z.of_nat k * size population) `div` dems))
            population ∧
      Forall (λ slice,
                size population `div` dems ≤ size slice
                ≤ size population `div` dems + 1) slices) as Hgen.
  { induction k as [|k IH]; intros Hk.
    - exists []. split; [constructor|]. split; [|constructor].
      rewrite Z.mul_0_l, Z.div_0_l by lia. done.
    - destruct IH as (slices & Hall & Hcat & Hsizes); [lia|].
      destruct (deme_slice_plain population dems k Hd ltac:(lia) Hsz)
        as (Heq & H0 & Hr & Hstep).
      set (first := (Z.of_nat k * size population) `div` dems) in *.
      replace (Z.of_nat k + 1) with (Z.of_nat (S k)) in * by lia.
      set (last := (Z.of_nat (S k) * size population) `div` dems) in *.
      exists (slices ++ [take (Z.to_nat (last - first))
                           (drop (Z.to_nat first) population)]).
      split; [|split].
      + rewrite seq_S. simpl. apply Forall2_app; [done|].
        by constructor.
      + rewrite concat_app, Hcat. simpl. rewrite app_nil_r.
        rewrite take_take_drop. f_equal. lia.
      + apply Forall_app. split; [done|]. apply Forall_singleton.
        unfold size in *. rewrite length_take, length_drop. lia. }
  destruct (Hgen (Z.to_nat dems) ltac:(lia)) as (slices & Hall & Hcat & Hs).
  exists slices. split; [done|]. split; [|done].
  rewrite Hcat. rewrite Z2Nat.id by lia.
  rewrite Z.mul_comm, Z.div_mul by lia.
  apply take_ge. unfold size. lia.
Qed.

Lemma deme_slices_partition_witness :
  ∃ slices,
    Forall2 (λ (d : nat) slice,
               deme_slice [[1]; [2]; [3]; [4]; [5]] 2 (Z.of_nat d)
               = Some slice)
      (seq 0 2) slices ∧
    concat slices = [[1]; [2]; [3]; [4]; [5]].
Proof.
  destruct (deme_slices_partition [[1]; [2]; [3]; [4]; [5]] 2)
    as (slices & H1 & H2 & _); [lia | by vm_compute |].
  exists slices. split; [exact H1 | exact H2].
Defined.

Lemma concat_insert_length (np : list (list chromosome_t)) (j : nat)
    (deme deme' : list chromosome_t) :
  np !! j = Some deme →
  (length (concat (<[j := deme']> np)) + length deme
   = length (concat np) + length deme')%nat.
Proof.
  intros Hj.
  assert (length (concat np)
          = length (concat (take j np)) + length deme
            + length (concat (drop (S j) np)))%nat as E.
  { rewrite <- (take_drop_middle np j deme Hj) at 1.
    rewrite concat_app, concat_cons, !length_app. lia. }
  rewrite insert_take_drop by (by eapply lookup_lt_Some).
  rewrite concat_app, concat_cons, !length_app. lia.
Qed.

Section Sizes.

Context {W : Type}.
Variable uniform_int_distribution : Z → Z → W → Z * W.
Variable fitness : chromosome_t → Q.
Variable sort : list chromosome_t → list chromosome_t.

Lemma push_at_total (j : Z) (x : chromosome_t) (np np' : list (list chromosome_t)) :
  push_at j x np = Some np' →
  length (concat np') = S (length (concat np)).
Proof.
  unfold push_at, vec_get, vec_set. intros H.
  destruct (decide (0 ≤ j)); [|done].
  destruct (np !! Z.to_nat j) as [deme|] eqn:Hd; [|done]. simpl in H.
  destruct (decide _); [|done]. injection H as <-.
  pose proof (concat_insert_length np (Z.to_nat j) deme (deme ++ [x]) Hd) as E.
  rewrite length_app in E. simpl in E. lia.
Qed.

Lemma replace_at_sizes (j k : Z) (x : chromosome_t)
    (np np' : list (list chromosome_t)) :
  replace_at j k x np = Some np' →
  length <$> np' = length <$> np.
Proof.
  unfold replace_at, vec_get, vec_set. intros H.
  destruct (decide (0 ≤ j)); [|done].
  destruct (np !! Z.to_nat j) as [deme|] eqn:Hd; [|done]. simpl in H.
  destruct (decide (0 ≤ k < _)); [|done]. simpl in H.
  destruct (decide _); [|done]. injection H as <-.
  rewrite list_fmap_insert, length_insert.
  apply list_insert_id. by rewrite list_lookup_fmap, Hd.
Qed.

Lemma sort_and_cut_total (np cut : list (list chromosome_t)) :
  (∀ l, sort l ≡ₚ l) →
  sort_and_cut sort np = Some cut →
  (length (concat cut) + 2 * length np = length (concat np))%nat ∧
  length cut = length np.
Proof.
  intros sort_permutes.
  revert cut. induction np as [|deme rest IH]; intros cut H; simpl in H.
  - by injection H as <-.
  - unfold drop_two in H. destruct (decide _) as [Hlen|]; [|done].
    simpl in H.
    destruct (sort_and_cut sort rest) as [rest'|]; [|done].
    injection H as <-. destruct (IH rest' eq_refl) as [Ht Hl].
    pose proof (Permutation_length (sort_permutes deme)) as Hp.
    simpl. rewrite !length_app, length_drop. lia.
Qed.

Lemma migrate_from_total (nps : list (list chromosome_t)) (k : nat) :
  ∀ (i : Z) (np r : list (list chromosome_t)),
    migrate_from fitness k i nps np = Some r →
    length (concat r) = (length (concat np) + 2 * k)%nat.
Proof.
  induction k as [|k IH]; intros i np r H; cbn [migrate_from] in H.
  - injection H as <-. lia.
  - destruct (vec_get nps i) as [deme|]; [|done]. simpl in H.
    destruct (max_element fitness deme) as [best|]; [|done]. simpl in H.
    destruct (push_at _ best np) as [np1|] eqn:H1; [|done]. simpl in H.
    destruct (push_at _ best np1) as [np2|] eqn:H2; [|done]. simpl in H.
    apply IH in H. apply push_at_total in H1, H2. lia.
Qed.

Lemma migrate_random_from_sizes (nps : list (list chromosome_t)) (k : nat) :
  ∀ (i : Z) (np : list (list chromosome_t)) (w : W) r w',
    migrate_random_from uniform_int_distribution fitness k i nps np w
      = Some (r, w') →
    length <$> r = length <$> np.
Proof.
  induction k as [|k IH]; intros i np w r w' H;
    cbn [migrate_random_from] in H.
  - by injection H as <- <-.
  - unfold mbind, M_bind, lift, draw_int in H.
    destruct (vec_get nps i) as [deme|]; [|done].
    destruct (max_element fitness deme) as [best|]; [|done].
    destruct (vec_get np _) as [right|]; [|done].
    destruct (vec_get np _) as [left|]; [|done].
    destruct (decide _) as [_|]; [|done].
    destruct (uniform_int_distribution 0 (size left - 1) w) as [l w1].
    destruct (replace_at _ l best np) as [np1|] eqn:H1; [|done].
    destruct (decide _) as [_|]; [|done].
    destruct (uniform_int_distribution 0 (size right - 1) w1) as [r0 w2].
    destruct (replace_at _ r0 best np1) as [np2|] eqn:H2; [|done].
    apply IH in H. apply replace_at_sizes in H1, H2. congruence.
Qed.

Lemma sizes_total (np np' : list (list chromosome_t)) :
  length <$> np' = length <$> np → length (concat np') = length (concat np).
Proof.
  revert np'. induction np as [|d np IH]; intros [|d' np'] H;
    simpl in *; try done.
  injection H as Hd Hrest. rewrite !length_app, Hd. f_equal. by apply IH.
Qed.

Lemma migration_total (random_replace : bool)
    (nps : list (list chromosome_t)) (w : W) r w' :
  (∀ l, sort l ≡ₚ l) →
  migration uniform_int_distribution fitness sort random_replace nps w
    = Some (r, w') →
  length (concat r) = length (concat nps).
Proof.
  intros sort_permutes. unfold migration. destruct random_replace.
  - intros H. apply migrate_random_from_sizes in H. by apply sizes_total.
  - unfold lift, ranked_replacement. intros H.
    destruct (sort_and_cut sort nps) as [cut|] eqn:Hcut; [|done].
    simpl in H.
    destruct (migrate_from fitness (length cut) 0 cut cut) as [r0|] eqn:Hm;
      [|done].
    injection H as <- <-.
    apply sort_and_cut_total in Hcut as [Ht Hl]; [|done].
    apply migrate_from_total in Hm. lia.
Qed.

(** A migration event with random replacement overwrites individuals and
    leaves every deme with its size.  On demes of one common size, at least
    one, it is defined.  Because the position in the right neighbour is
    drawn from the size of the left one, it throws when a deme's left
    neighbour is larger than its right one and the draw exceeds the right
    one's size. *)
Theorem random_replacement_keeps_sizes
    (new_populations : list (list chromosome_t)) (w : W) :
  draws_in_range uniform_int_distribution →
  (∀ r w',
     migration uniform_int_distribution fitness sort true new_populations w
       = Some (r, w') →
     length <$> r = length <$> new_populations) ∧
  (∀ m : nat, (1 ≤ m)%nat →
     Forall (λ deme, length deme = m) new_populations →
     is_Some (migration uniform_int_distribution fitness sort true
                new_populations w)) ∧
  (∀ first right left,
     new_populations !! 0%nat = Some first → first ≠ [] →
     vec_get new_populations (1 `mod` size new_populations) = Some right →
     vec_get new_populations
       ((size new_populations - 1) `mod` size new_populations) = Some left →
     size right ≤ (uniform_int_distribution 0 (size left - 1) w).1 →
     migration uniform_int_distribution fitness sort true new_populations w
       = None).
Proof.
  intros in_range. split; [|split].
  - intros r w' H. unfold migration in H.
    by apply migrate_random_from_sizes in H.
  - intros m Hm Hall. unfold migration.
    assert (∀ (k i : nat) (np : list (list chromosome_t)) (w0 : W),
              (i + k ≤ length new_populations)%nat →
              length np = length new_populations →
              Forall (λ deme, length deme = m) np →
              is_Some (migrate_random_from uniform_int_distribution fitness
                         k (Z.of_nat i) new_populations np w0)) as Hgen.
    { induction k as [|k IH]; intros i np w0 Hik Hlen Hnp;
        cbn [migrate_random_from]; [by eauto|].
      unfold mbind, M_bind, lift.
      destruct (lookup_lt_is_Some_2 new_populations i) as [deme Hdeme]; [lia|].
      rewrite vec_get_nat, Hdeme.
      pose proof (Forall_lookup_1 _ _ _ _ Hall Hdeme) as Hld. simpl in Hld.
      destruct (max_element_defined fitness deme) as [best ->].
      { intros ->. simpl in Hld. lia. }
      set (D := size new_populations).
      assert (0 < D) as HD by (unfold D, size; lia).
      pose proof (Z.mod_pos_bound (Z.of_nat i + 1) D HD) as Hr.
      pose proof (Z.mod_pos_bound (Z.of_nat i + D - 1) D HD) as Hl.
      destruct (lookup_lt_is_Some_2 np (Z.to_nat ((Z.of_nat i + 1) `mod` D)))
        as [right Hright]; [unfold D, size in *; lia|].
      destruct (lookup_lt_is_Some_2 np
                  (Z.to_nat ((Z.of_nat i + D - 1) `mod` D)))
        as [left Hleft]; [unfold D, size in *; lia|].
      pose proof (Forall_lookup_1 _ _ _ _ Hnp Hright) as Hlr.
      pose proof (Forall_lookup_1 _ _ _ _ Hnp Hleft) as Hll.
      simpl in Hlr, Hll.
      unfold vec_get at 1 2.
      destruct (decide (0 ≤ (Z.of_nat i + 1) `mod` D)) as [_|?]; [|lia].
      destruct (decide (0 ≤ (Z.of_nat i + D - 1) `mod` D)) as [_|?]; [|lia].
      rewrite Hright, Hleft. unfold draw_int, size.
      destruct (decide (0 ≤ Z.of_nat (length left) - 1)) as [Hl0|?]; [|lia].
      pose proof (in_range 0 (Z.of_nat (length left) - 1) w0 Hl0) as Hdl.
      destruct (uniform_int_distribution 0 (Z.of_nat (length left) - 1) w0)
        as [l w1]. simpl in Hdl.
      unfold replace_at at 1, vec_get, vec_set.
      destruct (decide (0 ≤ (Z.of_nat i + 1) `mod` D)) as [_|?]; [|lia].
      rewrite Hright. simpl.
      destruct (decide (0 ≤ l < Z.of_nat (length right))) as [_|?]; [|lia].
      simpl.
      destruct (decide (0 ≤ (Z.of_nat i + 1) `mod` D < Z.of_nat (length np)))
        as [_|?]; [|unfold D, size in *; lia].
      set (np1 := <[Z.to_nat ((Z.of_nat i + 1) `mod` D) :=
                      <[Z.to_nat l := best]> right]> np).
      assert (Forall (λ deme, length deme = m) np1) as Hnp1.
      { subst np1. apply Forall_insert; [done|]. by rewrite length_insert. }
      assert (length np1 = length new_populations) as Hlen1.
      { subst np1. by rewrite length_insert. }
      destruct (decide (0 ≤ Z.of_nat (length right) - 1)) as [Hr0|?]; [|lia].
      pose proof (in_range 0 (Z.of_nat (length right) - 1) w1 Hr0) as Hdr.
      destruct (uniform_int_distribution 0 (Z.of_nat (length right) - 1) w1)
        as [r0 w2]. simpl in Hdr.
      destruct (lookup_lt_is_Some_2 np1
                  (Z.to_nat ((Z.of_nat i + D - 1) `mod` D)))
        as [left1 Hleft1]; [unfold D, size in *; lia|].
      pose proof (Forall_lookup_1 _ _ _ _ Hnp1 Hleft1) as Hll1.
      simpl in Hll1.
      unfold replace_at, vec_get, vec_set.
      destruct (decide (0 ≤ (Z.of_nat i + D - 1) `mod` D)) as [_|?]; [|lia].
      rewrite Hleft1. simpl.
      destruct (decide (0 ≤ r0 < Z.of_nat (length left1))) as [_|?]; [|lia].
      simpl.
      destruct (decide (0 ≤ (Z.of_nat i + D - 1) `mod` D
                        < Z.of_nat (length np1)))
        as [_|?]; [|unfold D, size in *; lia].
      replace (Z.of_nat i + 1) with (Z.of_nat (S i)) by lia.
      apply IH; [lia| |].
      - by rewrite length_insert.
      - apply Forall_insert; [done|]. by rewrite length_insert. }
    apply (Hgen (length new_populations) 0%nat); [lia|done|done].
  - intros first right left Hfirst Hne Hright Hleft Hdraw.
    unfold migration.
    destruct new_populations as [|d0 rest] eqn:E; [done|].
    rewrite <- E in *. replace (length new_populations) with (S (length rest))
      by (by rewrite E).
    cbn [migrate_random_from]. unfold mbind, M_bind, lift.
    assert (vec_get new_populations 0 = Some first) as ->.
    { unfold vec_get. simpl. exact Hfirst. }
    destruct (max_element_defined fitness first Hne) as [best ->].
    replace (0 + 1) with 1 by lia.
    replace (0 + size new_populations - 1) with (size new_populations - 1)
      by lia.
    rewrite Hright, Hleft. unfold draw_int.
    destruct (decide (0 ≤ size left - 1)) as [_|]; [|done].
    destruct (uniform_int_distribution 0 (size left - 1) w) as [l w1].
    simpl in Hdraw.
    unfold replace_at at 1. rewrite Hright. simpl.
    assert (vec_set right l best = None) as ->; [|done].
    unfold vec_set. destruct (decide _); [unfold size in *; lia|done].
Qed.

End Sizes.

Section EpFacts.

Context {W : Type}.
Variable uniform_int_distribution : Z → Z → W → Z * W.
Variable select : list chromosome_t → M W chromosome_t.
Variable crossover :
  chromosome_t → chromosome_t → Q → M W (chromosome_t * chromosome_t).
Variable mutation : chromosome_t → Q → M W chromosome_t.
Variable p_crossover : Q.
Variable p_mutation : Q.
Variable term_condition : list chromosome_t → Z → M W bool.
Variable dems : Z.
Variable migration_gap : Z.
Variable fitness : chromosome_t → Q.
Variable sort : list chromosome_t → list chromosome_t.
Variable random_replace : bool.

Local Abbreviation evolve_demes :=
  (evolve_demes select crossover mutation p_crossover p_mutation dems).
Local Abbreviation ep_iteration :=
  (ep_iteration uniform_int_distribution select crossover mutation
     p_crossover p_mutation dems migration_gap fitness sort random_replace).
Local Abbreviation ep_loop :=
  (ep_loop uniform_int_distribution select crossover mutation p_crossover
     p_mutation term_condition dems migration_gap fitness sort
     random_replace).

Lemma evolve_demes_total (population : list chromosome_t) (k : nat) :
  1 ≤ dems < 2 ^ 31 → dems * size population < 2 ^ 64 →
  ∀ (d : nat) (nps : list (list chromosome_t)) (w : W) r w',
    Z.of_nat (d + k) ≤ dems →
    evolve_demes k (Z.of_nat d) population nps w = Some (r, w') →
    Z.of_nat (length (concat r))
    = Z.of_nat (length (concat nps))
      + (Z.of_nat (d + k) * size population) `div` dems
      - (Z.of_nat d * size population) `div` dems.
Proof.
  intros Hd Hsz. induction k as [|k IH]; intros d nps w r w' Hdk H;
    cbn [IslandGA.evolve_demes] in H.
  - injection H as <- <-. replace (d + 0)%nat with d by lia. lia.
  - unfold mbind, M_bind, lift in H.
    destruct (deme_slice_plain population dems d Hd ltac:(lia) Hsz)
      as (Heq & H0 & Hr & _).
    rewrite Heq in H.
    destruct (ga_iteration _ _ _ _ _ _ w) as [[new_pop w1]|] eqn:Hga; [|done].
    apply ga_iteration_length in Hga.
    replace (Z.of_nat d + 1) with (Z.of_nat (S d)) in * by lia.
    apply IH in H; [|lia].
    rewrite concat_app, length_app in H. simpl in H.
    rewrite app_nil_r, Hga, length_take, length_drop in H.
    replace (d + S k)%nat with (S (d + k)) by lia.
    change (S d + k)%nat with (S (d + k)) in H.
    unfold size in *. lia.
Qed.

Lemma ep_iteration_size (iteration : Z) (population : list chromosome_t)
    (w : W) r w' :
  (∀ l, sort l ≡ₚ l) →
  1 ≤ dems < 2 ^ 31 → dems * size population < 2 ^ 64 →
  ep_iteration iteration population w = Some (r, w') →
  length r = length population.
Proof.
  intros sort_permutes Hd Hsz H. unfold IslandGA.ep_iteration, mbind, M_bind, lift in H.
  destruct (evolve_demes _ _ _ _ w) as [[nps w1]|] eqn:Hev; [|done].
  apply (evolve_demes_total population (Z.to_nat dems) Hd Hsz 0) in Hev;
    [|lia].
  simpl in Hev. rewrite Z2Nat.id in Hev by lia.
  rewrite Z.div_0_l in Hev by lia.
  rewrite (Z.mul_comm dems), Z.div_mul in Hev by lia.
  destruct (decide (migration_gap = 0)); [done|].
  destruct (bool_decide _).
  - destruct (migration _ _ _ _ _ w1) as [[nps' w2]|] eqn:Hmig; [|done].
    injection H as <- <-. apply migration_total in Hmig; [|done].
    unfold size in *. lia.
  - injection H as <- <-. unfold size in *. lia.
Qed.

(** The island algorithm, for a positive number of demes and sizes that do
    not overflow, returns a population of the size it was given, whatever
    the closures, the migration mode and the number of iterations, and in
    whatever order the sort, which rearranges a deme, leaves equally fit
    individuals.  With no deme at all one pass leaves an empty population;
    with a migration gap of zero a pass that gets as far as the test for
    migration is undefined. *)
Theorem ep_keeps_population_size
    (fuel : nat) (population final : list chromosome_t) (w w' : W) :
  ((∀ l, sort l ≡ₚ l) →
   1 ≤ dems < 2 ^ 31 → dems * size population < 2 ^ 64 →
   ep uniform_int_distribution select crossover mutation p_crossover
     p_mutation term_condition dems migration_gap fitness sort random_replace
     fuel population w = Some (final, w') →
   length final = length population) ∧
  (dems ≤ 0 → migration_gap ≠ 0 →
   ∀ iteration,
     ∃ w1, ep_iteration iteration population w = Some ([], w1)) ∧
  (migration_gap = 0 → ∀ iteration, ep_iteration iteration population w = None).
Proof.
  split; [|split].
  - intros sort_permutes Hd Hsz. unfold ep.
    generalize 0 as iteration. revert population w Hsz.
    induction fuel as [|fuel0 IH]; intros population w Hsz iteration H;
      cbn [IslandGA.ep_loop] in H; [done|].
    unfold mbind, M_bind in H.
    destruct (term_condition population iteration w) as [[[] w1]|]; [| |done].
    + destruct (ep_iteration iteration population w1) as [[pop1 w2]|] eqn:Hit;
        [|done].
      apply ep_iteration_size in Hit; [|done|done|done].
      apply IH in H; [lia|]. unfold size in *. by rewrite Hit.
    + by injection H as <- <-.
  - intros Hd Hgap iteration.
    unfold IslandGA.ep_iteration, mbind, M_bind, lift, mret, M_ret.
    rewrite Z2Nat.nonpos by lia. cbn [IslandGA.evolve_demes].
    unfold mret, M_ret.
    destruct (decide (migration_gap = 0)); [done|].
    destruct (bool_decide _); [|by eauto].
    unfold migration. destruct random_replace; simpl; by eauto.
  - intros -> iteration.
    unfold IslandGA.ep_iteration, mbind, M_bind, lift.
    destruct (evolve_demes _ _ _ _ w) as [[nps w1]|]; [|done].
    by destruct (decide (0 = 0)).
Qed.

End EpFacts.

Lemma select_picks_fitter_witness :
  ∃ chosen w',
    select Variation.middle_draw (λ c, inject_Z (foldr Z.add 0 c))
      [[0; 1; 2]; [2; 1; 0]; [1; 0; 2]] 0%nat = Some (chosen, w') ∧
    chosen ∈ [[0; 1; 2]; [2; 1; 0]; [1; 0; 2]].
Proof.
  destruct (select_picks_fitter Variation.middle_draw
              (λ c, inject_Z (foldr Z.add 0 c))
              Variation.middle_draw_in_range
              [[0; 1; 2]; [2; 1; 0]; [1; 0; 2]] 0%nat) as [_ H].
  destruct (H ltac:(done)) as (s1 & s2 & chosen & _ & _ & Heq & Hin & _).
  exists chosen. eexists. split; [exact Heq | exact Hin].
Defined.

Lemma corssover_ox_permutations_witness :
  ∃ child1 child2 w',
    corssover_ox Selection.alternating_draw [0; 1; 2; 3] [3; 2; 1; 0]
      (4 # 5) 0%nat = Some ((child1, child2), w') ∧
    child1 ≡ₚ [0; 1; 2; 3] ∧ child2 ≡ₚ [0; 1; 2; 3].
Proof.
  destruct (corssover_ox_permutations Selection.alternating_draw
              Selection.alternating_draw_in_range
              [0; 1; 2; 3] [3; 2; 1; 0] (4 # 5) 0%nat)
    as (c1 & c2 & Heq & H1 & H2 & _).
  - by apply (bool_decide_unpack (NoDup [0; 1; 2; 3])).
  - by apply (bool_decide_unpack ([0; 1; 2; 3] ≡ₚ [3; 2; 1; 0])).
  - done.
  - exists c1, c2. eexists. split; [exact Heq|]. split; [exact H1 | exact H2].
Defined.

Lemma mutation_swap_permutation_witness :
  ∃ c' w',
    mutation_swap Selection.alternating_draw Selection.midpoint_draw
      [0; 1; 2; 3] (3 # 4) 0%nat = Some (c', w') ∧
    c' ≡ₚ [0; 1; 2; 3].
Proof.
  destruct (mutation_swap_permutation Selection.alternating_draw
              Selection.midpoint_draw Selection.alternating_draw_in_range
              [0; 1; 2; 3] (3 # 4) 0%nat) as (_ & _ & H).
  destruct (H ltac:(by vm_compute) ltac:(done)) as (c' & Heq & Hperm & _).
  exists c'. eexists. split; [exact Heq | exact Hperm].
Defined.

(** Concrete instances for runs: the fitness of a chromosome is its first
    gene, the loop of ep is left after two passes, and closures that do as
    little as possible. *)
Definition first_gene (c : chromosome_t) : Q := inject_Z (default 0 (head c)).

Definition two_rounds (pop : list chromosome_t) (iteration : Z)
    : M nat bool := λ w,
  Some (iteration <? 2, w).

Definition pick_one (population : list chromosome_t) : M nat chromosome_t :=
  λ w, Some ([1], w).

Definition keep_both (a b : chromosome_t) (p : Q)
    : M nat (chromosome_t * chromosome_t) := λ w,
  Some ((a, b), w).

Definition keep_one (c : chromosome_t) (p : Q) : M nat chromosome_t := λ w,
  Some (c, w).

Lemma ga_iteration_slots_witness :
  ∃ new_pop w',
    ga_iteration pick_one keep_both keep_one (4 # 5) (1 # 10)
      [[1]; [2]; [3]] 0%nat = Some (new_pop, w') ∧
    new_pop !! 2%nat = Some [].
Proof.
  destruct (ga_iteration_slots pick_one keep_both keep_one (4 # 5) (1 # 10)
              (λ c, c = [1]) [[1]; [2]; [3]] 0%nat)
    as (new_pop & w' & Heq & _ & _ & Hlast).
  - intros w. by exists [1], w.
  - intros a b w -> ->. by exists [1], [1], w.
  - intros c w ->. by exists [1], w.
  - exists new_pop, w'. split; [exact Heq|]. apply Hlast. by exists 1%nat.
Defined.

Lemma ga_iteration_permutations_witness :
  ∃ new_pop w',
    ga_iteration (select Selection.alternating_draw first_gene)
      (corssover_ox Selection.alternating_draw)
      (mutation_swap Selection.alternating_draw Selection.midpoint_draw)
      (4 # 5) (3 # 4) [[0; 1; 2]; [1; 0; 2]; [2; 1; 0]] 0%nat
    = Some (new_pop, w') ∧
    length new_pop = 3%nat.
Proof.
  destruct (ga_iteration_permutations Selection.alternating_draw
              Selection.midpoint_draw first_gene
              Selection.alternating_draw_in_range [0; 1; 2]
              [[0; 1; 2]; [1; 0; 2]; [2; 1; 0]] (4 # 5) (3 # 4) 0%nat)
    as (new_pop & w' & Heq & Hlen & _).
  - by apply (bool_decide_unpack (NoDup [0; 1; 2])).
  - done.
  - done.
  - apply list.Forall_forall. intros c Hc.
    repeat (apply elem_of_cons in Hc as [->|Hc];
            [by apply (bool_decide_unpack (_ ≡ₚ [0; 1; 2]))|]).
    by apply elem_of_nil in Hc.
  - exists new_pop, w'. split; [exact Heq | exact Hlen].
Defined.

Lemma random_replacement_keeps_sizes_witness :
  is_Some (migration Selection.alternating_draw first_gene
             (insertion_sort first_gene) true
             [[[0; 1; 2]; [1; 0; 2]]; [[2; 1; 0]; [0; 2; 1]];
              [[1; 2; 0]; [2; 0; 1]]] 1%nat) ∧
  migration Selection.alternating_draw first_gene (insertion_sort first_gene)
    true
    [[[0; 1; 2]; [1; 0; 2]]; [[2; 1; 0]]; [[0; 2; 1]; [1; 2; 0]; [2; 0; 1]]]
    1%nat = None.
Proof.
  split.
  - destruct (random_replacement_keeps_sizes Selection.alternating_draw
                first_gene (insertion_sort first_gene)
                [[[0; 1; 2]; [1; 0; 2]]; [[2; 1; 0]; [0; 2; 1]];
                 [[1; 2; 0]; [2; 0; 1]]] 1%nat
                Selection.alternating_draw_in_range) as (_ & Hdef & _).
    apply (Hdef 2%nat); [lia|]. by repeat constructor.
  - destruct (random_replacement_keeps_sizes Selection.alternating_draw
                first_gene (insertion_sort first_gene)
                [[[0; 1; 2]; [1; 0; 2]]; [[2; 1; 0]];
                 [[0; 2; 1]; [1; 2; 0]; [2; 0; 1]]] 1%nat
                Selection.alternating_draw_in_range) as (_ & _ & Hthrow).
    apply (Hthrow [[0; 1; 2]; [1; 0; 2]] [[2; 1; 0]]
             [[0; 2; 1]; [1; 2; 0]; [2; 0; 1]]);
      [reflexivity | done | reflexivity | reflexivity | by vm_compute].
Defined.

Lemma ep_keeps_population_size_witness :
  ∃ final w',
    ep Variation.middle_draw (select Selection.alternating_draw first_gene)
      (corssover_ox Selection.alternating_draw)
      (mutation_swap Selection.alternating_draw Selection.midpoint_draw)
      (4 # 5) (3 # 4) two_rounds 2 1 first_gene (insertion_sort first_gene)
      false 5
      [[0; 1; 2]; [1; 0; 2]; [2; 1; 0]; [0; 2; 1]; [1; 2; 0]; [2; 0; 1]]
      0%nat = Some (final, w') ∧
    length final = 6%nat.
Proof.
  destruct (ep_keeps_population_size Variation.middle_draw
              (select Selection.alternating_draw first_gene)
              (corssover_ox Selection.alternating_draw)
              (mutation_swap Selection.alternating_draw
                 Selection.midpoint_draw)
              (4 # 5) (3 # 4) two_rounds 2 1 first_gene
              (insertion_sort first_gene) false 5
              [[0; 1; 2]; [1; 0; 2]; [2; 1; 0]; [0; 2; 1]; [1; 2; 0];
               [2; 0; 1]]
              [[2; 0; 1]; [2; 0; 1]; [2; 0; 1]; [2; 0; 1]; [2; 0; 1];
               [2; 0; 1]]
              0%nat 48%nat) as [Hsize _].
  eexists _, _. split; [vm_compute; reflexivity|].
  apply Hsize;
    [apply insertion_sort_perm | lia | by vm_compute | vm_compute; reflexivity].
Defined.

End IslandGA.
